(** * The text-to-LaTeX conversion engine of latex.go

    A shallow embedding of [LaTeXConverter] (latex.go, lines 25-199) and of
    the parts of the Go standard library it calls ([strings], [unicode],
    [unicode/utf8], [regexp]), followed by the properties of the engine.

    Go strings are byte sequences; they are modelled as lists of [ascii]
    (one [ascii] is one byte).  Runes are code points in [Z]. *)

From Stdlib Require Import String Ascii.
From Stdlib Require Import List ZArith Bool Lia Permutation.
From Stdlib Require Import PrimFloat Uint63.
From Stdlib Require FloatAxioms.
Import ListNotations.
Local Open Scope Z_scope.

(** ** Strings as byte sequences *)

Definition str : Type := list ascii.

(** A literal of the source, as its bytes. *)
Definition lit (s : string) : str := list_ascii_of_string s.

Definition byteval (c : ascii) : Z := Z.of_N (N_of_ascii c).
Definition byte_of (v : Z) : ascii := ascii_of_N (Z.to_N v).

Definition NL : ascii := "010"%char.
Definition BSL : ascii := "\"%char.

Definition str_eqb (a b : str) : bool :=
  if list_eq_dec ascii_dec a b then true else false.

Definition isEmpty (s : str) : bool :=
  match s with [] => true | _ => false end.

Definition inRange (v lo hi : Z) : bool := (lo <=? v) && (v <=? hi).

(** ** unicode/utf8 *)

Module utf8.

Definition RuneError : Z := 65533.
Definition RuneSelf : Z := 128.
Definition MaxRune : Z := 1114111.

(** [RuneStart b]: [b&0xC0 != 0x80]. *)
Definition RuneStart (c : ascii) : bool :=
  negb (Z.land (byteval c) 192 =? 128).

(** [DecodeRuneInString]: the first rune of [s] and its width in bytes;
    [(RuneError, 0)] on the empty string and [(RuneError, 1)] on an invalid
    or incomplete encoding.  The accepted second-byte ranges are those of
    the decoder's [first] and [acceptRanges] tables. *)
Definition DecodeRuneInString (s : str) : Z * nat :=
  match s with
  | [] => (RuneError, 0%nat)
  | c0 :: t =>
    let b0 := byteval c0 in
    if b0 <? 128 then (b0, 1%nat)
    else if b0 <? 194 then (RuneError, 1%nat)
    else if b0 <? 224 then
      match t with
      | c1 :: _ =>
        let b1 := byteval c1 in
        if inRange b1 128 191
        then (Z.lor (Z.shiftl (Z.land b0 31) 6) (Z.land b1 63), 2%nat)
        else (RuneError, 1%nat)
      | _ => (RuneError, 1%nat)
      end
    else if b0 <? 240 then
      let lo := if b0 =? 224 then 160 else 128 in
      let hi := if b0 =? 237 then 159 else 191 in
      match t with
      | c1 :: c2 :: _ =>
        let b1 := byteval c1 in
        let b2 := byteval c2 in
        if inRange b1 lo hi && inRange b2 128 191
        then (Z.lor (Z.shiftl (Z.land b0 15) 12)
                (Z.lor (Z.shiftl (Z.land b1 63) 6) (Z.land b2 63)), 3%nat)
        else (RuneError, 1%nat)
      | _ => (RuneError, 1%nat)
      end
    else if b0 <? 245 then
      let lo := if b0 =? 240 then 144 else 128 in
      let hi := if b0 =? 244 then 143 else 191 in
      match t with
      | c1 :: c2 :: c3 :: _ =>
        let b1 := byteval c1 in
        let b2 := byteval c2 in
        let b3 := byteval c3 in
        if inRange b1 lo hi && inRange b2 128 191 && inRange b3 128 191
        then (Z.lor (Z.shiftl (Z.land b0 7) 18)
                (Z.lor (Z.shiftl (Z.land b1 63) 12)
                   (Z.lor (Z.shiftl (Z.land b2 63) 6) (Z.land b3 63))), 4%nat)
        else (RuneError, 1%nat)
      | _ => (RuneError, 1%nat)
      end
    else (RuneError, 1%nat)
  end.

(** [DecodeLastRuneInString], on the reversed string [rs] (head = last
    byte).  The source looks back over at most three more bytes for a rune
    start, decodes from there and accepts the rune only when it ends exactly
    at the end of the string. *)
Definition decodeLastCheck (seg : str) : Z * nat :=
  let (r, size) := DecodeRuneInString seg in
  if Nat.eqb size (length seg) then (r, size) else (RuneError, 1%nat).

Definition DecodeLastRuneRev (rs : str) : Z * nat :=
  match rs with
  | [] => (RuneError, 0%nat)
  | c :: t =>
    if byteval c <? RuneSelf then (byteval c, 1%nat)
    else
      match t with
      | [] => (RuneError, 1%nat)
      | c1 :: t1 =>
        if RuneStart c1 then decodeLastCheck [c1; c]
        else
          match t1 with
          | [] => (RuneError, 1%nat)
          | c2 :: t2 =>
            if RuneStart c2 then decodeLastCheck [c2; c1; c]
            else
              match t2 with
              | [] => (RuneError, 1%nat)
              | c3 :: _ =>
                if RuneStart c3 then decodeLastCheck [c3; c2; c1; c]
                else (RuneError, 1%nat)
              end
          end
      end
  end.

Definition DecodeLastRuneInString (s : str) : Z * nat :=
  DecodeLastRuneRev (rev s).

(** [string(r)] for a rune [r]: its UTF-8 encoding, that of U+FFFD for a
    value that is not a valid code point. *)
Definition encode (r : Z) : str :=
  if r <? 128 then [byte_of r]
  else if r <? 2048 then
    [byte_of (Z.lor 192 (Z.shiftr r 6)); byte_of (Z.lor 128 (Z.land r 63))]
  else if r <? 65536 then
    [byte_of (Z.lor 224 (Z.shiftr r 12));
     byte_of (Z.lor 128 (Z.land (Z.shiftr r 6) 63));
     byte_of (Z.lor 128 (Z.land r 63))]
  else
    [byte_of (Z.lor 240 (Z.shiftr r 18));
     byte_of (Z.lor 128 (Z.land (Z.shiftr r 12) 63));
     byte_of (Z.lor 128 (Z.land (Z.shiftr r 6) 63));
     byte_of (Z.lor 128 (Z.land r 63))].

Definition validRune (r : Z) : bool :=
  (inRange r 0 55295) || (inRange r 57344 MaxRune).

Definition runeString (r : Z) : str :=
  if validRune r then encode r else encode RuneError.

End utf8.

(** A decoded character: the rune and the bytes that encode it in the
    string (one byte, with rune U+FFFD, for an invalid byte). *)
Record rchar : Type := RChar { rune : Z; enc : str }.

(** The runes of a string in order, as [for _, char := range text] and the
    regexp input produce them: decode at the current position, advance by
    the width.  [skip] counts bytes of the current rune still to pass. *)
Fixpoint runesFrom (skip : nat) (s : str) : list rchar :=
  match s with
  | [] => []
  | _ :: t =>
    match skip with
    | S k => runesFrom k t
    | O =>
      let (r, w) := utf8.DecodeRuneInString s in
      RChar r (firstn w s) :: runesFrom (w - 1) t
    end
  end.

Definition runes (s : str) : list rchar := runesFrom 0 s.

Definition encAll (cs : list rchar) : str := flat_map enc cs.

(** ** What the Go release and runtime decide

    Two things the program depends on are fixed neither by latex.go nor by
    the language: the Unicode table [unicode.Digit] of the release (needed
    only above Latin-1), and the order in which a [range] over a map visits
    its entries, which the language leaves unspecified and the runtime
    varies from one [range] statement to the next.  [mapOrder n] is the order
    taken by the [n]-th map iteration of a run. *)
Record GoEnv : Type := {
  digitTable : Z -> bool;
  mapOrder : nat -> forall A : Type, list A -> list A;
  mapOrder_perm : forall n A (l : list A), Permutation (mapOrder n A l) l
}.

(** ** unicode *)

Module unicode.

Definition MaxLatin1 : Z := 255.

(** [IsSpace]: the Latin-1 cases of the source's switch, then the
    [White_Space] table. *)
Definition IsSpace (r : Z) : bool :=
  if inRange r 0 MaxLatin1 then
    (r =? 9) || (r =? 10) || (r =? 11) || (r =? 12) || (r =? 13)
    || (r =? 32) || (r =? 133) || (r =? 160)
  else
    (r =? 5760) || inRange r 8192 8202 || inRange r 8232 8233
    || (r =? 8239) || (r =? 8287) || (r =? 12288).

(** [IsDigit]: ['0' <= r && r <= '9'] up to Latin-1, the table above. *)
Definition IsDigit (env : GoEnv) (r : Z) : bool :=
  if inRange r 0 MaxLatin1 then inRange r 48 57 else digitTable env r.

End unicode.

(** ** strings *)

Module strings.

(** [HasPrefix s prefix]. *)
Fixpoint HasPrefix (s p : str) {struct p} : bool :=
  match p with
  | [] => true
  | a :: p' =>
    match s with
    | [] => false
    | b :: s' => Ascii.eqb a b && HasPrefix s' p'
    end
  end.

Fixpoint Contains (s substr : str) : bool :=
  HasPrefix s substr ||
  match s with
  | [] => false
  | _ :: t => Contains t substr
  end.

(** [ContainsAny s chars]: some code point of [chars] occurs in [s]
    ([chars] is valid UTF-8 at its one call site). *)
Definition ContainsAny (s chars : str) : bool :=
  existsb (fun c => existsb (fun d => rune d =? rune c) (runes chars))
          (runes s).

(** [Split s sep] with a non-empty separator cuts at the successive
    non-overlapping occurrences of [sep]; with an empty one it explodes [s]
    into its UTF-8 sequences (an invalid byte becomes U+FFFD). *)
Fixpoint splitFrom (sep : str) (skip : nat) (cur : str) (s : str)
  : list str :=
  match s with
  | [] => [rev cur]
  | c :: t =>
    match skip with
    | S k => splitFrom sep k cur t
    | O =>
      if HasPrefix s sep
      then rev cur :: splitFrom sep (length sep - 1) [] t
      else splitFrom sep 0 (c :: cur) t
    end
  end.

Definition explode (s : str) : list str :=
  map (fun ch =>
         if (rune ch =? utf8.RuneError) && Nat.eqb (length (enc ch)) 1
         then utf8.encode utf8.RuneError else enc ch)
      (runes s).

Definition Split (s sep : str) : list str :=
  if isEmpty sep then explode s else splitFrom sep 0 [] s.

Fixpoint Join (elems : list str) (sep : str) : str :=
  match elems with
  | [] => []
  | [e] => e
  | e :: rest => e ++ sep ++ Join rest sep
  end.

(** [ReplaceAll s old new]: every non-overlapping occurrence of [old],
    from the left; an empty [old] matches before every rune and at the
    end. *)
Fixpoint replaceFrom (old new : str) (skip : nat) (s : str) : str :=
  match s with
  | [] => []
  | c :: t =>
    match skip with
    | S k => replaceFrom old new k t
    | O =>
      if HasPrefix s old
      then new ++ replaceFrom old new (length old - 1) t
      else c :: replaceFrom old new 0 t
    end
  end.

Definition ReplaceAll (s old new : str) : str :=
  if isEmpty old
  then new ++ flat_map (fun ch => enc ch ++ new) (runes s)
  else replaceFrom old new 0 s.

(** [TrimLeftFunc s f]: drop leading runes while [f] holds. *)
Fixpoint trimLeftFrom (f : Z -> bool) (skip : nat) (s : str) : str :=
  match s with
  | [] => []
  | _ :: t =>
    match skip with
    | S k => trimLeftFrom f k t
    | O =>
      let (r, w) := utf8.DecodeRuneInString s in
      if f r then trimLeftFrom f (w - 1) t else s
    end
  end.

Definition TrimLeftFunc (s : str) (f : Z -> bool) : str :=
  trimLeftFrom f 0 s.

(** [lastIndexFunc s f truth], walking the reversed string: the index at
    which the last rune with [f r = truth] starts, runes being decoded
    backwards from the end; [None] is the source's [-1]. *)
Fixpoint lastIndexFuncRev (f : Z -> bool) (truth : bool) (skip : nat)
  (rs : str) : option nat :=
  match rs with
  | [] => None
  | _ :: t =>
    match skip with
    | S k => lastIndexFuncRev f truth k t
    | O =>
      let (r, size) := utf8.DecodeLastRuneRev rs in
      if Bool.eqb (f r) truth then Some (length rs - size)%nat
      else lastIndexFuncRev f truth (size - 1) t
    end
  end.

Definition lastIndexFunc (s : str) (f : Z -> bool) (truth : bool)
  : option nat :=
  lastIndexFuncRev f truth 0 (rev s).

(** [TrimRightFunc]: [i := lastIndexFunc(s, f, false)]; when [i >= 0] and
    [s[i] >= RuneSelf] the end is [i] plus the width of the rune decoded
    forwards at [i], otherwise [i+1]. *)
Definition TrimRightFunc (s : str) (f : Z -> bool) : str :=
  match lastIndexFunc s f false with
  | None => []
  | Some i =>
    match skipn i s with
    | c :: _ =>
      if utf8.RuneSelf <=? byteval c
      then firstn (i + snd (utf8.DecodeRuneInString (skipn i s))) s
      else firstn (i + 1) s
    | [] => firstn (i + 1) s
    end
  end.

Definition TrimFunc (s : str) (f : Z -> bool) : str :=
  TrimRightFunc (TrimLeftFunc s f) f.

(** The table [asciiSpace]. *)
Definition asciiSpace (c : ascii) : bool :=
  let v := byteval c in
  (v =? 9) || (v =? 10) || (v =? 11) || (v =? 12) || (v =? 13) || (v =? 32).

(** The outcome of one of [TrimSpace]'s two ASCII scans: the scan stopped
    at a byte that is not an ASCII space ([Stopped], with what is left), or
    ran into a byte [>= RuneSelf] ([NonASCII], with what is left), on which
    the source falls back to the rune-aware trimmers. *)
Inductive scan : Type :=
| Stopped (rest : str)
| NonASCII (rest : str).

Fixpoint asciiScan (s : str) : scan :=
  match s with
  | [] => Stopped []
  | c :: t =>
    if utf8.RuneSelf <=? byteval c then NonASCII s
    else if asciiSpace c then asciiScan t
    else Stopped s
  end.

Definition TrimSpace (s : str) : str :=
  match asciiScan s with
  | NonASCII rest => TrimFunc rest unicode.IsSpace
  | Stopped rest =>
    match asciiScan (rev rest) with
    | NonASCII rrest => TrimRightFunc (rev rrest) unicode.IsSpace
    | Stopped rrest => rev rrest
    end
  end.

End strings.

(** ** Results and panics

    [regexp.MustCompile] panics on a pattern it cannot compile, and the
    engine compiles patterns while it runs; a computation therefore ends in
    a value or in a panic.  The state threaded through a run is the number
    of map iterations begun so far (the index into [mapOrder]). *)
Inductive Res (A : Type) : Type :=
| Ok (a : A)
| Panic (msg : str).
Arguments Ok {A} a.
Arguments Panic {A} msg.

Definition M (A : Type) : Type := nat -> Res (A * nat).

Definition ret {A} (a : A) : M A := fun n => Ok (a, n).

Definition bind {A B} (m : M A) (f : A -> M B) : M B :=
  fun n =>
    match m n with
    | Ok (a, n') => f a n'
    | Panic msg => Panic msg
    end.

Definition lift {A} (r : Res A) : M A :=
  fun n =>
    match r with
    | Ok a => Ok (a, n)
    | Panic msg => Panic msg
    end.

Notation "x <- m ;; k" := (bind m (fun x => k))
  (at level 61, m at next level, right associativity).

(** [for k, v := range m]: the entries of the map in the order the runtime
    picks for this iteration. *)
Definition rangeMap {A} (env : GoEnv) (m : list A) : M (list A) :=
  fun n => Ok (mapOrder env n A m, S n).

(** ** regexp *)

Module regexp.

(** A set of runes: a bracket expression or an escape such as [\d]
    ([CSet negated ranges]), or the dot, which matches every rune but the
    newline.  A negated set does match the newline. *)
Inductive cclass : Type :=
| CSet (neg : bool) (ranges : list (Z * Z))
| CAny.

Definition inRanges (rs : list (Z * Z)) (r : Z) : bool :=
  existsb (fun p => inRange r (fst p) (snd p)) rs.

Definition accepts (c : cclass) (r : Z) : bool :=
  match c with
  | CSet neg rs => xorb neg (inRanges rs r)
  | CAny => negb (r =? 10)
  end.

(** The syntax trees of the patterns.  Every repetition in the patterns of
    latex.go is over a single rune set, and the tree has repetition in that
    form only ([Star], [Plus], both greedy). *)
Inductive regex : Type :=
| Eps
| Cls (c : cclass)
| Star (c : cclass)
| Plus (c : cclass)
| Cat (r1 r2 : regex)
| Alt (r1 r2 : regex)
| Cap (i : nat) (r : regex)
| WordBoundary
| BeginText
| EndText.

Definition digitRanges : list (Z * Z) := [(48, 57)].
Definition wordRanges : list (Z * Z) := [(48, 57); (65, 90); (95, 95); (97, 122)].
Definition spaceRanges : list (Z * Z) := [(9, 10); (12, 13); (32, 32)].

Definition isPunct (v : Z) : bool :=
  inRange v 33 47 || inRange v 58 64 || inRange v 91 96 || inRange v 123 126.

Definition cat (a b : regex) : regex :=
  match b with
  | Eps => a
  | _ => Cat a b
  end.

(** *** Parsing a pattern

    The part of the RE2 syntax that latex.go uses: literals, [.], [^], [$],
    [\d \w \s \b], escaped punctuation, bracket expressions with ranges and
    negation, capturing groups, [|], and [+] and [*] on a single rune set.
    Anything else is refused, which the model of [MustCompile] turns into a
    panic. *)

(** The ranges of one escape inside or outside brackets. *)
Definition escapeRanges (c : ascii) : option (list (Z * Z)) :=
  let v := byteval c in
  if v =? 100 then Some digitRanges
  else if v =? 119 then Some wordRanges
  else if v =? 115 then Some spaceRanges
  else if isPunct v then Some [(v, v)]
  else None.

(** One end of a range in a bracket expression: a plain or escaped byte
    (a hyphen has to be escaped). *)
Definition classChar (s : str) : option (Z * str) :=
  match s with
  | [] => None
  | c :: t =>
    let v := byteval c in
    if v =? 92 then
      match t with
      | e :: t' => if isPunct (byteval e) then Some (byteval e, t') else None
      | [] => None
      end
    else if (128 <=? v) || (v =? 93) || (v =? 45) then None
    else Some (v, t)
  end.

Definition startsWith (v : Z) (s : str) : bool :=
  match s with
  | c :: _ => byteval c =? v
  | [] => false
  end.

(** A single item of a bracket expression, or a range [lo-hi]. *)
Definition classItem (s : str) : option (Z * Z * str) :=
  match classChar s with
  | None => None
  | Some (lo, rest) =>
    match rest with
    | [] => None
    | d :: rest' =>
      if (byteval d =? 45) && negb (startsWith 93 rest') then
        match classChar rest' with
        | Some (hi, rest'') => if lo <=? hi then Some (lo, hi, rest'') else None
        | None => None
        end
      else Some (lo, lo, rest)
    end
  end.

(** The items of a bracket expression up to the closing bracket. *)
Fixpoint parseClassItems (fuel : nat) (s : str) (acc : list (Z * Z))
  : option (list (Z * Z) * str) :=
  match fuel with
  | O => None
  | S f =>
    if startsWith 93 s then
      match acc with
      | [] => None
      | _ => Some (rev acc, tl s)
      end
    else
      match s with
      | c :: e :: t =>
        if (byteval c =? 92) && negb (isPunct (byteval e)) then
          match escapeRanges e with
          | Some rs => parseClassItems f t (rev rs ++ acc)
          | None => None
          end
        else
          match classItem s with
          | Some (lo, hi, rest) => parseClassItems f rest ((lo, hi) :: acc)
          | None => None
          end
      | _ => None
      end
  end.

Definition parseClass (s : str) : option (cclass * str) :=
  let neg := startsWith 94 s in
  let body := if neg then tl s else s in
  match parseClassItems (S (length body)) body [] with
  | Some (rs, rest) => Some (CSet neg rs, rest)
  | None => None
  end.

(** An escape outside brackets. *)
Definition parseEscape (e : ascii) : option regex :=
  if byteval e =? 98 then Some WordBoundary
  else
    match escapeRanges e with
    | Some rs => Some (Cls (CSet false rs))
    | None => None
    end.

(** A postfix [+] or [*] applies to a single rune set. *)
Definition parsePostfix (a : regex) (s : str) : option (regex * str) :=
  match s with
  | c :: t =>
    if byteval c =? 43 then
      match a with
      | Cls cl => Some (Plus cl, t)
      | _ => None
      end
    else if byteval c =? 42 then
      match a with
      | Cls cl => Some (Star cl, t)
      | _ => None
      end
    else Some (a, s)
  | [] => Some (a, s)
  end.

(** Alternation, concatenation and atoms; [n] is the number of capturing
    groups opened so far. *)
Fixpoint parseAlt (fuel : nat) (s : str) (n : nat)
  : option (regex * str * nat) :=
  match fuel with
  | O => None
  | S f =>
    match parseCat f s n with
    | Some (r1, s1, n1) =>
      if startsWith 124 s1 then
        match parseAlt f (tl s1) n1 with
        | Some (r2, s2, n2) => Some (Alt r1 r2, s2, n2)
        | None => None
        end
      else Some (r1, s1, n1)
    | None => None
    end
  end
with parseCat (fuel : nat) (s : str) (n : nat)
  : option (regex * str * nat) :=
  match fuel with
  | O => None
  | S f =>
    match s with
    | [] => Some (Eps, s, n)
    | c :: _ =>
      if (byteval c =? 124) || (byteval c =? 41) then Some (Eps, s, n)
      else
        match parseAtom f s n with
        | Some (a, s1, n1) =>
          match parsePostfix a s1 with
          | Some (p, s2) =>
            match parseCat f s2 n1 with
            | Some (r, s3, n3) => Some (cat p r, s3, n3)
            | None => None
            end
          | None => None
          end
        | None => None
        end
    end
  end
with parseAtom (fuel : nat) (s : str) (n : nat)
  : option (regex * str * nat) :=
  match fuel with
  | O => None
  | S f =>
    match s with
    | [] => None
    | c :: t =>
      let v := byteval c in
      if v =? 40 then
        if startsWith 63 t then None
        else
          match parseAlt f t (S n) with
          | Some (r, s1, n1) =>
            if startsWith 41 s1 then Some (Cap (S n) r, tl s1, n1) else None
          | None => None
          end
      else if v =? 91 then
        match parseClass t with
        | Some (cl, rest) => Some (Cls cl, rest, n)
        | None => None
        end
      else if v =? 92 then
        match t with
        | e :: t' =>
          match parseEscape e with
          | Some r => Some (r, t', n)
          | None => None
          end
        | [] => None
        end
      else if v =? 46 then Some (Cls CAny, t, n)
      else if v =? 94 then Some (BeginText, t, n)
      else if v =? 36 then Some (EndText, t, n)
      else if (v =? 42) || (v =? 43) || (v =? 63) || (v =? 123) || (128 <=? v)
      then None
      else Some (Cls (CSet false [(v, v)]), t, n)
    end
  end.

(** A compiled pattern: its tree and its number of capturing groups. *)
Record Regexp : Type := { tree : regex; numSubexp : nat }.

Definition Compile (pattern : str) : option Regexp :=
  match parseAlt (3 * length pattern + 3) pattern 0 with
  | Some (r, [], n) => Some {| tree := r; numSubexp := n |}
  | _ => None
  end.

(** [MustCompile]: [Compile], with a panic on an error. *)
Definition MustCompile (pattern : str) : Res Regexp :=
  match Compile pattern with
  | Some re => Ok re
  | None => Panic (lit "regexp: Compile: cannot parse pattern")
  end.

(** *** Matching

    The input is the list of runes still to read, with the rune just
    before the position ([None] at the beginning of the text), which the
    word-boundary and begin-of-text tests look at.  Matching is leftmost
    and prefers the first alternative and the longer repetition, the order
    in which a backtracking search finds matches. *)

Definition caps : Type := list (nat * str).

Definition cont : Type :=
  option Z -> list rchar -> caps -> option (list rchar * caps).

Definition isWordRune (r : Z) : bool := inRanges wordRanges r.

Definition isWordOpt (o : option Z) : bool :=
  match o with
  | Some r => isWordRune r
  | None => false
  end.

Definition nextRune (inp : list rchar) : option Z :=
  match inp with
  | ch :: _ => Some (rune ch)
  | [] => None
  end.

(** The bytes read between two positions of the same input. *)
Definition consumed (from to : list rchar) : str :=
  encAll (firstn (length from - length to) from).

Fixpoint starLoop (c : cclass) (k : cont) (prev : option Z)
  (inp : list rchar) (cs : caps) : option (list rchar * caps) :=
  match inp with
  | [] => k prev [] cs
  | ch :: rest =>
    if accepts c (rune ch) then
      match starLoop c k (Some (rune ch)) rest cs with
      | Some res => Some res
      | None => k prev inp cs
      end
    else k prev inp cs
  end.

Fixpoint matchRe (r : regex) (k : cont) (prev : option Z)
  (inp : list rchar) (cs : caps) : option (list rchar * caps) :=
  match r with
  | Eps => k prev inp cs
  | Cls c =>
    match inp with
    | ch :: rest =>
      if accepts c (rune ch) then k (Some (rune ch)) rest cs else None
    | [] => None
    end
  | Star c => starLoop c k prev inp cs
  | Plus c =>
    match inp with
    | ch :: rest =>
      if accepts c (rune ch) then starLoop c k (Some (rune ch)) rest cs
      else None
    | [] => None
    end
  | Cat r1 r2 => matchRe r1 (matchRe r2 k) prev inp cs
  | Alt r1 r2 =>
    match matchRe r1 k prev inp cs with
    | Some res => Some res
    | None => matchRe r2 k prev inp cs
    end
  | Cap i r1 =>
    matchRe r1 (fun p inp' cs' => k p inp' ((i, consumed inp inp') :: cs'))
            prev inp cs
  | WordBoundary =>
    if xorb (isWordOpt prev) (isWordOpt (nextRune inp)) then k prev inp cs
    else None
  | BeginText =>
    match prev with
    | None => k prev inp cs
    | Some _ => None
    end
  | EndText =>
    match inp with
    | [] => k prev inp cs
    | _ => None
    end
  end.

(** A match starting at the current position: what is left of the input
    after it, and the groups (group 0 is the whole match). *)
Definition matchHere (re : Regexp) (prev : option Z) (inp : list rchar)
  : option (list rchar * caps) :=
  matchRe (tree re)
          (fun _ inp' cs => Some (inp', (0%nat, consumed inp inp') :: cs))
          prev inp [].

Fixpoint searchFrom (re : Regexp) (prev : option Z) (inp : list rchar)
  : bool :=
  match matchHere re prev inp with
  | Some _ => true
  | None =>
    match inp with
    | [] => false
    | ch :: rest => searchFrom re (Some (rune ch)) rest
    end
  end.

(** [re.MatchString(s)]: some substring of [s] matches. *)
Definition MatchString (re : Regexp) (s : str) : bool :=
  searchFrom re None (runes s).

(** *** Replacement templates *)

Definition isNameByte (c : ascii) : bool :=
  let v := byteval c in
  inRange v 48 57 || inRange v 65 90 || inRange v 97 122 || (v =? 95).

Fixpoint nameLen (s : str) : nat :=
  match s with
  | c :: t => if isNameByte c then S (nameLen t) else O
  | [] => O
  end.

(** The number a name denotes, [None] when it is not one (the source's
    [-1]): digits only, below 1e8 before each step, no leading zero. *)
Fixpoint parseNum (name : str) (num : Z) : option Z :=
  match name with
  | [] => Some num
  | c :: t =>
    let v := byteval c in
    if (v <? 48) || (57 <? v) || (100000000 <=? num) then None
    else parseNum t (num * 10 + v - 48)
  end.

Definition nameNum (name : str) : option Z :=
  match name with
  | c :: _ :: _ => if byteval c =? 48 then None else parseNum name 0
  | _ => parseNum name 0
  end.

(** [extract] on the text after a dollar sign: the number of the group
    named, and how many bytes the reference takes; [None] when there is no
    well-formed name.  (The program's templates are ASCII; the name bytes
    are the ASCII letters, digits and underscore.) *)
Definition extract (s : str) : option (option Z * nat) :=
  match s with
  | [] => None
  | c :: t =>
    let brace := byteval c =? 123 in
    let body := if brace then t else s in
    let i := nameLen body in
    match i with
    | O => None
    | _ =>
      let name := firstn i body in
      if brace then
        if startsWith 125 (skipn i body)
        then Some (nameNum name, (i + 2)%nat)
        else None
      else Some (nameNum name, i)
    end
  end.

Definition group (re : Regexp) (cs : caps) (num : option Z) : str :=
  match num with
  | None => []
  | Some z =>
    if Z.of_nat (numSubexp re) <? z then []
    else
      match find (fun p => Nat.eqb (fst p) (Z.to_nat z)) cs with
      | Some p => snd p
      | None => []
      end
  end.

(** [expand]: the template with each [$name], [${name}] replaced by the
    text of the group and [$$] by a dollar sign; a dollar sign that starts
    no reference is kept. *)
Fixpoint expandFrom (re : Regexp) (cs : caps) (skip : nat) (tpl : str)
  : str :=
  match tpl with
  | [] => []
  | c :: t =>
    match skip with
    | S k => expandFrom re cs k t
    | O =>
      if byteval c =? 36 then
        if startsWith 36 t then c :: expandFrom re cs 1 t
        else
          match extract t with
          | Some (num, used) => group re cs num ++ expandFrom re cs used t
          | None => c :: expandFrom re cs 0 t
          end
      else c :: expandFrom re cs 0 t
    end
  end.

Definition expand (re : Regexp) (tpl : str) (cs : caps) : str :=
  expandFrom re cs 0 tpl.

(** *** ReplaceAllString

    The loop of [replaceAll]: find the leftmost match at or after the
    current position, copy what precedes it, put the expansion (but not for
    an empty match that begins where the previous match ended), and go on
    after the match, at least one rune further.  [skip] counts the runes of
    the current match still to pass; [afterMatch] tells that a match ended
    at the current position. *)
Fixpoint replaceAll (re : Regexp) (repl : str) (skip : nat)
  (afterMatch : bool) (prev : option Z) (inp : list rchar) : str :=
  match inp with
  | [] =>
    match skip with
    | S _ => []
    | O =>
      match matchHere re prev [] with
      | Some (_, cs) => if afterMatch then [] else expand re repl cs
      | None => []
      end
    end
  | ch :: rest =>
    match skip with
    | S k => replaceAll re repl k true (Some (rune ch)) rest
    | O =>
      match matchHere re prev inp with
      | Some (inp', cs) =>
        match (length inp - length inp')%nat with
        | O =>
          (if afterMatch then [] else expand re repl cs)
            ++ enc ch ++ replaceAll re repl 0 false (Some (rune ch)) rest
        | S n =>
          expand re repl cs ++ replaceAll re repl n true (Some (rune ch)) rest
        end
      | None => enc ch ++ replaceAll re repl 0 false (Some (rune ch)) rest
      end
    end
  end.

Definition ReplaceAllString (re : Regexp) (src repl : str) : str :=
  replaceAll re repl 0 false None (runes src).

End regexp.

(** ** latex.go: LaTeXConverter *)

(** A Go map is kept as the list of the entries of its literal (the keys
    are distinct); the order of that list is never observed, a [range] over
    the map goes through [rangeMap]. *)
Record LaTeXConverter : Type := {
  specialChars : list (str * str);
  mathPatterns : list regexp.Regexp
}.

(** The elements of a slice literal of [regexp.MustCompile] calls, compiled
    from left to right. *)
Fixpoint mustCompileAll (patterns : list str) : Res (list regexp.Regexp) :=
  match patterns with
  | [] => Ok []
  | p :: rest =>
    match regexp.MustCompile p with
    | Ok re =>
      match mustCompileAll rest with
      | Ok res => Ok (re :: res)
      | Panic msg => Panic msg
      end
    | Panic msg => Panic msg
    end
  end.

Definition specialCharsLiteral : list (str * str) :=
  [ (lit "&", lit "\&");
    (lit "%", lit "\%");
    (lit "$", lit "\$");
    (lit "#", lit "\#");
    (lit "_", lit "\_");
    (lit "{", lit "\{");
    (lit "}", lit "\}");
    (lit "~", lit "\textasciitilde{}");
    (lit "^", lit "\textasciicircum{}");
    (lit "\", lit "\textbackslash{}") ].

Definition mathPatternsLiteral : list str :=
  [ lit "[=+\-*/^()\[\]]";
    lit "\d+[+\-*/]\d+";
    lit "[a-zA-Z]\s*=\s*\d+";
    lit "[a-zA-Z]\([^)]+\)";
    lit "\\[a-zA-Z]+";
    lit "\$\$";
    lit "\b(sin|cos|tan|log|ln|lim|sum|prod|int)\b" ].

Definition NewLaTeXConverter : Res LaTeXConverter :=
  match mustCompileAll mathPatternsLiteral with
  | Ok res => Ok {| specialChars := specialCharsLiteral; mathPatterns := res |}
  | Panic msg => Panic msg
  end.

(** The second argument of [strings.ContainsAny] in [isMathExpression]. *)
Definition mathSymbols : str :=
  lit "=+-*/^()[]{}<>|±×÷∂∆∇∫∑∏√∞≈≠≤≥αβγδϵζηθικλμνξπρστυϕχψω".

(** [float64(mathCharCount)/float64(totalChars) > 0.6] in binary64. *)
Definition float64 (n : Z) : float := PrimFloat.of_uint63 (Uint63.of_Z n).

Definition ratioAbove (mathCharCount totalChars : Z) : bool :=
  PrimFloat.ltb 0x1.3333333333333p-1%float
    (PrimFloat.div (float64 mathCharCount) (float64 totalChars)).

Definition inlinePatternsLiteral : list str :=
  [ lit "^[a-zA-Z]\s*=\s*.+$";
    lit "^.+\^.+\s*=.+$";
    lit "^[xyz]\s*=\s*\d+$" ].

Definition mathFunctions : list (str * str) :=
  [ (lit "sin", lit "\sin");
    (lit "cos", lit "\cos");
    (lit "tan", lit "\tan");
    (lit "log", lit "\log");
    (lit "ln", lit "\ln");
    (lit "lim", lit "\lim");
    (lit "sum", lit "\sum");
    (lit "prod", lit "\prod");
    (lit "int", lit "\int") ].

(** The body of the loop over [mathFunctions], for the entries in the
    order of the iteration. *)
Fixpoint replaceFunctions (order : list (str * str)) (result : str)
  : Res str :=
  match order with
  | [] => Ok result
  | (funcName, latexCmd) :: rest =>
    match regexp.MustCompile (lit "\b" ++ funcName ++ lit "\b") with
    | Ok pattern =>
      replaceFunctions rest (regexp.ReplaceAllString pattern result latexCmd)
    | Panic msg => Panic msg
    end
  end.

Section Engine.

Variable env : GoEnv.

(** [escapeSpecialChars]: one [strings.ReplaceAll] per entry of the map,
    each on the result of the one before, in the order of the iteration. *)
Definition escapeWith (order : list (str * str)) (text : str) : str :=
  fold_left (fun result kv => strings.ReplaceAll result (fst kv) (snd kv))
            order text.

Definition escapeSpecialChars (l : LaTeXConverter) (text : str) : M str :=
  order <- rangeMap env (specialChars l) ;;
  ret (escapeWith order text).

(** The counting loop of [isMathExpression] over one rune:
    [(mathCharCount, totalChars)].  The two counters are Go [int]s; they
    never exceed the length of the text, so they do not wrap. *)
Definition countRune (acc : Z * Z) (ch : rchar) : Z * Z :=
  let (mathCharCount, totalChars) := acc in
  if unicode.IsSpace (rune ch) then acc
  else
    let totalChars := totalChars + 1 in
    if strings.ContainsAny (utf8.runeString (rune ch)) mathSymbols
    then (mathCharCount + 1, totalChars)
    else if unicode.IsDigit env (rune ch) then (mathCharCount + 1, totalChars)
    else (mathCharCount, totalChars).

Definition isMathExpression (l : LaTeXConverter) (text : str) : bool :=
  if strings.Contains text (lit "\") then true
  else
    let (mathCharCount, totalChars) := fold_left countRune (runes text) (0, 0) in
    if (0 <? totalChars) && ratioAbove mathCharCount totalChars then true
    else existsb (fun pattern => regexp.MatchString pattern text)
                 (mathPatterns l).

Definition isInlineMath (text : str) : M bool :=
  inlinePatterns <- lift (mustCompileAll inlinePatternsLiteral) ;;
  ret (existsb (fun pattern => regexp.MatchString pattern text)
               inlinePatterns).

Definition processMathExpressions (text : str) : M str :=
  let result := text in
  order <- rangeMap env mathFunctions ;;
  result <- lift (replaceFunctions order result) ;;
  fractionPattern <- lift (regexp.MustCompile (lit "(\d+)/(\d+)")) ;;
  let result :=
    regexp.ReplaceAllString fractionPattern result (lit "\frac{$1}{$2}") in
  exponentPattern <- lift (regexp.MustCompile (lit "(\w+)\^(\d+)")) ;;
  let result :=
    regexp.ReplaceAllString exponentPattern result (lit "$1^{$2}") in
  sqrtPattern <- lift (regexp.MustCompile (lit "sqrt\(([^)]+)\)")) ;;
  let result :=
    regexp.ReplaceAllString sqrtPattern result (lit "\sqrt{$1}") in
  integralPattern <-
    lift (regexp.MustCompile (lit "int_(\w+)\^(\w+)\s*(\w+)")) ;;
  let result :=
    regexp.ReplaceAllString integralPattern result (lit "\int_{$1}^{$2} $3") in
  ret result.

(** The body of the loop of [ConvertToLatex] on one line: the line to
    append to [latexLines], or [None] where the source says [continue]. *)
Definition convertLine (l : LaTeXConverter) (line : str) : M (option str) :=
  let line := strings.TrimSpace line in
  if isEmpty line then ret None
  else
    escapedLine <- escapeSpecialChars l line ;;
    if isMathExpression l escapedLine then
      processedMath <- processMathExpressions escapedLine ;;
      ret (Some (lit "\[ " ++ processedMath ++ lit " \]"))
    else
      inline <- isInlineMath escapedLine ;;
      if inline then
        processedMath <- processMathExpressions escapedLine ;;
        ret (Some (lit "\( " ++ processedMath ++ lit " \)"))
      else ret (Some escapedLine).

Fixpoint convertLines (l : LaTeXConverter) (lines : list str)
  (latexLines : list str) : M (list str) :=
  match lines with
  | [] => ret latexLines
  | line :: rest =>
    out <- convertLine l line ;;
    match out with
    | Some s => convertLines l rest (latexLines ++ [s])
    | None => convertLines l rest latexLines
    end
  end.

Definition ConvertToLatex (l : LaTeXConverter) (text : str) : M str :=
  if isEmpty text then ret []
  else
    latexLines <- convertLines l (strings.Split text [NL]) [] ;;
    ret (strings.Join latexLines [NL]).

(** The engine as [main] uses it: a converter from [NewLaTeXConverter],
    then [ConvertToLatex]. *)
Definition convert (text : str) : M str :=
  l <- lift NewLaTeXConverter ;;
  ConvertToLatex l text.

End Engine.

(** The converter [NewLaTeXConverter] returns (see
    [NewLaTeXConverter_ok]). *)
Definition theConverter : LaTeXConverter :=
  match NewLaTeXConverter with
  | Ok l => l
  | Panic _ => {| specialChars := []; mathPatterns := [] |}
  end.

(** An environment for examples: every map iteration in the order of the
    literal, no digits above Latin-1. *)
Definition literalOrderEnv : GoEnv :=
  {| digitTable := fun _ => false;
     mapOrder := fun _ _ l => l;
     mapOrder_perm := fun _ _ l => Permutation_refl l |}.

(** An environment whose map iterations all run backwards. *)
Definition reverseOrderEnv : GoEnv :=
  {| digitTable := fun _ => false;
     mapOrder := fun _ _ l => rev l;
     mapOrder_perm := fun _ _ l => Permutation_sym (Permutation_rev l) |}.

(** ** Vocabulary of the properties *)

(** The keys of the escape table: the ten special characters. *)
Definition specialByte (c : ascii) : bool :=
  existsb (fun kv => str_eqb (fst kv) [c]) specialCharsLiteral.

(** What [strings.ReplaceAll] with a one-byte [old] does to one byte. *)
Definition subst1 (k : ascii) (new : str) (c : ascii) : str :=
  if Ascii.eqb k c then new else [c].

(** A line made of white space only: every rune of it is a space for
    [unicode.IsSpace]. *)
Definition onlySpace (s : str) : bool :=
  forallb (fun ch => unicode.IsSpace (rune ch)) (runes s).

(** An output line that does not open with the inline-math delimiter. *)
Definition notInline (out : str) : bool :=
  negb (strings.HasPrefix out (lit "\(")).

(** All the orders in which a map with the given entries can be visited. *)
Fixpoint insertAll {A} (x : A) (l : list A) : list (list A) :=
  match l with
  | [] => [[x]]
  | y :: t => (x :: l) :: map (cons y) (insertAll x t)
  end.

Fixpoint perms {A} (l : list A) : list (list A) :=
  match l with
  | [] => [[]]
  | x :: t => flat_map (insertAll x) (perms t)
  end.

(** [clsOnly c cl]: the set [cl] is the single rune [c];
    [requires c r]: every match of [r] reads the rune [c]. *)
Definition clsOnly (c : Z) (cl : regexp.cclass) : bool :=
  match cl with
  | regexp.CSet false [(lo, hi)] => (lo =? c) && (hi =? c)
  | _ => false
  end.

Fixpoint requires (c : Z) (r : regexp.regex) : bool :=
  match r with
  | regexp.Cls cl => clsOnly c cl
  | regexp.Plus cl => clsOnly c cl
  | regexp.Cat r1 r2 => requires c r1 || requires c r2
  | regexp.Alt r1 r2 => requires c r1 && requires c r2
  | regexp.Cap _ r1 => requires c r1
  | _ => false
  end.

(** The compiled form of a pattern of the program (all of them compile,
    see [functions_compile], [rewrite_patterns_compile] and
    [inline_patterns_compile]). *)
Definition compiled (pattern : str) : regexp.Regexp :=
  match regexp.MustCompile pattern with
  | Ok re => re
  | Panic _ => {| regexp.tree := regexp.Eps; regexp.numSubexp := 0 |}
  end.

Definition functionPattern (funcName : str) : regexp.Regexp :=
  compiled (lit "\b" ++ funcName ++ lit "\b").

(** The loop over [mathFunctions] and the four rewrites after it, once
    the patterns are known to compile. *)
Definition applyFunctions (order : list (str * str)) (text : str) : str :=
  fold_left
    (fun result kv =>
       regexp.ReplaceAllString (functionPattern (fst kv)) result (snd kv))
    order text.

Definition rewriteTail (result : str) : str :=
  let result :=
    regexp.ReplaceAllString (compiled (lit "(\d+)/(\d+)")) result
                            (lit "\frac{$1}{$2}") in
  let result :=
    regexp.ReplaceAllString (compiled (lit "(\w+)\^(\d+)")) result
                            (lit "$1^{$2}") in
  let result :=
    regexp.ReplaceAllString (compiled (lit "sqrt\(([^)]+)\)")) result
                            (lit "\sqrt{$1}") in
  regexp.ReplaceAllString (compiled (lit "int_(\w+)\^(\w+)\s*(\w+)")) result
                          (lit "\int_{$1}^{$2} $3").

Definition inlinePatterns : list regexp.Regexp :=
  map compiled inlinePatternsLiteral.

(** The entries of the escape table whose key satisfies [rel], and the
    strings in which every special character satisfies [rel]: on such a
    string the other entries of the table do nothing. *)
Definition relevantRule (rel : ascii -> bool) (kv : str * str) : bool :=
  match fst kv with
  | [k] => rel k
  | _ => false
  end.

Definition closedUnder (rel : ascii -> bool) (s : str) : bool :=
  forallb (fun c => implb (specialByte c) (rel c)) s.

Definition tableClosed (rel : ascii -> bool) : bool :=
  forallb (fun kv => implb (relevantRule rel kv) (closedUnder rel (snd kv)))
          specialCharsLiteral.

Definition oneOf (chars : str) (c : ascii) : bool :=
  existsb (Ascii.eqb c) chars.

(** An environment whose map iterations run forwards, forwards,
    backwards, backwards, and so on: two successive conversions in one
    process see the escape table in different orders. *)
Definition alternatingEnv : GoEnv :=
  {| digitTable := fun _ => false;
     mapOrder := fun n _ l => if Nat.even (n / 2) then l else rev l;
     mapOrder_perm := fun n _ l =>
       match Nat.even (n / 2) as b
             return Permutation (if b then l else rev l) l with
       | true => Permutation_refl l
       | false => Permutation_sym (Permutation_rev l)
       end |}.

(** No function-name rule changes [s]. *)
Definition functionsIdle (s : str) : bool :=
  forallb (fun kv =>
             str_eqb (regexp.ReplaceAllString (functionPattern (fst kv)) s
                                              (snd kv)) s)
          mathFunctions.

(** What is checked of each possible escaped form of ["E = mc^2"]: the
    function-name rules leave it alone, and after the other rewrites there
    is no circumflex and no [c^{2}]. *)
Definition exponentLost (escaped : str) : bool :=
  functionsIdle escaped
  && negb (existsb (Ascii.eqb "^"%char) (rewriteTail escaped))
  && negb (strings.Contains (rewriteTail escaped) (lit "c^{2}")).

(** What is checked of each order of the entries for the brace and the
    backslash: one of the two characters is not escaped to its entry. *)
Definition misescapes (order : list (str * str)) : bool :=
  negb (str_eqb (escapeWith order (lit "{")) (lit "\{"))
  || negb (str_eqb (escapeWith order (lit "\")) (lit "\textbackslash{}")).

(** ** Vocabulary of the further properties *)

(** A line that survives trimming. *)
Definition nonBlank (line : str) : bool :=
  negb (isEmpty (strings.TrimSpace line)).

(** The ten ASCII bytes of the first math pattern. *)
Definition operatorByte (c : ascii) : bool := oneOf (lit "=+-*/^()[]") c.

(** The output of two conversions, joined as [strings.Join] joins the
    lines of both. *)
Definition glue (a b : str) : str :=
  if isEmpty a then b else if isEmpty b then a else a ++ NL :: b.

Definition lowerByte (c : ascii) : bool := inRange (byteval c) 97 122.

Definition digitByte (c : ascii) : bool := inRange (byteval c) 48 57.

(** A decoded character as [runes] produces them: an ASCII rune is encoded
    by the one byte of that value, any other rune by bytes that are all
    [>= RuneSelf]. *)
Definition wfChar (ch : rchar) : Prop :=
  (rune ch < 128 -> exists c, enc ch = [c] /\ byteval c = rune ch) /\
  (128 <= rune ch -> Forall (fun b => 128 <= byteval b) (enc ch)).

(** The groups of a match hold bytes of [U] only. *)
Definition capsWithin (U : str) (cs : regexp.caps) : Prop :=
  forall p, In p cs -> incl (snd p) U.

(** The rewrites after the function names without the exponent rule and
    the integral rule. *)
Definition rewriteTailLive (result : str) : str :=
  let result :=
    regexp.ReplaceAllString (compiled (lit "(\d+)/(\d+)")) result
                            (lit "\frac{$1}{$2}") in
  regexp.ReplaceAllString (compiled (lit "sqrt\(([^)]+)\)")) result
                          (lit "\sqrt{$1}").

(** The bytes the engine writes of its own: those of the delimiters, of
    the replacements of the escape table and of the literal parts of the
    rewrite templates (the newline that joins the lines apart). *)
Definition markupByte (c : ascii) : bool :=
  oneOf (lit "\[]{} ") c || lowerByte c.

(** *** The function-name rules, byte by byte

    [markAcc f cur s] goes through [s] and puts [f w] backslashes before
    every maximal run [w] of ASCII word bytes ([0-9A-Za-z_]); [cur] is the
    run being read, reversed. *)
Definition isWordByte (c : ascii) : bool := regexp.isWordRune (byteval c).

Definition flush (f : str -> nat) (cur : str) : str :=
  match cur with
  | [] => []
  | _ => repeat BSL (f (rev cur)) ++ rev cur
  end.

Fixpoint markAcc (f : str -> nat) (cur : str) (s : str) : str :=
  match s with
  | [] => flush f cur
  | c :: t =>
    if isWordByte c then markAcc f (c :: cur) t
    else flush f cur ++ c :: markAcc f [] t
  end.

(** How many entries of a list of rules have the word [w] as their key. *)
Definition keyCount (rules : list (str * str)) (w : str) : nat :=
  length (filter (fun kv => str_eqb (fst kv) w) rules).

(** A backslash before every maximal word that is one of the nine function
    names. *)
Definition isFunctionName (w : str) : bool :=
  existsb (fun kv => str_eqb (fst kv) w) mathFunctions.

Definition markWords (s : str) : str :=
  markAcc (fun w => if isFunctionName w then 1%nat else 0%nat) [] s.

(** The rune an ASCII byte decodes to, and the tree of [\bname\b]. *)
Definition asc (c : ascii) : rchar := RChar (byteval c) [c].

Definition single (c : ascii) : regexp.regex :=
  regexp.Cls (regexp.CSet false [(byteval c, byteval c)]).

Definition chain (name : str) (tail : regexp.regex) : regexp.regex :=
  fold_right (fun c r => regexp.Cat (single c) r) tail name.

Definition wordTree (name : str) : regexp.regex :=
  regexp.Cat regexp.WordBoundary (chain name regexp.WordBoundary).

(** The input after the runes of [name], when it begins with them. *)
Fixpoint dropRunes (name : str) (inp : list rchar) : option (list rchar) :=
  match name with
  | [] => Some inp
  | c :: t =>
    match inp with
    | ch :: rest => if rune ch =? byteval c then dropRunes t rest else None
    | [] => None
    end
  end.

Fixpoint prevAfter (name : str) (prev : option Z) : option Z :=
  match name with
  | [] => prev
  | c :: t => prevAfter t (Some (byteval c))
  end.

(** Runes as [runes] produces them, and input at a word boundary: nothing
    left, or a rune that is not a word rune next. *)
Definition wfRunes (l : list rchar) : Prop :=
  Forall (fun ch => wfChar ch /\ enc ch <> []) l.

Definition atBoundary (l : list rchar) : bool :=
  negb (regexp.isWordOpt (regexp.nextRune l)).

Definition isName (name w : str) : nat := if str_eqb name w then 1 else 0.

(** ** Vocabulary of the rewrites of whole lines *)

(** The input after a greedy repetition of [cl]: nothing, or a rune the
    set does not accept. *)
Definition notNext (cl : regexp.cclass) (rest : list rchar) : bool :=
  match rest with
  | [] => true
  | ch :: _ => negb (regexp.accepts cl (rune ch))
  end.

(** The rune before the position reached after reading [l]. *)
Fixpoint lastRune (prev : option Z) (l : list rchar) : option Z :=
  match l with
  | [] => prev
  | ch :: t => lastRune (Some (rune ch)) t
  end.

(** The sets [\d] and [[^)]] of the patterns. *)
Definition digits : regexp.cclass := regexp.CSet false [(48, 57)].

Definition notParen : regexp.cclass := regexp.CSet true [(41, 41)].

(** A line [strings.TrimSpace] leaves alone: it begins and ends with an
    ASCII byte that is not white space. *)
Definition tight (s : str) : bool :=
  match s, rev s with
  | c :: _, d :: _ =>
    (byteval c <? 128) && negb (strings.asciiSpace c)
    && (byteval d <? 128) && negb (strings.asciiSpace d)
  | _, _ => false
  end.

(** The bytes between the parentheses of the square-root calls considered
    below: ASCII, none of the ten special characters, no newline, closing
    parenthesis or slash. *)
Definition rootByte (c : ascii) : bool :=
  (byteval c <? 128) && negb (specialByte c)
  && negb (oneOf (NL :: lit ")/") c).

(** ** Vocabulary of the classification of prose *)


(** [within allowed p]: the range [p] lies in one range of [allowed];
    [requiresIn allowed r]: every match of [r] reads a rune of [allowed]. *)
Definition within (allowed : list (Z * Z)) (p : Z * Z) : bool :=
  existsb (fun q => (fst q <=? fst p) && (snd p <=? snd q)) allowed.

Definition clsWithin (allowed : list (Z * Z)) (cl : regexp.cclass) : bool :=
  match cl with
  | regexp.CSet false rs => forallb (within allowed) rs
  | _ => false
  end.

Fixpoint requiresIn (allowed : list (Z * Z)) (r : regexp.regex) : bool :=
  match r with
  | regexp.Cls cl => clsWithin allowed cl
  | regexp.Plus cl => clsWithin allowed cl
  | regexp.Cat r1 r2 => requiresIn allowed r1 || requiresIn allowed r2
  | regexp.Alt r1 r2 => requiresIn allowed r1 && requiresIn allowed r2
  | regexp.Cap _ r1 => requiresIn allowed r1
  | _ => false
  end.

(** The tree of a literal, of an alternation, and of the last math
    pattern, [\b(sin|cos|tan|log|ln|lim|sum|prod|int)\b]. *)
Fixpoint litTree (name : str) : regexp.regex :=
  match name with
  | [] => regexp.Eps
  | c :: t =>
    match t with
    | [] => single c
    | _ => regexp.Cat (single c) (litTree t)
    end
  end.

Fixpoint altOf (rs : list regexp.regex) : regexp.regex :=
  match rs with
  | [] => regexp.Eps
  | r :: t =>
    match t with
    | [] => r
    | _ => regexp.Alt r (altOf t)
    end
  end.

Definition functionNames : list str := map fst mathFunctions.

Definition functionWords : regexp.regex :=
  regexp.Cat regexp.WordBoundary
    (regexp.Cat (regexp.Cap 1 (altOf (map litTree functionNames)))
                regexp.WordBoundary).

(** The maximal runs of ASCII word bytes of a text, in order; [cur] is the
    run being read, reversed. *)
Definition flushWord (cur : str) : list str :=
  match cur with
  | [] => []
  | _ => [rev cur]
  end.

Fixpoint wordsAcc (cur : str) (s : str) : list str :=
  match s with
  | [] => flushWord cur
  | c :: t =>
    if isWordByte c then wordsAcc (c :: cur) t
    else flushWord cur ++ wordsAcc [] t
  end.

Definition words (s : str) : list str := wordsAcc [] s.

(** The runes read by every match of the first six math patterns: an
    operator of the first pattern, a digit, a backslash or a dollar
    sign. *)
Definition triggers : list (Z * Z) :=
  [(61, 61); (43, 43); (45, 45); (42, 42); (47, 47); (94, 94); (40, 41);
   (91, 91); (93, 93); (48, 57); (92, 92); (36, 36)].

(** The bytes of plain prose: ASCII, no digit, no newline, none of the
    ASCII math symbols and none of the ten special characters. *)
Definition proseByte (c : ascii) : bool :=
  (byteval c <? 128) && negb (digitByte c)
  && negb (oneOf (NL :: lit "=+-*/^()[]{}<>|&%$#_~\") c).


(** ** Facts about the library functions *)

Lemma str_eqb_eq (a b : str) : str_eqb a b = true <-> a = b.
Proof.
  unfold str_eqb. destruct (list_eq_dec ascii_dec a b); split; intros;
    congruence.
Qed.

Lemma ReplaceAll_single (s : str) (k : ascii) (new : str) :
  strings.ReplaceAll s [k] new = flat_map (subst1 k new) s.
Proof.
  unfold strings.ReplaceAll. simpl isEmpty. cbv iota.
  induction s as [|c t IH]; [reflexivity|].
  simpl. unfold subst1 at 1. destruct (Ascii.eqb k c); simpl;
    now rewrite IH.
Qed.

Lemma subst_id (k : ascii) (new s : str) :
  ~ In k s -> flat_map (subst1 k new) s = s.
Proof.
  induction s as [|c t IH]; intros Hn; [reflexivity|].
  simpl. unfold subst1 at 1.
  destruct (Ascii.eqb_spec k c) as [->|Hne].
  - exfalso. apply Hn. now left.
  - simpl. f_equal. apply IH. intros Hin. apply Hn. now right.
Qed.

Lemma subst_keeps (k c : ascii) (new s : str) :
  In c s -> c <> k -> In c (flat_map (subst1 k new) s).
Proof.
  intros Hin Hne. apply in_flat_map. exists c. split; [assumption|].
  unfold subst1. destruct (Ascii.eqb_spec k c); [congruence | now left].
Qed.

Lemma subst_brings (k c : ascii) (new s : str) :
  In k s -> In c new -> In c (flat_map (subst1 k new) s).
Proof.
  intros Hin Hnew. apply in_flat_map. exists k. split; [assumption|].
  unfold subst1. now rewrite Ascii.eqb_refl.
Qed.

Lemma subst_origin (k c : ascii) (new s : str) :
  In c (flat_map (subst1 k new) s) -> In c new \/ (In c s /\ c <> k).
Proof.
  intros Hin. apply in_flat_map in Hin. destruct Hin as (d & Hd & Hc).
  unfold subst1 in Hc. destruct (Ascii.eqb_spec k d) as [->|Hne].
  - now left.
  - destruct Hc as [<-|[]]. right. split; [assumption | congruence].
Qed.

Lemma Contains_In (s : str) (c : ascii) :
  In c s -> strings.Contains s [c] = true.
Proof.
  induction s as [|d t IH]; intros Hin; [destruct Hin|].
  simpl. destruct (Ascii.eqb_spec c d) as [->|Hne]; [reflexivity|].
  simpl. apply IH. destruct Hin; [congruence | assumption].
Qed.

(** *** Splitting into lines *)

Lemma splitFrom_step (sep c : ascii) (cur t : str) :
  strings.splitFrom [sep] 0 cur (c :: t)
  = if Ascii.eqb sep c
    then rev cur :: strings.splitFrom [sep] 0 [] t
    else strings.splitFrom [sep] 0 (c :: cur) t.
Proof.
  cbn [strings.splitFrom strings.HasPrefix length Nat.sub].
  destruct (Ascii.eqb sep c); reflexivity.
Qed.

Lemma splitFrom_app (sep : ascii) (a b cur : str) :
  strings.splitFrom [sep] 0 cur (a ++ sep :: b)
  = strings.splitFrom [sep] 0 cur a ++ strings.splitFrom [sep] 0 [] b.
Proof.
  revert cur. induction a as [|c t IH]; intros cur.
  - rewrite app_nil_l, splitFrom_step, Ascii.eqb_refl. reflexivity.
  - rewrite <- app_comm_cons, !splitFrom_step.
    destruct (Ascii.eqb sep c); rewrite IH; reflexivity.
Qed.

Lemma splitFrom_line (sep : ascii) (s cur : str) :
  ~ In sep s -> strings.splitFrom [sep] 0 cur s = [rev cur ++ s].
Proof.
  revert cur. induction s as [|c t IH]; intros cur Hn.
  - simpl. now rewrite app_nil_r.
  - rewrite splitFrom_step.
    destruct (Ascii.eqb_spec sep c) as [->|Hne].
    + exfalso. apply Hn. now left.
    + rewrite IH.
      * simpl. now rewrite <- app_assoc.
      * intros Hin. apply Hn. now right.
Qed.

Lemma Split_NL (s : str) : strings.Split s [NL] = strings.splitFrom [NL] 0 [] s.
Proof. reflexivity. Qed.

Lemma Split_line (s : str) :
  ~ In NL s -> strings.Split s [NL] = [s].
Proof. intros Hn. rewrite Split_NL. now rewrite splitFrom_line. Qed.

Lemma Split_app (a b : str) :
  strings.Split (a ++ NL :: b) [NL]
  = strings.Split a [NL] ++ strings.Split b [NL].
Proof. rewrite !Split_NL. apply splitFrom_app. Qed.

(** ** The converter and its escape table *)

Lemma NewLaTeXConverter_ok : NewLaTeXConverter = Ok theConverter.
Proof. vm_compute. reflexivity. Qed.

Lemma theConverter_specialChars :
  specialChars theConverter = specialCharsLiteral.
Proof. vm_compute. reflexivity. Qed.

Lemma table_entry (kv : str * str) :
  In kv specialCharsLiteral ->
  exists k new,
    kv = ([k], new) /\ specialByte k = true /\ In BSL new /\
    (2 <= length new)%nat.
Proof.
  intros H. simpl in H.
  repeat (destruct H as [H|H];
          [subst kv; eexists; eexists; split; [reflexivity|];
           split; [reflexivity|]; split; [now left | simpl; lia] |]).
  destruct H.
Qed.

Lemma specialByte_entry (c : ascii) :
  specialByte c = true -> exists new, In ([c], new) specialCharsLiteral.
Proof.
  unfold specialByte. intros H. apply existsb_exists in H.
  destruct H as ([k new] & Hin & Heq). apply str_eqb_eq in Heq.
  simpl in Heq. subst k. now exists new.
Qed.

Lemma escapeWith_cons (kv : str * str) (rest : list (str * str)) (s : str) :
  escapeWith (kv :: rest) s
  = escapeWith rest (strings.ReplaceAll s (fst kv) (snd kv)).
Proof. reflexivity. Qed.

Lemma escapeSpecialChars_eq (env : GoEnv) (s : str) (n : nat) :
  escapeSpecialChars env theConverter s n
  = Ok (escapeWith (mapOrder env n _ specialCharsLiteral) s, S n).
Proof.
  unfold escapeSpecialChars, bind, rangeMap, ret.
  now rewrite theConverter_specialChars.
Qed.

Section EscapeOrder.

(** Any order in which the table can be visited. *)
Variable order : list (str * str).
Hypothesis order_perm : Permutation order specialCharsLiteral.

Lemma order_entries : forall kv, In kv order -> In kv specialCharsLiteral.
Proof. intros kv H. eapply Permutation_in; eassumption. Qed.

Lemma order_has : forall kv, In kv specialCharsLiteral -> In kv order.
Proof.
  intros kv H. eapply Permutation_in; [|eassumption].
  now apply Permutation_sym.
Qed.

End EscapeOrder.

(** Escaping with entries of the table, in any order and number. *)
Lemma escapeWith_id (order : list (str * str)) (s : str) :
  (forall kv, In kv order -> In kv specialCharsLiteral) ->
  (forall c, In c s -> specialByte c = false) ->
  escapeWith order s = s.
Proof.
  intros Hord Hs. induction order as [|kv rest IH]; [reflexivity|].
  rewrite escapeWith_cons.
  destruct (table_entry kv) as (k & new & -> & Hk & _).
  { apply Hord. now left. }
  simpl fst. simpl snd. rewrite ReplaceAll_single, subst_id.
  - apply IH. intros kv' H. apply Hord. now right.
  - intros Hin. apply Hs in Hin. congruence.
Qed.

Lemma escapeWith_keeps_backslash (order : list (str * str)) (s : str) :
  (forall kv, In kv order -> In kv specialCharsLiteral) ->
  In BSL s -> In BSL (escapeWith order s).
Proof.
  revert s. induction order as [|kv rest IH]; intros s Hord Hs; [assumption|].
  rewrite escapeWith_cons.
  destruct (table_entry kv) as (k & new & -> & _ & Hnew & _).
  { apply Hord. now left. }
  simpl fst. simpl snd. rewrite ReplaceAll_single.
  apply IH; [intros kv' H; apply Hord; now right|].
  destruct (ascii_dec BSL k) as [<-|Hne].
  - now apply subst_brings.
  - now apply subst_keeps.
Qed.

Lemma escapeWith_brings_backslash (order : list (str * str)) (s : str)
  (c : ascii) (new : str) :
  (forall kv, In kv order -> In kv specialCharsLiteral) ->
  In ([c], new) order -> In c s -> In BSL (escapeWith order s).
Proof.
  revert s. induction order as [|kv rest IH]; intros s Hord Hin Hs;
    [destruct Hin|].
  rewrite escapeWith_cons.
  destruct (table_entry kv) as (k & new' & -> & _ & Hnew & _).
  { apply Hord. now left. }
  simpl fst. simpl snd. rewrite ReplaceAll_single.
  assert (Hrest : forall kv', In kv' rest -> In kv' specialCharsLiteral)
    by (intros kv' H; apply Hord; now right).
  destruct (ascii_dec c k) as [<-|Hne].
  - apply escapeWith_keeps_backslash; [assumption|].
    now apply subst_brings.
  - destruct Hin as [Heq|Hin]; [congruence|].
    apply IH; [assumption | assumption |].
    now apply subst_keeps.
Qed.

Lemma escape_has_backslash (order : list (str * str)) (s : str) (c : ascii) :
  Permutation order specialCharsLiteral ->
  specialByte c = true -> In c s -> In BSL (escapeWith order s).
Proof.
  intros Hp Hc Hs. destruct (specialByte_entry c Hc) as (new & Hnew).
  apply (escapeWith_brings_backslash order s c new).
  - now apply order_entries.
  - now apply order_has.
  - assumption.
Qed.

(** ** The patterns compile; the monadic functions in closed form *)

Lemma functions_compile (kv : str * str) :
  In kv mathFunctions ->
  regexp.MustCompile (lit "\b" ++ fst kv ++ lit "\b")
  = Ok (functionPattern (fst kv)).
Proof.
  intros H. simpl in H.
  repeat (destruct H as [H|H]; [subst kv; vm_compute; reflexivity|]).
  destruct H.
Qed.

Lemma rewrite_patterns_compile :
  regexp.MustCompile (lit "(\d+)/(\d+)") = Ok (compiled (lit "(\d+)/(\d+)")) /\
  regexp.MustCompile (lit "(\w+)\^(\d+)") = Ok (compiled (lit "(\w+)\^(\d+)")) /\
  regexp.MustCompile (lit "sqrt\(([^)]+)\)")
    = Ok (compiled (lit "sqrt\(([^)]+)\)")) /\
  regexp.MustCompile (lit "int_(\w+)\^(\w+)\s*(\w+)")
    = Ok (compiled (lit "int_(\w+)\^(\w+)\s*(\w+)")).
Proof. repeat split; vm_compute; reflexivity. Qed.

Lemma inline_patterns_compile :
  mustCompileAll inlinePatternsLiteral = Ok inlinePatterns.
Proof. vm_compute. reflexivity. Qed.

Lemma replaceFunctions_eq (order : list (str * str)) (s : str) :
  (forall kv, In kv order -> In kv mathFunctions) ->
  replaceFunctions order s = Ok (applyFunctions order s).
Proof.
  revert s. induction order as [|[funcName latexCmd] rest IH]; intros s Hord;
    [reflexivity|].
  cbn [replaceFunctions].
  pose proof (functions_compile (funcName, latexCmd)) as Hc.
  cbn [fst] in Hc. rewrite Hc by (apply Hord; now left).
  rewrite IH by (intros kv H; apply Hord; now right).
  reflexivity.
Qed.

Lemma mapOrder_in (env : GoEnv) (n : nat) (A : Type) (l : list A) (x : A) :
  In x (mapOrder env n A l) -> In x l.
Proof. apply Permutation_in, mapOrder_perm. Qed.

Lemma processMathExpressions_eq (env : GoEnv) (s : str) (n : nat) :
  processMathExpressions env s n
  = Ok (rewriteTail (applyFunctions (mapOrder env n _ mathFunctions) s), S n).
Proof.
  destruct rewrite_patterns_compile as (H1 & H2 & H3 & H4).
  unfold processMathExpressions, bind, rangeMap, lift, ret.
  rewrite replaceFunctions_eq by apply mapOrder_in.
  rewrite H1, H2, H3, H4. reflexivity.
Qed.

Lemma isInlineMath_eq (s : str) (n : nat) :
  isInlineMath s n
  = Ok (existsb (fun pattern => regexp.MatchString pattern s) inlinePatterns,
        n).
Proof.
  unfold isInlineMath, bind, lift, ret.
  rewrite inline_patterns_compile. reflexivity.
Qed.

(** One line, in closed form. *)
Lemma convertLine_eq (env : GoEnv) (line : str) (n : nat) :
  convertLine env theConverter line n
  = let line := strings.TrimSpace line in
    if isEmpty line then Ok (None, n)
    else
      let escaped :=
        escapeWith (mapOrder env n _ specialCharsLiteral) line in
      let processed :=
        rewriteTail
          (applyFunctions (mapOrder env (S n) _ mathFunctions) escaped) in
      if isMathExpression env theConverter escaped
      then Ok (Some (lit "\[ " ++ processed ++ lit " \]"), S (S n))
      else if existsb (fun pattern => regexp.MatchString pattern escaped)
                      inlinePatterns
      then Ok (Some (lit "\( " ++ processed ++ lit " \)"), S (S n))
      else Ok (Some escaped, S n).
Proof.
  unfold convertLine. cbv zeta.
  destruct (isEmpty (strings.TrimSpace line)); [reflexivity|].
  unfold bind at 1. rewrite escapeSpecialChars_eq.
  destruct (isMathExpression env theConverter _).
  - unfold bind, ret. now rewrite processMathExpressions_eq.
  - unfold bind at 1. rewrite isInlineMath_eq.
    destruct (existsb _ inlinePatterns); [|reflexivity].
    unfold bind, ret. now rewrite processMathExpressions_eq.
Qed.

Lemma convertLine_total (env : GoEnv) (line : str) (n : nat) :
  exists out n', convertLine env theConverter line n = Ok (out, n').
Proof.
  rewrite convertLine_eq. cbv zeta.
  destruct (isEmpty _); [eauto|].
  destruct (isMathExpression _ _ _); [eauto|].
  destruct (existsb _ _); eauto.
Qed.

Lemma convertLines_total (env : GoEnv) (lines acc : list str) (n : nat) :
  exists latexLines n',
    convertLines env theConverter lines acc n = Ok (latexLines, n').
Proof.
  revert acc n. induction lines as [|line rest IH]; intros acc n.
  - simpl. unfold ret. eauto.
  - cbn [convertLines]. unfold bind.
    destruct (convertLine_total env line n) as (out & n' & ->).
    destruct out; apply IH.
Qed.

Lemma convert_eq (env : GoEnv) (text : str) (n : nat) :
  convert env text n = ConvertToLatex env theConverter text n.
Proof. unfold convert, bind, lift. now rewrite NewLaTeXConverter_ok. Qed.

(** ** Facts about matching *)

Lemma clsOnly_accepts (c : Z) (cl : regexp.cclass) (r : Z) :
  clsOnly c cl = true -> regexp.accepts cl r = true -> r = c.
Proof.
  destruct cl as [neg rs|]; [|discriminate].
  destruct neg; [discriminate|].
  destruct rs as [|[lo hi] [|]]; try discriminate.
  simpl. unfold inRange. simpl. intros H1 H2.
  apply andb_prop in H1. destruct H1 as [H1 H1'].
  rewrite orb_false_r in H2. apply andb_prop in H2. destruct H2 as [H2 H2'].
  lia.
Qed.

(** A successful repetition hands the rest of the input, a suffix, to its
    continuation, with the groups it received. *)
Lemma starLoop_sound (cl : regexp.cclass) (k : regexp.cont) :
  forall inp prev cs res,
    regexp.starLoop cl k prev inp cs = Some res ->
    exists prev' pre inp', inp = pre ++ inp' /\ k prev' inp' cs = Some res.
Proof.
  induction inp as [|ch rest IH]; intros prev cs res H.
  - simpl in H. exists prev, [], []. now split.
  - simpl in H. destruct (regexp.accepts cl (rune ch)).
    + destruct (regexp.starLoop cl k (Some (rune ch)) rest cs) eqn:E.
      * apply IH in E. destruct E as (p' & pre & inp' & -> & Hk).
        exists p', (ch :: pre), inp'. split; [reflexivity|]. congruence.
      * exists prev, [], (ch :: rest). now split.
    + exists prev, [], (ch :: rest). now split.
Qed.

(** A successful match reads a prefix of the input and then calls its
    continuation; the prefix holds every rune the pattern requires. *)
Lemma matchRe_sound (c : Z) (r : regexp.regex) :
  forall k prev inp cs res,
    regexp.matchRe r k prev inp cs = Some res ->
    exists prev' pre inp' cs',
      inp = pre ++ inp' /\ k prev' inp' cs' = Some res /\
      (requires c r = true -> exists ch, In ch pre /\ rune ch = c).
Proof.
  induction r as [|cl|cl|cl|r1 IH1 r2 IH2|r1 IH1 r2 IH2|i r1 IH1| | |];
    intros k prev inp cs res H; simpl in H.
  - exists prev, [], inp, cs. repeat split; [assumption | discriminate].
  - destruct inp as [|ch rest]; [discriminate|].
    destruct (regexp.accepts cl (rune ch)) eqn:Ha; [|discriminate].
    exists (Some (rune ch)), [ch], rest, cs. repeat split; [assumption|].
    simpl. intros Hc. exists ch. split; [now left|].
    eapply clsOnly_accepts; eassumption.
  - apply starLoop_sound in H. destruct H as (p' & pre & inp' & -> & Hk).
    exists p', pre, inp', cs. repeat split; [assumption | discriminate].
  - destruct inp as [|ch rest]; [discriminate|].
    destruct (regexp.accepts cl (rune ch)) eqn:Ha; [|discriminate].
    apply starLoop_sound in H. destruct H as (p' & pre & inp' & -> & Hk).
    exists p', (ch :: pre), inp', cs. repeat split; [assumption|].
    simpl. intros Hc. exists ch. split; [now left|].
    eapply clsOnly_accepts; eassumption.
  - apply IH1 in H. destruct H as (p1 & pre1 & inp1 & cs1 & -> & H & Hr1).
    apply IH2 in H. destruct H as (p2 & pre2 & inp2 & cs2 & -> & H & Hr2).
    exists p2, (pre1 ++ pre2), inp2, cs2.
    split; [now rewrite app_assoc|]. split; [assumption|].
    simpl. intros Hc. apply orb_prop in Hc. destruct Hc as [Hc|Hc].
    + destruct (Hr1 Hc) as (ch & Hin & Hch). exists ch. split; [|assumption].
      apply in_or_app. now left.
    + destruct (Hr2 Hc) as (ch & Hin & Hch). exists ch. split; [|assumption].
      apply in_or_app. now right.
  - destruct (regexp.matchRe r1 k prev inp cs) eqn:E.
    + injection H as ->. apply IH1 in E.
      destruct E as (p1 & pre1 & inp1 & cs1 & -> & Hk & Hr1).
      exists p1, pre1, inp1, cs1. repeat split; [assumption|].
      simpl. intros Hc. apply andb_prop in Hc. now apply Hr1.
    + apply IH2 in H. destruct H as (p2 & pre2 & inp2 & cs2 & -> & Hk & Hr2).
      exists p2, pre2, inp2, cs2. repeat split; [assumption|].
      simpl. intros Hc. apply andb_prop in Hc. now apply Hr2.
  - apply IH1 in H. destruct H as (p1 & pre1 & inp1 & cs1 & Heq & Hk & Hr1).
    eexists p1, pre1, inp1, _. split; [exact Heq|]. split; [exact Hk|].
    exact Hr1.
  - destruct (xorb _ _); [|discriminate].
    exists prev, [], inp, cs. repeat split; [assumption | discriminate].
  - destruct prev; [discriminate|].
    exists None, [], inp, cs. repeat split; [assumption | discriminate].
  - destruct inp; [|discriminate].
    exists prev, [], [], cs. repeat split; [assumption | discriminate].
Qed.

Lemma matchHere_requires (c : Z) (re : regexp.Regexp) (prev : option Z)
  (inp : list rchar) (res : list rchar * regexp.caps) :
  requires c (regexp.tree re) = true ->
  regexp.matchHere re prev inp = Some res ->
  exists ch, In ch inp /\ rune ch = c.
Proof.
  intros Hc H. unfold regexp.matchHere in H.
  apply (matchRe_sound c) in H.
  destruct H as (p' & pre & inp' & cs' & -> & _ & Hr).
  destruct (Hr Hc) as (ch & Hin & Hch). exists ch. split; [|assumption].
  apply in_or_app. now left.
Qed.

Lemma searchFrom_requires (c : Z) (re : regexp.Regexp) :
  requires c (regexp.tree re) = true ->
  forall inp prev,
    regexp.searchFrom re prev inp = true -> exists ch, In ch inp /\ rune ch = c.
Proof.
  intros Hc. induction inp as [|ch rest IH]; intros prev H.
  - simpl in H. destruct (regexp.matchHere re prev []) eqn:E; [|discriminate].
    eapply matchHere_requires; eassumption.
  - cbn [regexp.searchFrom] in H.
    destruct (regexp.matchHere re prev (ch :: rest)) eqn:E.
    + eapply matchHere_requires; eassumption.
    + apply IH in H. destruct H as (ch' & Hin & Hch).
      exists ch'. split; [now right | assumption].
Qed.

(** No match at all when a required rune is missing. *)
Lemma matchHere_none (c : Z) (re : regexp.Regexp) (prev : option Z)
  (inp : list rchar) :
  requires c (regexp.tree re) = true ->
  (forall ch, In ch inp -> rune ch <> c) ->
  regexp.matchHere re prev inp = None.
Proof.
  intros Hc Hn. destruct (regexp.matchHere re prev inp) eqn:E; [|reflexivity].
  destruct (matchHere_requires c re prev inp _ Hc E) as (ch & Hin & Hch).
  exfalso. eapply Hn; eassumption.
Qed.

(** A pattern that is one rune set matches as soon as the text has a rune
    of the set. *)
Lemma searchFrom_class (cl : regexp.cclass) (n : nat) :
  forall inp prev,
    (exists ch, In ch inp /\ regexp.accepts cl (rune ch) = true) ->
    regexp.searchFrom {| regexp.tree := regexp.Cls cl; regexp.numSubexp := n |}
                      prev inp = true.
Proof.
  induction inp as [|ch rest IH]; intros prev (ch' & Hin & Ha);
    [destruct Hin|].
  cbn [regexp.searchFrom]. unfold regexp.matchHere. cbn [regexp.tree regexp.matchRe].
  destruct (regexp.accepts cl (rune ch)) eqn:E; [reflexivity|].
  destruct Hin as [->|Hin]; [congruence|].
  apply IH. now exists ch'.
Qed.

(** *** The inline patterns and the first math pattern *)

Lemma inline_patterns_require_equals :
  forallb (fun re => requires 61 (regexp.tree re)) inlinePatterns = true.
Proof. vm_compute. reflexivity. Qed.

Lemma first_math_pattern :
  exists cl n rest,
    mathPatterns theConverter
    = {| regexp.tree := regexp.Cls cl; regexp.numSubexp := n |} :: rest /\
    regexp.accepts cl 61 = true.
Proof. vm_compute. do 3 eexists. split; reflexivity. Qed.

Lemma inline_implies_math (env : GoEnv) (s : str) :
  existsb (fun pattern => regexp.MatchString pattern s) inlinePatterns = true ->
  isMathExpression env theConverter s = true.
Proof.
  intros H. apply existsb_exists in H. destruct H as (re & Hin & Hm).
  pose proof inline_patterns_require_equals as Hreq.
  rewrite forallb_forall in Hreq. specialize (Hreq re Hin).
  unfold regexp.MatchString in Hm.
  destruct (searchFrom_requires 61 re Hreq _ _ Hm) as (ch & Hch & Hr).
  unfold isMathExpression.
  destruct (strings.Contains s (lit "\")); [reflexivity|].
  destruct (fold_left (countRune env) (runes s) (0, 0)) as [m t].
  destruct ((0 <? t) && ratioAbove m t); [reflexivity|].
  destruct first_math_pattern as (cl & n & rest & -> & Ha).
  cbn [existsb]. unfold regexp.MatchString at 1.
  rewrite searchFrom_class; [reflexivity|].
  exists ch. split; [assumption|]. now rewrite Hr.
Qed.

(** ** Lines of white space *)

Lemma runes_ascii (c : ascii) (t : str) :
  (byteval c <? 128) = true ->
  runes (c :: t) = RChar (byteval c) [c] :: runes t.
Proof.
  intros H. unfold runes. cbn [runesFrom utf8.DecodeRuneInString].
  rewrite H. reflexivity.
Qed.

Lemma trimLeftFrom_all (f : Z -> bool) :
  forall s skip,
    forallb (fun ch => f (rune ch)) (runesFrom skip s) = true ->
    strings.trimLeftFrom f skip s = [].
Proof.
  induction s as [|c t IH]; intros skip H; [reflexivity|].
  cbn [runesFrom strings.trimLeftFrom] in *.
  destruct skip as [|k]; [|now apply IH].
  destruct (utf8.DecodeRuneInString (c :: t)) as [r w].
  cbn [forallb rune] in H. apply andb_prop in H. destruct H as [Hr Ht].
  rewrite Hr. now apply IH.
Qed.

Lemma TrimFunc_all (f : Z -> bool) (s : str) :
  forallb (fun ch => f (rune ch)) (runes s) = true ->
  strings.TrimFunc s f = [].
Proof.
  intros H. unfold strings.TrimFunc, strings.TrimLeftFunc.
  rewrite trimLeftFrom_all by exact H. reflexivity.
Qed.

Lemma asciiSpace_IsSpace (c : ascii) :
  (byteval c <? 128) = true ->
  unicode.IsSpace (byteval c) = true -> strings.asciiSpace c = true.
Proof.
  intros Hlt H. unfold unicode.IsSpace, strings.asciiSpace in *.
  unfold inRange, unicode.MaxLatin1 in H.
  assert (0 <= byteval c) by (unfold byteval; lia).
  replace ((0 <=? byteval c) && (byteval c <=? 255)) with true in H by lia.
  cbv zeta. lia.
Qed.

Lemma asciiScan_onlySpace (s : str) :
  onlySpace s = true ->
  strings.asciiScan s = strings.Stopped [] \/
  exists rest, strings.asciiScan s = strings.NonASCII rest /\ onlySpace rest = true.
Proof.
  induction s as [|c t IH]; intros H; [now left|].
  cbn [strings.asciiScan]. unfold utf8.RuneSelf.
  destruct (128 <=? byteval c) eqn:E.
  - right. now exists (c :: t).
  - assert (Hlt : (byteval c <? 128) = true) by lia.
    unfold onlySpace in H. rewrite runes_ascii in H by exact Hlt.
    cbn [forallb rune] in H. apply andb_prop in H. destruct H as [Hc Ht].
    rewrite (asciiSpace_IsSpace c Hlt Hc). now apply IH.
Qed.

Lemma TrimSpace_onlySpace (s : str) :
  onlySpace s = true -> strings.TrimSpace s = [].
Proof.
  intros H. unfold strings.TrimSpace.
  destruct (asciiScan_onlySpace s H) as [->|(rest & -> & Hrest)].
  - reflexivity.
  - now apply TrimFunc_all.
Qed.

Lemma convertLine_onlySpace (env : GoEnv) (ws : str) (n : nat) :
  onlySpace ws = true -> convertLine env theConverter ws n = Ok (None, n).
Proof.
  intros H. rewrite convertLine_eq. cbv zeta.
  now rewrite TrimSpace_onlySpace.
Qed.

Lemma convertLines_all_space (env : GoEnv) :
  forall lines acc n,
    forallb onlySpace lines = true ->
    convertLines env theConverter lines acc n = Ok (acc, n).
Proof.
  induction lines as [|line rest IH]; intros acc n H; [reflexivity|].
  cbn [forallb] in H. apply andb_prop in H. destruct H as [Hl Hr].
  cbn [convertLines]. unfold bind.
  rewrite convertLine_onlySpace by exact Hl. now apply IH.
Qed.

Lemma convertLines_drop (env : GoEnv) (ws : str) (post : list str) :
  onlySpace ws = true ->
  forall pre acc n,
    convertLines env theConverter (pre ++ ws :: post) acc n
    = convertLines env theConverter (pre ++ post) acc n.
Proof.
  intros H. induction pre as [|line rest IH]; intros acc n.
  - cbn [app convertLines]. unfold bind at 1.
    now rewrite convertLine_onlySpace.
  - cbn [app convertLines]. unfold bind.
    destruct (convertLine env theConverter line n) as [[out n']|msg];
      [|reflexivity].
    destruct out; apply IH.
Qed.

(** [ConvertToLatex] is the loop over the lines followed by the join, also
    on the empty text, where the early return gives the same. *)
Lemma ConvertToLatex_lines (env : GoEnv) (text : str) (n : nat) :
  ConvertToLatex env theConverter text n
  = (latexLines <- convertLines env theConverter (strings.Split text [NL]) [] ;;
     ret (strings.Join latexLines [NL])) n.
Proof.
  unfold ConvertToLatex. destruct text as [|c t]; [|reflexivity].
  cbn [isEmpty]. unfold bind.
  rewrite convertLines_all_space by reflexivity. reflexivity.
Qed.

(** ** Classification of a line *)

Lemma isMathExpression_backslash (env : GoEnv) (s : str) :
  In BSL s -> isMathExpression env theConverter s = true.
Proof.
  intros H. unfold isMathExpression.
  change (lit "\") with [BSL]. now rewrite Contains_In.
Qed.

Lemma not_math_no_backslash (env : GoEnv) (s : str) :
  isMathExpression env theConverter s = false ->
  strings.Contains s [BSL] = false.
Proof.
  unfold isMathExpression. change (lit "\") with [BSL].
  destruct (strings.Contains s [BSL]); [discriminate | reflexivity].
Qed.

Lemma no_backslash_notInline (s : str) :
  strings.Contains s [BSL] = false -> notInline s = true.
Proof.
  intros H. unfold notInline. destruct s as [|c t]; [reflexivity|].
  cbn [strings.Contains strings.HasPrefix] in H.
  change (lit "\(") with [BSL; "("%char]. cbn [strings.HasPrefix].
  destruct (Ascii.eqb BSL c); [discriminate H | reflexivity].
Qed.

Lemma convertLine_notInline (env : GoEnv) (line : str) (n : nat) :
  exists out n',
    convertLine env theConverter line n = Ok (out, n') /\
    match out with
    | Some s => notInline s = true
    | None => True
    end.
Proof.
  rewrite convertLine_eq. cbv zeta.
  destruct (isEmpty _); [do 2 eexists; split; [reflexivity | exact I]|].
  destruct (isMathExpression _ _ _) eqn:Em.
  - do 2 eexists. split; reflexivity.
  - destruct (existsb _ inlinePatterns) eqn:Ei.
    + apply (inline_implies_math env) in Ei. congruence.
    + do 2 eexists. split; [reflexivity|].
      apply no_backslash_notInline. eapply not_math_no_backslash. exact Em.
Qed.

Lemma convertLines_notInline (env : GoEnv) :
  forall lines acc n,
    forallb notInline acc = true ->
    exists latexLines n',
      convertLines env theConverter lines acc n = Ok (latexLines, n') /\
      forallb notInline latexLines = true.
Proof.
  induction lines as [|line rest IH]; intros acc n Hacc.
  - exists acc, n. now split.
  - cbn [convertLines]. unfold bind.
    destruct (convertLine_notInline env line n) as (out & n' & -> & Hout).
    destruct out as [s|]; apply IH; [|assumption].
    rewrite forallb_app, Hacc. cbn [forallb]. now rewrite Hout.
Qed.

(** ** Every order of a map iteration *)

Lemma insertAll_in {A} (x : A) (l1 l2 : list A) :
  In (l1 ++ x :: l2) (insertAll x (l1 ++ l2)).
Proof.
  induction l1 as [|y t IH]; simpl.
  - destruct l2; now left.
  - right. apply in_map. exact IH.
Qed.

Lemma perms_complete {A} (l' : list A) :
  forall l, Permutation l l' -> In l (perms l').
Proof.
  induction l' as [|x t IH]; intros l Hp.
  - apply Permutation_sym, Permutation_nil in Hp. subst. now left.
  - assert (Hin : In x l).
    { eapply Permutation_in; [apply Permutation_sym; exact Hp | now left]. }
    apply in_split in Hin. destruct Hin as (l1 & l2 & ->).
    apply Permutation_sym, Permutation_cons_app_inv, Permutation_sym in Hp.
    cbn [perms]. apply in_flat_map. exists (l1 ++ l2).
    split; [now apply IH | apply insertAll_in].
Qed.

Lemma Permutation_filter_compat {A} (f : A -> bool) (l l' : list A) :
  Permutation l l' -> Permutation (filter f l) (filter f l').
Proof.
  induction 1 as [|x l l' _ IH|x y l|l l' l'' _ IH1 _ IH2]; simpl.
  - constructor.
  - destruct (f x); [now constructor | assumption].
  - destruct (f x), (f y); try apply Permutation_refl. constructor.
  - eapply Permutation_trans; eassumption.
Qed.

Section Relevant.

Variable rel : ascii -> bool.
Hypothesis rel_closed : tableClosed rel = true.

Lemma closedUnder_subst (k : ascii) (new s : str) :
  closedUnder rel new = true -> closedUnder rel s = true ->
  closedUnder rel (flat_map (subst1 k new) s) = true.
Proof.
  unfold closedUnder. rewrite !forallb_forall. intros Hnew Hs c Hin.
  apply subst_origin in Hin. destruct Hin as [Hin|[Hin _]]; auto.
Qed.

(** On a closed string, the entries that are not relevant can be left out
    of the iteration. *)
Lemma escapeWith_filter (order : list (str * str)) :
  (forall kv, In kv order -> In kv specialCharsLiteral) ->
  forall s, closedUnder rel s = true ->
       escapeWith order s = escapeWith (filter (relevantRule rel) order) s.
Proof.
  induction order as [|kv rest IH]; intros Hord s Hs; [reflexivity|].
  assert (Hrest : forall kv', In kv' rest -> In kv' specialCharsLiteral)
    by (intros kv' H; apply Hord; now right).
  assert (Hkv : In kv specialCharsLiteral) by (apply Hord; now left).
  destruct (table_entry kv Hkv) as (k & new & -> & Hk & _).
  cbn [filter]. destruct (relevantRule rel ([k], new)) eqn:Er.
  - rewrite !escapeWith_cons. cbn [fst snd]. rewrite ReplaceAll_single.
    apply IH; [assumption|]. apply closedUnder_subst; [|assumption].
    unfold tableClosed in rel_closed. rewrite forallb_forall in rel_closed.
    specialize (rel_closed _ Hkv). rewrite Er in rel_closed. exact rel_closed.
  - rewrite escapeWith_cons. cbn [fst snd].
    rewrite ReplaceAll_single, subst_id; [now apply IH|].
    intros Hin. unfold closedUnder in Hs. rewrite forallb_forall in Hs.
    specialize (Hs k Hin). rewrite Hk in Hs. cbn in Er, Hs. congruence.
Qed.

Lemma filtered_order_cases (order : list (str * str)) :
  Permutation order specialCharsLiteral ->
  In (filter (relevantRule rel) order)
     (perms (filter (relevantRule rel) specialCharsLiteral)).
Proof.
  intros Hp. apply perms_complete. now apply Permutation_filter_compat.
Qed.

(** A property of the escaped form of a closed string holds for every
    order of the table once it holds for the orders of the relevant
    entries. *)
Lemma escape_cases (s : str) (P : str -> bool) :
  closedUnder rel s = true ->
  forallb (fun p => P (escapeWith p s))
          (perms (filter (relevantRule rel) specialCharsLiteral)) = true ->
  forall order,
    Permutation order specialCharsLiteral -> P (escapeWith order s) = true.
Proof.
  intros Hs Hall order Hp.
  rewrite escapeWith_filter;
    [|intros kv H; eapply Permutation_in; eassumption | assumption].
  rewrite forallb_forall in Hall. apply Hall. now apply filtered_order_cases.
Qed.

End Relevant.

Lemma applyFunctions_noop (order : list (str * str)) (s : str) :
  (forall kv, In kv order -> In kv mathFunctions) ->
  forallb (fun kv =>
             str_eqb (regexp.ReplaceAllString (functionPattern (fst kv)) s
                                              (snd kv)) s)
          mathFunctions = true ->
  applyFunctions order s = s.
Proof.
  intros Hord Hall. rewrite forallb_forall in Hall.
  induction order as [|kv rest IH]; [reflexivity|].
  unfold applyFunctions. cbn [fold_left].
  assert (Hkv : In kv mathFunctions) by (apply Hord; now left).
  apply Hall, str_eqb_eq in Hkv. rewrite Hkv.
  apply IH. intros kv' H. apply Hord. now right.
Qed.

Lemma applyFunctions_idle (env : GoEnv) (n : nat) (s : str) :
  functionsIdle s = true ->
  applyFunctions (mapOrder env n _ mathFunctions) s = s.
Proof. intros H. apply applyFunctions_noop; [apply mapOrder_in | exact H]. Qed.

(** A single trimmed line whose escaped form has a backslash. *)
Lemma convert_display_line (env : GoEnv) (n : nat) (line : str) :
  strings.TrimSpace line = line ->
  isEmpty line = false ->
  existsb (Ascii.eqb NL) line = false ->
  In BSL (escapeWith (mapOrder env n _ specialCharsLiteral) line) ->
  convert env line n
  = Ok (lit "\[ "
        ++ rewriteTail
             (applyFunctions
                (mapOrder env (S n) _ mathFunctions)
                (escapeWith (mapOrder env n _ specialCharsLiteral) line))
        ++ lit " \]", S (S n)).
Proof.
  intros Htrim Hne Hnl Hb.
  rewrite convert_eq, ConvertToLatex_lines. unfold bind.
  rewrite Split_line.
  - cbn [convertLines]. unfold bind. rewrite convertLine_eq. cbv zeta.
    rewrite Htrim, Hne, isMathExpression_backslash by exact Hb. reflexivity.
  - intros Hin.
    assert (existsb (Ascii.eqb NL) line = true)
      by (apply existsb_exists; exists NL; split;
          [assumption | apply Ascii.eqb_refl]).
    congruence.
Qed.

(** Whatever the order, the brace or the backslash is escaped wrongly:
    the brace comes out right only when the backslash entry is visited
    before the brace entry, and the backslash only when it is visited after
    it. *)
Lemma brace_or_backslash_misescaped (order : list (str * str)) :
  Permutation order specialCharsLiteral ->
  escapeWith order (lit "{") <> lit "\{" \/
  escapeWith order (lit "\") <> lit "\textbackslash{}".
Proof.
  intros Hp. set (rel := oneOf (lit "{}\")).
  assert (Hc : tableClosed rel = true) by reflexivity.
  assert (Hord : forall kv, In kv order -> In kv specialCharsLiteral)
    by (intros kv H; eapply Permutation_in; eassumption).
  assert (Hall : forallb misescapes
                   (perms (filter (relevantRule rel) specialCharsLiteral))
                 = true) by (vm_compute; reflexivity).
  rewrite forallb_forall in Hall.
  specialize (Hall _ (filtered_order_cases rel order Hp)).
  unfold misescapes in Hall.
  rewrite <- !(escapeWith_filter rel Hc order Hord) in Hall by reflexivity.
  apply orb_prop in Hall. destruct Hall as [H|H]; [left | right];
    intros Heq; apply str_eqb_eq in Heq; rewrite Heq in H; discriminate H.
Qed.

(** ** The library model on documented examples

    The examples of the Go documentation for the functions modelled above,
    and the parse of two of the program's patterns. *)

Example TrimSpace_doc :
  strings.TrimSpace (lit " " ++ ["009"%char; NL] ++ lit " Hello, Gophers "
                     ++ [NL; "009"%char; "013"%char; NL])
  = lit "Hello, Gophers".
Proof. vm_compute. reflexivity. Qed.

Example TrimSpace_unicode :
  strings.TrimSpace (["194"%char; "160"%char] ++ lit "a b"
                     ++ ["226"%char; "128"%char; "131"%char])
  = lit "a b".
Proof. vm_compute. reflexivity. Qed.

Example Split_doc :
  strings.Split (lit "a man a plan a canal panama") (lit "a ")
  = [lit ""; lit "man "; lit "plan "; lit "canal panama"] /\
  strings.Split (lit " xyz ") (lit "")
  = [lit " "; lit "x"; lit "y"; lit "z"; lit " "] /\
  strings.Split (lit "") (lit "Bernardo O'Higgins") = [lit ""].
Proof. repeat split; vm_compute; reflexivity. Qed.

Example ReplaceAll_doc :
  strings.ReplaceAll (lit "oink oink oink") (lit "k") (lit "ky")
  = lit "oinky oinky oinky" /\
  strings.ReplaceAll (lit "oink oink oink") (lit "oink") (lit "moo")
  = lit "moo moo moo".
Proof. repeat split; vm_compute; reflexivity. Qed.

Example ReplaceAllString_doc :
  let re := compiled (lit "a(x*)b") in
  regexp.ReplaceAllString re (lit "-ab-axxb-") (lit "T") = lit "-T-T-" /\
  regexp.ReplaceAllString re (lit "-ab-axxb-") (lit "$1") = lit "--xx-" /\
  regexp.ReplaceAllString re (lit "-ab-axxb-") (lit "$1W") = lit "---" /\
  regexp.ReplaceAllString re (lit "-ab-axxb-") (lit "${1}W") = lit "-W-xxW-".
Proof. repeat split; vm_compute; reflexivity. Qed.

Example ReplaceAllString_empty_matches :
  regexp.ReplaceAllString (compiled (lit "a*")) (lit "baaac") (lit "X")
  = lit "XbXcX".
Proof. vm_compute. reflexivity. Qed.

Example word_boundary :
  regexp.ReplaceAllString (functionPattern (lit "int"))
    (lit "int x, int_0, (int), print") (lit "\int")
  = lit "\int x, int_0, (\int), print".
Proof. vm_compute. reflexivity. Qed.

Example parse_exponent_pattern :
  regexp.Compile (lit "(\w+)\^(\d+)")
  = Some {| regexp.tree :=
              regexp.Cat
                (regexp.Cap 1 (regexp.Plus (regexp.CSet false regexp.wordRanges)))
                (regexp.Cat
                   (regexp.Cls (regexp.CSet false [(94, 94)]))
                   (regexp.Cap 2
                      (regexp.Plus (regexp.CSet false regexp.digitRanges))));
            regexp.numSubexp := 2 |}.
Proof. vm_compute. reflexivity. Qed.

Example parse_inline_pattern :
  regexp.Compile (lit "^[xyz]\s*=\s*\d+$")
  = Some {| regexp.tree :=
              regexp.Cat regexp.BeginText
                (regexp.Cat
                   (regexp.Cls (regexp.CSet false [(120, 120); (121, 121); (122, 122)]))
                   (regexp.Cat
                      (regexp.Star (regexp.CSet false regexp.spaceRanges))
                      (regexp.Cat
                         (regexp.Cls (regexp.CSet false [(61, 61)]))
                         (regexp.Cat
                            (regexp.Star (regexp.CSet false regexp.spaceRanges))
                            (regexp.Cat
                               (regexp.Plus (regexp.CSet false regexp.digitRanges))
                               regexp.EndText)))));
            regexp.numSubexp := 0 |}.
Proof. vm_compute. reflexivity. Qed.

Example unsupported_pattern_is_refused :
  regexp.Compile (lit "(ab)+") = None /\ regexp.Compile (lit "a(b") = None.
Proof. repeat split; vm_compute; reflexivity. Qed.

Example isMathExpression_ratio :
  isMathExpression literalOrderEnv theConverter (lit "a123") = true /\
  isMathExpression literalOrderEnv theConverter (lit "ab123") = false /\
  isMathExpression literalOrderEnv theConverter (lit "hello world") = false.
Proof. repeat split; vm_compute; reflexivity. Qed.

Example convert_demo :
  convert literalOrderEnv
    (lit "x is 5" ++ NL :: lit "   " ++ NL :: NL :: lit "sin x plus") 0%nat
  = Ok (lit "x is 5" ++ NL :: lit "\[ \sin x plus \]", 3%nat).
Proof. vm_compute. reflexivity. Qed.

(** ** Properties of the engine *)

(** C7. The convert operation is total: for every input string, every
    digit table and every order of the map iterations, it ends without a
    panic and returns a string. *)
Theorem convert_total :
  forall (env : GoEnv) (text : str) (n : nat),
    exists out n', convert env text n = Ok (out, n').
Proof.
  intros env text n. rewrite convert_eq, ConvertToLatex_lines.
  unfold bind, ret.
  destruct (convertLines_total env (strings.Split text [NL]) [] n)
    as (ls & n' & ->).
  eauto.
Qed.

(** C9. On a string with none of the ten special characters, the character
    escaper returns the string unchanged, whatever the order in which the
    table is visited. *)
Theorem escape_identity_without_special :
  forall (env : GoEnv) (s : str) (n : nat),
    existsb specialByte s = false ->
    escapeSpecialChars env theConverter s n = Ok (s, S n).
Proof.
  intros env s n H. rewrite escapeSpecialChars_eq.
  rewrite escapeWith_id; [reflexivity | apply mapOrder_in |].
  intros c Hin. destruct (specialByte c) eqn:E; [|reflexivity].
  assert (existsb specialByte s = true)
    by (apply existsb_exists; now exists c).
  congruence.
Qed.

Lemma escape_identity_without_special_witness :
  escapeSpecialChars reverseOrderEnv theConverter (lit "hello world 42") 0%nat
  = Ok (lit "hello world 42", 1%nat).
Proof.
  apply (escape_identity_without_special reverseOrderEnv
           (lit "hello world 42") 0%nat).
  reflexivity.
Defined.

(** C8. An input whose lines all consist of white space only (the empty
    string is one) is converted to the empty string, without a panic; and a
    line of white space only is dropped before anything else is done with
    it: the loop body takes [continue] on it without starting a map
    iteration, and the result with the line is the result without it. *)
Theorem whitespace_lines_dropped :
  forall (env : GoEnv) (n : nat) (text a ws b : str),
    forallb onlySpace (strings.Split text [NL]) = true ->
    onlySpace ws = true ->
    existsb (Ascii.eqb NL) ws = false ->
    convert env text n = Ok ([], n) /\
    convertLine env theConverter ws n = Ok (None, n) /\
    convert env (a ++ NL :: ws ++ NL :: b) n = convert env (a ++ NL :: b) n.
Proof.
  intros env n text a ws b Htext Hws Hnl. split; [|split].
  - rewrite convert_eq, ConvertToLatex_lines. unfold bind, ret.
    now rewrite convertLines_all_space.
  - now apply convertLine_onlySpace.
  - assert (Hline : ~ In NL ws).
    { intros Hin.
      assert (existsb (Ascii.eqb NL) ws = true)
        by (apply existsb_exists; exists NL; split;
            [assumption | apply Ascii.eqb_refl]).
      congruence. }
    rewrite !convert_eq, !ConvertToLatex_lines. unfold bind.
    rewrite (Split_app a (ws ++ NL :: b)), (Split_app ws b), (Split_app a b).
    rewrite (Split_line ws Hline). cbn [app].
    now rewrite convertLines_drop.
Qed.

Lemma whitespace_lines_dropped_witness :
  convert literalOrderEnv (lit "   " ++ NL :: lit " ") 0%nat = Ok ([], 0%nat) /\
  convertLine literalOrderEnv theConverter (lit "  ") 0%nat = Ok (None, 0%nat) /\
  convert literalOrderEnv (lit "x = 1" ++ NL :: lit "  " ++ NL :: lit "done") 0%nat
  = convert literalOrderEnv (lit "x = 1" ++ NL :: lit "done") 0%nat.
Proof.
  apply (whitespace_lines_dropped literalOrderEnv 0%nat
           (lit "   " ++ NL :: lit " ") (lit "x = 1") (lit "  ") (lit "done"));
    reflexivity.
Defined.

(** C5. A trimmed line that contains one of the ten special characters is
    display math: whatever the order in which the table is visited, the
    escaped line contains a backslash, [isMathExpression] is true of it, and
    the line is emitted between the display-math delimiters, never as prose
    and never as inline math. *)
Theorem special_line_is_display_math :
  forall (env : GoEnv) (n : nat) (line : str),
    strings.TrimSpace line = line ->
    existsb specialByte line = true ->
    existsb (Ascii.eqb NL) line = false ->
    exists escaped body,
      escapeSpecialChars env theConverter line n = Ok (escaped, S n) /\
      In BSL escaped /\
      isMathExpression env theConverter escaped = true /\
      processMathExpressions env escaped (S n) = Ok (body, S (S n)) /\
      convertLine env theConverter line n
      = Ok (Some (lit "\[ " ++ body ++ lit " \]"), S (S n)) /\
      convert env line n = Ok (lit "\[ " ++ body ++ lit " \]", S (S n)).
Proof.
  intros env n line Htrim Hsp Hnl.
  apply existsb_exists in Hsp. destruct Hsp as (c & Hc & Hspecial).
  set (escaped := escapeWith (mapOrder env n _ specialCharsLiteral) line).
  assert (Hb : In BSL escaped).
  { apply (escape_has_backslash _ line c);
      [apply mapOrder_perm | assumption | assumption]. }
  assert (Hm : isMathExpression env theConverter escaped = true)
    by now apply isMathExpression_backslash.
  assert (Hl : convertLine env theConverter line n
               = Ok (Some (lit "\[ "
                           ++ rewriteTail
                                (applyFunctions
                                   (mapOrder env (S n) _ mathFunctions) escaped)
                           ++ lit " \]"), S (S n))).
  { rewrite convertLine_eq. cbv zeta. rewrite Htrim.
    destruct line as [|c0 t]; [destruct Hc|]. cbn [isEmpty].
    fold escaped. now rewrite Hm. }
  exists escaped, (rewriteTail
                     (applyFunctions (mapOrder env (S n) _ mathFunctions)
                                     escaped)).
  split; [apply escapeSpecialChars_eq|].
  split; [assumption|]. split; [assumption|].
  split; [apply processMathExpressions_eq|]. split; [assumption|].
  rewrite convert_eq, ConvertToLatex_lines. unfold bind.
  rewrite Split_line.
  - cbn [convertLines]. unfold bind. rewrite Hl. reflexivity.
  - intros Hin.
    assert (existsb (Ascii.eqb NL) line = true)
      by (apply existsb_exists; exists NL; split;
          [assumption | apply Ascii.eqb_refl]).
    congruence.
Qed.

Lemma special_line_is_display_math_witness :
  exists escaped body,
    escapeSpecialChars reverseOrderEnv theConverter (lit "50% of a_b") 0%nat
    = Ok (escaped, 1%nat) /\
    In BSL escaped /\
    isMathExpression reverseOrderEnv theConverter escaped = true /\
    processMathExpressions reverseOrderEnv escaped 1%nat = Ok (body, 2%nat) /\
    convertLine reverseOrderEnv theConverter (lit "50% of a_b") 0%nat
    = Ok (Some (lit "\[ " ++ body ++ lit " \]"), 2%nat) /\
    convert reverseOrderEnv (lit "50% of a_b") 0%nat
    = Ok (lit "\[ " ++ body ++ lit " \]", 2%nat).
Proof.
  apply (special_line_is_display_math reverseOrderEnv 0%nat (lit "50% of a_b"));
    reflexivity.
Defined.

(** C6. The inline branch of [ConvertToLatex] is unreachable: on every
    line [isInlineMath] returns without a panic, and it is true only where
    [isMathExpression], which is tested first, is true as well (a match of
    an inline pattern reads an equals sign, and an equals sign matches the
    first math pattern).  Hence no line the engine emits opens with the
    inline-math delimiter. *)
Theorem inline_branch_unreachable :
  forall (env : GoEnv) (escaped text : str) (n : nat),
    (exists inline,
        isInlineMath escaped n = Ok (inline, n) /\
        inline && negb (isMathExpression env theConverter escaped) = false) /\
    (exists latexLines n',
        convertLines env theConverter (strings.Split text [NL]) [] n
        = Ok (latexLines, n') /\
        convert env text n = Ok (strings.Join latexLines [NL], n') /\
        forallb notInline latexLines = true).
Proof.
  intros env escaped text n. split.
  - eexists. split; [apply isInlineMath_eq|].
    destruct (existsb _ inlinePatterns) eqn:Ei; [|reflexivity].
    now rewrite (inline_implies_math env escaped Ei).
  - destruct (convertLines_notInline env (strings.Split text [NL]) [] n)
      as (ls & n' & Hls & Hall); [reflexivity|].
    exists ls, n'. split; [assumption|]. split; [|assumption].
    rewrite convert_eq, ConvertToLatex_lines. unfold bind, ret.
    now rewrite Hls.
Qed.

(** C10. The math rewriter turns ["1/3"] into the fraction markup with
    numerator 1 and denominator 3, whatever the order in which the function
    names are visited. *)
Theorem fraction_one_third :
  forall (env : GoEnv) (n : nat),
    processMathExpressions env (lit "1/3") n = Ok (lit "\frac{1}{3}", S n).
Proof.
  intros env n. rewrite processMathExpressions_eq.
  rewrite applyFunctions_idle by (vm_compute; reflexivity).
  vm_compute. reflexivity.
Qed.

(** C4 (the code departs from the claim). On ["int_0^1 x"] the math
    rewriter returns [int_0^{1} x]: the exponent rule, which runs before the
    integral rule, rewrites [int_0^1] and leaves nothing for the integral
    rule to match, although that rule alone gives the integral markup on
    this input. *)
Theorem integral_rule_preempted :
  forall (env : GoEnv) (n : nat),
    processMathExpressions env (lit "int_0^1 x") n
    = Ok (lit "int_0^{1} x", S n) /\
    regexp.ReplaceAllString (compiled (lit "int_(\w+)\^(\w+)\s*(\w+)"))
                            (lit "int_0^1 x") (lit "\int_{$1}^{$2} $3")
    = lit "\int_{0}^{1} x".
Proof.
  intros env n. split.
  - rewrite processMathExpressions_eq.
    rewrite applyFunctions_idle by (vm_compute; reflexivity).
    vm_compute. reflexivity.
  - vm_compute. reflexivity.
Qed.

(** C1 (the code departs from the claim). The line ["E = mc^2"] is emitted
    as display math, between [\[] and [\]], but its circumflex has been
    escaped before the rewriter runs: in every order of the two map
    iterations the emitted body holds no circumflex, hence no [c^{2}],
    which the rewriter does produce on the line as it was before escaping. *)
Theorem emc2_exponent_is_escaped_away :
  forall (env : GoEnv) (n : nat),
    exists body,
      convert env (lit "E = mc^2") n
      = Ok (lit "\[ " ++ body ++ lit " \]", S (S n)) /\
      existsb (Ascii.eqb "^"%char) body = false /\
      strings.Contains body (lit "c^{2}") = false /\
      processMathExpressions env (lit "E = mc^2") n
      = Ok (lit "E = mc^{2}", S n).
Proof.
  intros env n.
  set (order := mapOrder env n _ specialCharsLiteral).
  assert (Hp : Permutation order specialCharsLiteral) by apply mapOrder_perm.
  assert (Hlost : exponentLost (escapeWith order (lit "E = mc^2")) = true).
  { apply (escape_cases (oneOf (lit "^\{}")));
      [reflexivity | reflexivity | vm_compute; reflexivity | assumption]. }
  unfold exponentLost in Hlost.
  apply andb_prop in Hlost. destruct Hlost as [Hlost Hc].
  apply andb_prop in Hlost. destruct Hlost as [Hidle Hcirc].
  exists (rewriteTail (escapeWith order (lit "E = mc^2"))).
  split; [|split; [|split]].
  - rewrite convert_display_line; try reflexivity.
    + fold order. now rewrite applyFunctions_idle.
    + fold order. apply (escape_has_backslash order _ "^"%char);
        [assumption | reflexivity | simpl; tauto].
  - now apply negb_true_iff.
  - now apply negb_true_iff.
  - rewrite processMathExpressions_eq.
    rewrite applyFunctions_idle by (vm_compute; reflexivity).
    vm_compute. reflexivity.
Qed.

(** C2 (the code departs from the claim). In whatever order the table is
    visited, some special character alone on a line is not escaped to its
    entry: each replacement is applied to the output of the ones before, so
    the backslash and the braces that one entry introduces are escaped again
    by another. *)
Theorem some_special_char_is_misescaped :
  forall (env : GoEnv) (n : nat),
    exists key repl,
      In (key, repl) specialCharsLiteral /\
      escapeSpecialChars env theConverter key n <> Ok (repl, S n).
Proof.
  intros env n.
  destruct (brace_or_backslash_misescaped
              (mapOrder env n _ specialCharsLiteral)) as [H|H];
    [apply mapOrder_perm | |].
  - exists (lit "{"), (lit "\{"). split; [simpl; tauto|].
    rewrite escapeSpecialChars_eq. intros Heq. apply H. congruence.
  - exists (lit "\"), (lit "\textbackslash{}"). split; [simpl; tauto|].
    rewrite escapeSpecialChars_eq. intros Heq. apply H. congruence.
Qed.

(** C3 (the code departs from the claim). The output depends on the order
    of the map iteration: on ["&"] the engine returns
    [\[ \textbackslash{}& \]] when the table is visited in the order of the
    literal and [\[ \& \]] when it is visited backwards, and two successive
    conversions of ["&"] in one process can return the one and then the
    other. *)
Theorem conversion_depends_on_map_order :
  convert literalOrderEnv (lit "&") 0%nat
  = Ok (lit "\[ \textbackslash{}& \]", 2%nat) /\
  convert reverseOrderEnv (lit "&") 0%nat = Ok (lit "\[ \& \]", 2%nat) /\
  (first <- convert alternatingEnv (lit "&") ;;
   second <- convert alternatingEnv (lit "&") ;;
   ret (first, second)) 0%nat
  = Ok ((lit "\[ \textbackslash{}& \]", lit "\[ \& \]"), 4%nat).
Proof. repeat split; vm_compute; reflexivity. Qed.

(** ** Further facts about the escaper *)

Lemma escapeWith_app (order : list (str * str)) :
  (forall kv, In kv order -> In kv specialCharsLiteral) ->
  forall a b, escapeWith order (a ++ b) = escapeWith order a ++ escapeWith order b.
Proof.
  induction order as [|kv rest IH]; intros Hord a b; [reflexivity|].
  rewrite !escapeWith_cons.
  destruct (table_entry kv) as (k & new & -> & _); [apply Hord; now left|].
  cbn [fst snd]. rewrite !ReplaceAll_single, flat_map_app.
  apply IH. intros kv' H. apply Hord. now right.
Qed.

Lemma subst_length (k : ascii) (new s : str) :
  (1 <= length new)%nat ->
  (length s <= length (flat_map (subst1 k new) s))%nat.
Proof.
  intros Hn. induction s as [|c t IH]; [apply le_n|].
  cbn [flat_map]. rewrite length_app. unfold subst1 at 1.
  destruct (Ascii.eqb k c); simpl; lia.
Qed.

Lemma subst_length_strict (k : ascii) (new s : str) :
  (2 <= length new)%nat -> In k s ->
  (length s < length (flat_map (subst1 k new) s))%nat.
Proof.
  intros Hn. induction s as [|c t IH]; intros Hin; [destruct Hin|].
  cbn [flat_map]. rewrite length_app. unfold subst1 at 1.
  pose proof (subst_length k new t) as Hle.
  destruct (Ascii.eqb_spec k c) as [->|Hne]; simpl.
  - lia.
  - destruct Hin as [Heq|Hin]; [congruence|]. specialize (IH Hin). lia.
Qed.

Lemma escapeWith_length (order : list (str * str)) :
  (forall kv, In kv order -> In kv specialCharsLiteral) ->
  forall s, (length s <= length (escapeWith order s))%nat.
Proof.
  induction order as [|kv rest IH]; intros Hord s; [apply le_n|].
  rewrite escapeWith_cons.
  destruct (table_entry kv) as (k & new & -> & _ & _ & Hlen);
    [apply Hord; now left|].
  cbn [fst snd]. rewrite ReplaceAll_single.
  eapply Nat.le_trans; [apply (subst_length k new); lia|].
  apply IH. intros kv' H. apply Hord. now right.
Qed.

Lemma escapeWith_length_strict (order : list (str * str)) (c : ascii)
  (new : str) :
  (forall kv, In kv order -> In kv specialCharsLiteral) ->
  In ([c], new) order ->
  forall s, In c s -> (length s < length (escapeWith order s))%nat.
Proof.
  induction order as [|kv rest IH]; intros Hord Hin s Hs; [destruct Hin|].
  rewrite escapeWith_cons.
  assert (Hrest : forall kv', In kv' rest -> In kv' specialCharsLiteral)
    by (intros kv' H; apply Hord; now right).
  destruct (table_entry kv) as (k & new' & -> & _ & _ & Hlen);
    [apply Hord; now left|].
  cbn [fst snd]. rewrite ReplaceAll_single.
  destruct (ascii_dec c k) as [<-|Hne].
  - eapply Nat.lt_le_trans; [apply (subst_length_strict c new'); assumption|].
    now apply escapeWith_length.
  - destruct Hin as [Heq|Hin]; [congruence|].
    eapply Nat.le_lt_trans; [apply (subst_length k new'); lia|].
    apply IH; [assumption | assumption |]. now apply subst_keeps.
Qed.

(** A key that no replacement contains is gone for good once its entry
    has been visited. *)
Lemma escapeWith_stays_without (order : list (str * str)) (k : ascii) :
  (forall kv, In kv order -> In kv specialCharsLiteral) ->
  (forall kv, In kv specialCharsLiteral -> ~ In k (snd kv)) ->
  forall s, ~ In k s -> ~ In k (escapeWith order s).
Proof.
  intros Hord Hvan. induction order as [|kv rest IH]; intros s Hs; [assumption|].
  rewrite escapeWith_cons.
  assert (Hkv : In kv specialCharsLiteral) by (apply Hord; now left).
  destruct (table_entry kv Hkv) as (k' & new & -> & _).
  cbn [fst snd]. rewrite ReplaceAll_single.
  apply IH; [intros kv' H; apply Hord; now right|].
  intros Hin. apply subst_origin in Hin. destruct Hin as [Hin|[Hin _]].
  - exact (Hvan _ Hkv Hin).
  - exact (Hs Hin).
Qed.

Lemma escapeWith_removes (order : list (str * str)) (k : ascii) (new : str) :
  (forall kv, In kv order -> In kv specialCharsLiteral) ->
  (forall kv, In kv specialCharsLiteral -> ~ In k (snd kv)) ->
  In ([k], new) order ->
  forall s, ~ In k (escapeWith order s).
Proof.
  intros Hord Hvan. induction order as [|kv rest IH]; intros Hin s;
    [destruct Hin|].
  rewrite escapeWith_cons.
  assert (Hrest : forall kv', In kv' rest -> In kv' specialCharsLiteral)
    by (intros kv' H; apply Hord; now right).
  assert (Hkv : In kv specialCharsLiteral) by (apply Hord; now left).
  destruct (table_entry kv Hkv) as (k' & new' & -> & _).
  cbn [fst snd]. rewrite ReplaceAll_single.
  destruct (ascii_dec k k') as [<-|Hne].
  - apply escapeWith_stays_without; [assumption | assumption |].
    intros Hin'. apply subst_origin in Hin'.
    destruct Hin' as [Hin'|[_ Hin']]; [exact (Hvan _ Hkv Hin') | congruence].
  - destruct Hin as [Heq|Hin]; [congruence|]. now apply IH.
Qed.

Lemma vanishing_keys (k : ascii) :
  oneOf (lit "^~") k = true ->
  (exists new, In ([k], new) specialCharsLiteral) /\
  (forall kv, In kv specialCharsLiteral -> ~ In k (snd kv)).
Proof.
  intros H. unfold oneOf in H. cbn [lit list_ascii_of_string existsb] in H.
  assert (Hk : k = "^"%char \/ k = "~"%char).
  { destruct (Ascii.eqb_spec k "^"); [now left|].
    destruct (Ascii.eqb_spec k "~"); [now right | discriminate H]. }
  destruct Hk as [->| ->].
  - split; [eexists; simpl; tauto|].
    intros kv Hkv Hin. simpl in Hkv.
    repeat (destruct Hkv as [Hkv|Hkv];
            [subst kv; simpl in Hin;
             repeat (destruct Hin as [Hin|Hin]; [discriminate Hin|]);
             exact Hin|]).
    exact Hkv.
  - split; [eexists; simpl; tauto|].
    intros kv Hkv Hin. simpl in Hkv.
    repeat (destruct Hkv as [Hkv|Hkv];
            [subst kv; simpl in Hin;
             repeat (destruct Hin as [Hin|Hin]; [discriminate Hin|]);
             exact Hin|]).
    exact Hkv.
Qed.

Lemma escape_no_circumflex_tilde (order : list (str * str)) (s : str)
  (k : ascii) :
  Permutation order specialCharsLiteral ->
  oneOf (lit "^~") k = true -> ~ In k (escapeWith order s).
Proof.
  intros Hp Hk. destruct (vanishing_keys k Hk) as ((new & Hnew) & Hvan).
  apply (escapeWith_removes order k new).
  - now apply order_entries.
  - exact Hvan.
  - now apply order_has.
Qed.

(** ** Further facts about the loop over the lines *)

Lemma existsb_specialByte_false (s : str) :
  (forall c, In c s -> specialByte c = false) -> existsb specialByte s = false.
Proof.
  intros H. destruct (existsb specialByte s) eqn:E; [|reflexivity].
  apply existsb_exists in E. destruct E as (c & Hin & Hc).
  rewrite (H c Hin) in Hc. discriminate Hc.
Qed.

(** The three outcomes of the loop body. *)
Lemma convertLine_cases (env : GoEnv) (line : str) (n : nat) :
  (strings.TrimSpace line = [] /\
   convertLine env theConverter line n = Ok (None, n)) \/
  (strings.TrimSpace line <> [] /\
   exists body,
     convertLine env theConverter line n
     = Ok (Some (lit "\[ " ++ body ++ lit " \]"), S (S n))) \/
  (strings.TrimSpace line <> [] /\
   existsb specialByte (strings.TrimSpace line) = false /\
   isMathExpression env theConverter (strings.TrimSpace line) = false /\
   convertLine env theConverter line n
   = Ok (Some (strings.TrimSpace line), S n)).
Proof.
  rewrite convertLine_eq. cbv zeta.
  destruct (strings.TrimSpace line) as [|c0 t] eqn:Et; [left; now split|].
  right. cbn [isEmpty].
  set (order := mapOrder env n _ specialCharsLiteral).
  destruct (isMathExpression env theConverter (escapeWith order (c0 :: t)))
    eqn:Em.
  - left. split; [discriminate|]. eexists. reflexivity.
  - right. split; [discriminate|].
    destruct (existsb _ inlinePatterns) eqn:Ei.
    { apply (inline_implies_math env) in Ei. congruence. }
    assert (Hns : forall c, In c (c0 :: t) -> specialByte c = false).
    { intros c Hin. destruct (specialByte c) eqn:Ec; [|reflexivity].
      assert (Hb : In BSL (escapeWith order (c0 :: t))).
      { apply (escape_has_backslash order _ c);
          [apply mapOrder_perm | assumption | assumption]. }
      apply (isMathExpression_backslash env) in Hb. congruence. }
    assert (Hid : escapeWith order (c0 :: t) = c0 :: t).
    { apply escapeWith_id; [apply mapOrder_in | exact Hns]. }
    rewrite Hid in *.
    split; [now apply existsb_specialByte_false|]. split; [assumption|].
    reflexivity.
Qed.

Lemma convertLines_acc (env : GoEnv) :
  forall lines acc n,
    convertLines env theConverter lines acc n
    = match convertLines env theConverter lines [] n with
      | Ok (ls, n') => Ok (acc ++ ls, n')
      | Panic msg => Panic msg
      end.
Proof.
  induction lines as [|line rest IH]; intros acc n.
  - simpl. unfold ret. now rewrite app_nil_r.
  - cbn [convertLines]. unfold bind.
    destruct (convertLine env theConverter line n) as [[out n1]|msg];
      [|reflexivity].
    destruct out as [s|].
    + rewrite (IH (acc ++ [s])), (IH ([] ++ [s])).
      destruct (convertLines env theConverter rest [] n1) as [[ls n2]|msg];
        [|reflexivity].
      now rewrite <- app_assoc.
    + apply IH.
Qed.

Lemma convertLines_app (env : GoEnv) :
  forall lines1 lines2 n,
    convertLines env theConverter (lines1 ++ lines2) [] n
    = match convertLines env theConverter lines1 [] n with
      | Ok (ls1, n1) =>
        match convertLines env theConverter lines2 [] n1 with
        | Ok (ls2, n2) => Ok (ls1 ++ ls2, n2)
        | Panic msg => Panic msg
        end
      | Panic msg => Panic msg
      end.
Proof.
  induction lines1 as [|line rest IH]; intros lines2 n.
  - cbn [app convertLines]. unfold ret.
    destruct (convertLines env theConverter lines2 [] n) as [[ls n2]|msg];
      reflexivity.
  - cbn [app convertLines]. unfold bind.
    destruct (convertLine env theConverter line n) as [[out n1]|msg];
      [|reflexivity].
    destruct out as [s|]; [|apply IH].
    rewrite (convertLines_acc env (rest ++ lines2)),
            (convertLines_acc env rest), IH.
    destruct (convertLines env theConverter rest [] n1) as [[ls1 n2]|msg];
      [|reflexivity].
    destruct (convertLines env theConverter lines2 [] n2) as [[ls2 n3]|msg];
      [|reflexivity].
    now rewrite app_assoc.
Qed.

(** One emitted line per non-blank line, none of them empty. *)
Lemma convertLines_count (env : GoEnv) :
  forall lines n,
    exists latexLines n',
      convertLines env theConverter lines [] n = Ok (latexLines, n') /\
      length latexLines = length (filter nonBlank lines) /\
      forallb (fun s => negb (isEmpty s)) latexLines = true.
Proof.
  induction lines as [|line rest IH]; intros n.
  - exists [], n. repeat split.
  - cbn [convertLines filter]. unfold bind, nonBlank.
    destruct (convertLine_cases env line n)
      as [(Ht & ->)|[(Ht & body & ->)|(Ht & _ & _ & ->)]].
    + rewrite Ht. cbn [isEmpty negb]. apply IH.
    + destruct (IH (S (S n))) as (ls & n' & Hls & Hlen & Hne).
      rewrite convertLines_acc, Hls.
      destruct (strings.TrimSpace line); [contradiction|].
      exists (([] ++ [lit "\[ " ++ body ++ lit " \]"]) ++ ls), n'.
      split; [reflexivity|]. split; [simpl; now rewrite Hlen|].
      simpl. exact Hne.
    + destruct (IH (S n)) as (ls & n' & Hls & Hlen & Hne).
      rewrite convertLines_acc, Hls.
      destruct (strings.TrimSpace line) as [|c0 t] eqn:E; [contradiction|].
      exists (([] ++ [c0 :: t]) ++ ls), n'.
      split; [reflexivity|]. split; [simpl; now rewrite Hlen|].
      simpl. exact Hne.
Qed.

(** *** Joining *)

Lemma Join_cons (e : str) (rest : list str) (sep : str) :
  rest <> [] -> strings.Join (e :: rest) sep = e ++ sep ++ strings.Join rest sep.
Proof. destruct rest; [contradiction | reflexivity]. Qed.

Lemma Join_app (la lb : list str) (sep : str) :
  la <> [] -> lb <> [] ->
  strings.Join (la ++ lb) sep = strings.Join la sep ++ sep ++ strings.Join lb sep.
Proof.
  intros Ha Hb. induction la as [|e rest IH]; [contradiction|].
  destruct rest as [|e' rest'].
  - cbn [app]. now rewrite Join_cons.
  - rewrite <- app_comm_cons, Join_cons by discriminate.
    rewrite IH by discriminate.
    rewrite (Join_cons e (e' :: rest')) by discriminate.
    now rewrite <- !app_assoc.
Qed.

Lemma Join_isEmpty (ls : list str) (sep : str) :
  forallb (fun s => negb (isEmpty s)) ls = true ->
  isEmpty (strings.Join ls sep) = match ls with [] => true | _ => false end.
Proof.
  destruct ls as [|e rest]; [reflexivity|].
  cbn [forallb]. intros H. apply andb_prop in H. destruct H as [He _].
  destruct e as [|c t]; [discriminate He|].
  destruct rest; reflexivity.
Qed.

Lemma Join_glue (la lb : list str) :
  forallb (fun s => negb (isEmpty s)) la = true ->
  forallb (fun s => negb (isEmpty s)) lb = true ->
  strings.Join (la ++ lb) [NL]
  = glue (strings.Join la [NL]) (strings.Join lb [NL]).
Proof.
  intros Ha Hb. unfold glue.
  rewrite (Join_isEmpty la) by exact Ha. rewrite (Join_isEmpty lb) by exact Hb.
  destruct la as [|a la']; [reflexivity|].
  destruct lb as [|b lb']; [now rewrite app_nil_r|].
  cbn [isEmpty]. now rewrite Join_app by discriminate.
Qed.

(** ** Runes and bytes *)

Lemma Zland_le_r (a b : Z) : 0 <= a -> 0 <= b -> Z.land a b <= b.
Proof.
  intros Ha Hb. rewrite <- (Z2N.id a Ha), <- (Z2N.id b Hb), <- N2Z.inj_land.
  apply N2Z.inj_le, N.land_le_r.
Qed.

Lemma Zlor_ge_l (a b : Z) : 0 <= a -> 0 <= b -> a <= Z.lor a b.
Proof.
  intros Ha Hb. pose proof (Zbitwise.Z.add_lor_land a b) as H.
  pose proof (Zland_le_r a b Ha Hb). lia.
Qed.

Lemma Zlor_ge_r (a b : Z) : 0 <= a -> 0 <= b -> b <= Z.lor a b.
Proof. intros Ha Hb. rewrite Z.lor_comm. now apply Zlor_ge_l. Qed.

Lemma byteval_range (c : ascii) : 0 <= byteval c < 256.
Proof.
  unfold byteval. pose proof (N_ascii_bounded c) as H. lia.
Qed.

Lemma byte_of_byteval (c : ascii) : byte_of (byteval c) = c.
Proof.
  unfold byte_of, byteval. rewrite N2Z.id. apply ascii_N_embedding.
Qed.

Lemma byteval_inj (a b : ascii) : byteval a = byteval b -> a = b.
Proof.
  intros H. rewrite <- (byte_of_byteval a), <- (byte_of_byteval b). now f_equal.
Qed.

Lemma land_mask (b : Z) (n : Z) :
  0 <= n -> Z.land b (Z.ones n) = b mod 2 ^ n.
Proof. intros Hn. now apply Z.land_ones. Qed.

Lemma shift_lower (x n lo : Z) :
  0 <= n -> lo <= x -> 0 <= lo -> lo * 2 ^ n <= Z.shiftl x n.
Proof.
  intros Hn Hx Hlo. rewrite Z.shiftl_mul_pow2 by assumption.
  apply Z.mul_le_mono_nonneg_r; [|assumption].
  apply Z.pow_nonneg. lia.
Qed.

Lemma shift_nonneg (x n : Z) : 0 <= x -> 0 <= Z.shiftl x n.
Proof. intros H. now apply Z.shiftl_nonneg. Qed.

Lemma land_nonneg_r (a m : Z) : 0 <= m -> 0 <= Z.land a m.
Proof. intros H. apply Z.land_nonneg. now right. Qed.

Lemma rune2_lower (b0 b1 : Z) :
  194 <= b0 < 224 -> 0 <= b1 ->
  128 <= Z.lor (Z.shiftl (Z.land b0 31) 6) (Z.land b1 63).
Proof.
  intros H0 H1.
  change 31 with (Z.ones 5). change 63 with (Z.ones 6).
  rewrite !land_mask by lia.
  assert (Hlo : 2 <= b0 mod 2 ^ 5) by (change (2 ^ 5) with 32; Z.div_mod_to_equations; lia).
  pose proof (shift_lower (b0 mod 2 ^ 5) 6 2 ltac:(lia) Hlo ltac:(lia)) as Hs.
  change (2 * 2 ^ 6) with 128 in Hs.
  assert (0 <= b1 mod 2 ^ 6) by (apply Z.mod_pos_bound; reflexivity).
  pose proof (Zlor_ge_l (Z.shiftl (b0 mod 2 ^ 5) 6) (b1 mod 2 ^ 6)
                ltac:(lia) ltac:(lia)). lia.
Qed.

Lemma rune3_lower (b0 b1 b2 : Z) :
  224 <= b0 < 240 -> (if b0 =? 224 then 160 else 128) <= b1 <= 191 -> 0 <= b2 ->
  128 <= Z.lor (Z.shiftl (Z.land b0 15) 12)
               (Z.lor (Z.shiftl (Z.land b1 63) 6) (Z.land b2 63)).
Proof.
  intros H0 H1 H2.
  change 15 with (Z.ones 4). change 63 with (Z.ones 6).
  rewrite !land_mask by lia.
  assert (Hm0 : 0 <= b0 mod 2 ^ 4) by (apply Z.mod_pos_bound; reflexivity).
  assert (Hm1 : 0 <= b1 mod 2 ^ 6) by (apply Z.mod_pos_bound; reflexivity).
  assert (Hm2 : 0 <= b2 mod 2 ^ 6) by (apply Z.mod_pos_bound; reflexivity).
  set (A := Z.shiftl (b0 mod 2 ^ 4) 12).
  set (B := Z.shiftl (b1 mod 2 ^ 6) 6).
  set (C := b2 mod 2 ^ 6).
  assert (HA : 0 <= A) by (apply shift_nonneg; lia).
  assert (HB : 0 <= B) by (apply shift_nonneg; lia).
  assert (HBC : 0 <= Z.lor B C) by (apply Z.lor_nonneg; lia).
  pose proof (Zlor_ge_l A (Z.lor B C) HA HBC).
  pose proof (Zlor_ge_r A (Z.lor B C) HA HBC).
  pose proof (Zlor_ge_l B C HB ltac:(lia)).
  destruct (b0 =? 224) eqn:E.
  - assert (Hlo : 32 <= b1 mod 2 ^ 6) by (change (2 ^ 6) with 64; Z.div_mod_to_equations; lia).
    pose proof (shift_lower (b1 mod 2 ^ 6) 6 32 ltac:(lia) Hlo ltac:(lia)) as Hs.
    change (32 * 2 ^ 6) with 2048 in Hs. unfold B in *. lia.
  - assert (Hlo : 1 <= b0 mod 2 ^ 4) by (change (2 ^ 4) with 16; Z.div_mod_to_equations; lia).
    pose proof (shift_lower (b0 mod 2 ^ 4) 12 1 ltac:(lia) Hlo ltac:(lia)) as Hs.
    change (1 * 2 ^ 12) with 4096 in Hs. unfold A in *. lia.
Qed.

Lemma rune4_lower (b0 b1 b2 b3 : Z) :
  240 <= b0 < 245 -> (if b0 =? 240 then 144 else 128) <= b1 <= 191 ->
  0 <= b2 -> 0 <= b3 ->
  128 <= Z.lor (Z.shiftl (Z.land b0 7) 18)
               (Z.lor (Z.shiftl (Z.land b1 63) 12)
                      (Z.lor (Z.shiftl (Z.land b2 63) 6) (Z.land b3 63))).
Proof.
  intros H0 H1 H2 H3.
  change 7 with (Z.ones 3). change 63 with (Z.ones 6).
  rewrite !land_mask by lia.
  assert (Hm0 : 0 <= b0 mod 2 ^ 3) by (apply Z.mod_pos_bound; reflexivity).
  assert (Hm1 : 0 <= b1 mod 2 ^ 6) by (apply Z.mod_pos_bound; reflexivity).
  assert (Hm2 : 0 <= b2 mod 2 ^ 6) by (apply Z.mod_pos_bound; reflexivity).
  assert (Hm3 : 0 <= b3 mod 2 ^ 6) by (apply Z.mod_pos_bound; reflexivity).
  set (A := Z.shiftl (b0 mod 2 ^ 3) 18).
  set (B := Z.shiftl (b1 mod 2 ^ 6) 12).
  set (C := Z.lor (Z.shiftl (b2 mod 2 ^ 6) 6) (b3 mod 2 ^ 6)).
  assert (HA : 0 <= A) by (apply shift_nonneg; lia).
  assert (HB : 0 <= B) by (apply shift_nonneg; lia).
  assert (HC : 0 <= C).
  { apply Z.lor_nonneg. split; [apply shift_nonneg; lia | lia]. }
  assert (HBC : 0 <= Z.lor B C) by (apply Z.lor_nonneg; lia).
  pose proof (Zlor_ge_l A (Z.lor B C) HA HBC).
  pose proof (Zlor_ge_r A (Z.lor B C) HA HBC).
  pose proof (Zlor_ge_l B C HB HC).
  destruct (b0 =? 240) eqn:E.
  - assert (Hlo : 16 <= b1 mod 2 ^ 6)
      by (change (2 ^ 6) with 64; Z.div_mod_to_equations; lia).
    pose proof (shift_lower (b1 mod 2 ^ 6) 12 16 ltac:(lia) Hlo ltac:(lia)) as Hs.
    change (16 * 2 ^ 12) with 65536 in Hs. unfold B in *. lia.
  - assert (Hlo : 1 <= b0 mod 2 ^ 3)
      by (change (2 ^ 3) with 8; Z.div_mod_to_equations; lia).
    pose proof (shift_lower (b0 mod 2 ^ 3) 18 1 ltac:(lia) Hlo ltac:(lia)) as Hs.
    change (1 * 2 ^ 18) with 262144 in Hs. unfold A in *. lia.
Qed.

Lemma decode_spec (c : ascii) (t : str) :
  (1 <= snd (utf8.DecodeRuneInString (c :: t)) <= length (c :: t))%nat /\
  wfChar (RChar (fst (utf8.DecodeRuneInString (c :: t)))
                (firstn (snd (utf8.DecodeRuneInString (c :: t))) (c :: t))).
Proof.
  pose proof (byteval_range c) as Hc.
  unfold utf8.DecodeRuneInString, wfChar. cbv zeta.
  destruct (byteval c <? 128) eqn:E0.
  { cbn [fst snd firstn rune enc length]. split; [lia|]. split.
    - intros _. exists c. now split.
    - intros H. lia. }
  assert (Hinv : (1 <= 1 <= length (c :: t))%nat /\
                 ((utf8.RuneError < 128 ->
                   exists c', firstn 1 (c :: t) = [c'] /\ byteval c' = utf8.RuneError) /\
                  (128 <= utf8.RuneError ->
                   Forall (fun b => 128 <= byteval b) (firstn 1 (c :: t))))).
  { cbn [firstn length]. split; [lia|]. split.
    - unfold utf8.RuneError. lia.
    - intros _. constructor; [lia | constructor]. }
  destruct (byteval c <? 194) eqn:E1; [exact Hinv|].
  destruct (byteval c <? 224) eqn:E2.
  { destruct t as [|c1 t1]; [exact Hinv|].
    pose proof (byteval_range c1) as Hc1.
    unfold inRange. destruct ((128 <=? byteval c1) && (byteval c1 <=? 191)) eqn:R1;
      [|exact Hinv].
    cbn [fst snd firstn rune enc length].
    pose proof (rune2_lower (byteval c) (byteval c1) ltac:(lia) ltac:(lia)).
    split; [lia|]. split; [lia|].
    intros _. repeat constructor; lia. }
  destruct (byteval c <? 240) eqn:E3.
  { destruct t as [|c1 [|c2 t2]]; try exact Hinv.
    pose proof (byteval_range c1) as Hc1. pose proof (byteval_range c2) as Hc2.
    unfold inRange.
    match goal with |- context [if ?b then _ else (utf8.RuneError, _)] =>
      destruct b eqn:R1 end; [|exact Hinv].
    cbn [fst snd firstn rune enc length].
    assert ((if byteval c =? 224 then 160 else 128) <= byteval c1 <= 191)
      by (destruct (byteval c =? 224); destruct (byteval c =? 237); lia).
    pose proof (rune3_lower (byteval c) (byteval c1) (byteval c2)
                  ltac:(lia) ltac:(assumption) ltac:(lia)).
    split; [lia|]. split; [lia|].
    intros _. destruct (byteval c =? 224); repeat constructor; lia. }
  destruct (byteval c <? 245) eqn:E4; [|exact Hinv].
  destruct t as [|c1 [|c2 [|c3 t3]]]; try exact Hinv.
  pose proof (byteval_range c1) as Hc1. pose proof (byteval_range c2) as Hc2.
  pose proof (byteval_range c3) as Hc3.
  unfold inRange.
  match goal with |- context [if ?b then _ else (utf8.RuneError, _)] =>
    destruct b eqn:R1 end; [|exact Hinv].
  cbn [fst snd firstn rune enc length].
  assert ((if byteval c =? 240 then 144 else 128) <= byteval c1 <= 191)
    by (destruct (byteval c =? 240); destruct (byteval c =? 244); lia).
  pose proof (rune4_lower (byteval c) (byteval c1) (byteval c2) (byteval c3)
                ltac:(lia) ltac:(assumption) ltac:(lia) ltac:(lia)).
  split; [lia|]. split; [lia|].
  intros _. destruct (byteval c =? 240); repeat constructor; lia.
Qed.

Lemma runesFrom_skipn (s : str) :
  forall k, runesFrom k s = runes (skipn k s).
Proof.
  induction s as [|c t IH]; intros k.
  - now destruct k.
  - destruct k as [|k]; [reflexivity|]. cbn [runesFrom skipn]. apply IH.
Qed.

Lemma runes_cons (c : ascii) (t : str) :
  runes (c :: t)
  = RChar (fst (utf8.DecodeRuneInString (c :: t)))
          (firstn (snd (utf8.DecodeRuneInString (c :: t))) (c :: t))
      :: runes (skipn (snd (utf8.DecodeRuneInString (c :: t))) (c :: t)).
Proof.
  destruct (decode_spec c t) as ((Hw & _) & _).
  unfold runes at 1. cbn [runesFrom].
  destruct (utf8.DecodeRuneInString (c :: t)) as [r w]. cbn [fst snd] in *.
  rewrite runesFrom_skipn. destruct w as [|w]; [lia|].
  cbn [skipn]. replace (S w - 1)%nat with w by lia. reflexivity.
Qed.

(** Induction along the runes of a string. *)
Lemma runes_ind (P : str -> Prop) :
  P [] ->
  (forall c t,
      P (skipn (snd (utf8.DecodeRuneInString (c :: t))) (c :: t)) ->
      P (c :: t)) ->
  forall s, P s.
Proof.
  intros Hnil Hstep s.
  assert (H : forall n s, (length s <= n)%nat -> P s).
  { induction n as [|n IH]; intros s' Hlen.
    - destruct s'; [exact Hnil | simpl in Hlen; lia].
    - destruct s' as [|c t]; [exact Hnil|].
      apply Hstep. apply IH.
      destruct (decode_spec c t) as ((Hw & _) & _).
      rewrite length_skipn.
      set (w := snd (utf8.DecodeRuneInString (c :: t))) in *.
      set (len := length (c :: t)) in *. lia. }
  apply (H (length s)). apply le_n.
Qed.

(** The bytes of the runes of a string are the string. *)
Lemma encAll_runes (s : str) : encAll (runes s) = s.
Proof.
  induction s as [|c t IH] using runes_ind; [reflexivity|].
  rewrite runes_cons. unfold encAll in *. cbn [flat_map enc].
  rewrite IH. apply firstn_skipn.
Qed.

Lemma runes_wf (s : str) : Forall wfChar (runes s).
Proof.
  induction s as [|c t IH] using runes_ind; [constructor|].
  rewrite runes_cons. constructor; [|exact IH].
  apply decode_spec.
Qed.

(** An ASCII rune of the string is a byte of the string, and conversely. *)
Lemma rune_is_byte (s : str) (ch : rchar) :
  In ch (runes s) -> rune ch < 128 ->
  exists c, In c s /\ byteval c = rune ch /\ enc ch = [c].
Proof.
  intros Hin Hlt.
  pose proof (runes_wf s) as Hwf. rewrite Forall_forall in Hwf.
  destruct (Hwf ch Hin) as [Hascii _].
  destruct (Hascii Hlt) as (c & Henc & Hc).
  exists c. split; [|now split].
  rewrite <- (encAll_runes s). unfold encAll. apply in_flat_map.
  exists ch. split; [assumption|]. rewrite Henc. now left.
Qed.

Lemma byte_is_rune (s : str) (c : ascii) :
  In c s -> byteval c < 128 ->
  exists ch, In ch (runes s) /\ rune ch = byteval c.
Proof.
  intros Hin Hlt. rewrite <- (encAll_runes s) in Hin.
  unfold encAll in Hin. apply in_flat_map in Hin.
  destruct Hin as (ch & Hch & Hc).
  pose proof (runes_wf s) as Hwf. rewrite Forall_forall in Hwf.
  destruct (Hwf ch Hch) as [Hascii Hhigh].
  exists ch. split; [assumption|].
  destruct (Z_lt_ge_dec (rune ch) 128) as [Hr|Hr].
  - destruct (Hascii Hr) as (c' & Henc & Hc'). rewrite Henc in Hc.
    destruct Hc as [->|[]]. now symmetry.
  - assert (H128 : 128 <= rune ch) by lia.
    specialize (Hhigh H128). rewrite Forall_forall in Hhigh.
    specialize (Hhigh c Hc). lia.
Qed.

(** ** Further facts about classification and rewriting *)

Lemma first_math_pattern_operators :
  exists cl n rest,
    mathPatterns theConverter
    = {| regexp.tree := regexp.Cls cl; regexp.numSubexp := n |} :: rest /\
    forallb (fun c => regexp.accepts cl (byteval c)) (lit "=+-*/^()[]") = true.
Proof. vm_compute. do 3 eexists. split; reflexivity. Qed.

Lemma oneOf_In (chars : str) (c : ascii) :
  oneOf chars c = true <-> In c chars.
Proof.
  unfold oneOf. rewrite existsb_exists. split.
  - intros (d & Hd & He). apply Ascii.eqb_eq in He. now subst.
  - intros H. exists c. split; [assumption | apply Ascii.eqb_refl].
Qed.

Lemma operator_is_math (env : GoEnv) (s : str) (c : ascii) :
  operatorByte c = true -> In c s ->
  isMathExpression env theConverter s = true.
Proof.
  intros Hop Hin. unfold isMathExpression.
  destruct (strings.Contains s (lit "\")); [reflexivity|].
  destruct (fold_left (countRune env) (runes s) (0, 0)) as [m t].
  destruct ((0 <? t) && ratioAbove m t); [reflexivity|].
  destruct first_math_pattern_operators as (cl & n & rest & -> & Hall).
  cbn [existsb]. unfold regexp.MatchString at 1.
  rewrite forallb_forall in Hall. apply oneOf_In in Hop.
  specialize (Hall c Hop).
  assert (Hlt : byteval c < 128).
  { simpl in Hop.
    repeat (destruct Hop as [Hop|Hop]; [subst c; vm_compute; reflexivity|]).
    destruct Hop. }
  destruct (byte_is_rune s c Hin Hlt) as (ch & Hch & Hr).
  rewrite searchFrom_class; [reflexivity|].
  exists ch. split; [assumption|]. now rewrite Hr.
Qed.

Lemma inline_needs_equals_byte (s : str) :
  existsb (fun pattern => regexp.MatchString pattern s) inlinePatterns = true ->
  In "="%char s.
Proof.
  intros H. apply existsb_exists in H. destruct H as (re & Hin & Hm).
  pose proof inline_patterns_require_equals as Hreq.
  rewrite forallb_forall in Hreq. specialize (Hreq re Hin).
  destruct (searchFrom_requires 61 re Hreq _ _ Hm) as (ch & Hch & Hr).
  destruct (rune_is_byte s ch Hch ltac:(lia)) as (c & Hc & Hv & _).
  replace "="%char with c; [assumption|].
  apply byteval_inj. rewrite Hv, Hr. reflexivity.
Qed.

(** A pattern that requires a rune the text does not have leaves the
    text as it is. *)
Lemma replaceAll_absent (c : Z) (re : regexp.Regexp) (repl : str) :
  requires c (regexp.tree re) = true ->
  forall inp afterMatch prev,
    (forall ch, In ch inp -> rune ch <> c) ->
    regexp.replaceAll re repl 0 afterMatch prev inp = encAll inp.
Proof.
  intros Hc. induction inp as [|ch rest IH]; intros am prev Hn.
  - cbn [regexp.replaceAll]. now rewrite (matchHere_none c).
  - cbn [regexp.replaceAll]. rewrite (matchHere_none c) by assumption.
    rewrite IH; [reflexivity|]. intros ch' H. apply Hn. now right.
Qed.

Lemma ReplaceAllString_absent (b : ascii) (re : regexp.Regexp)
  (src repl : str) :
  byteval b < 128 ->
  requires (byteval b) (regexp.tree re) = true ->
  ~ In b src ->
  regexp.ReplaceAllString re src repl = src.
Proof.
  intros Hlt Hreq Hn. unfold regexp.ReplaceAllString.
  rewrite (replaceAll_absent (byteval b)); [apply encAll_runes | assumption |].
  intros ch Hch Hr.
  destruct (rune_is_byte src ch Hch ltac:(lia)) as (c & Hc & Hv & _).
  apply Hn. replace b with c; [assumption|].
  apply byteval_inj. now rewrite Hv.
Qed.

(** Each function-name pattern requires the first letter of the name. *)
Lemma function_patterns_require :
  forallb (fun kv =>
             match fst kv with
             | b :: _ =>
               lowerByte b
               && requires (byteval b) (regexp.tree (functionPattern (fst kv)))
             | [] => false
             end) mathFunctions = true.
Proof. vm_compute. reflexivity. Qed.

Lemma lowerByte_lt (b : ascii) : lowerByte b = true -> byteval b < 128.
Proof. unfold lowerByte, inRange. lia. Qed.

Lemma applyFunctions_no_lower (order : list (str * str)) (s : str) :
  (forall kv, In kv order -> In kv mathFunctions) ->
  existsb lowerByte s = false ->
  applyFunctions order s = s.
Proof.
  intros Hord Hs. induction order as [|kv rest IH]; [reflexivity|].
  unfold applyFunctions. cbn [fold_left].
  pose proof function_patterns_require as Hreq.
  rewrite forallb_forall in Hreq.
  specialize (Hreq kv (Hord kv (or_introl eq_refl))).
  destruct kv as [key cmd]. cbn [fst snd] in *.
  destruct key as [|b name]; [discriminate Hreq|].
  apply andb_prop in Hreq. destruct Hreq as [Hlow Hreq].
  rewrite (ReplaceAllString_absent b).
  - apply IH. intros kv' H. apply Hord. now right.
  - now apply lowerByte_lt.
  - exact Hreq.
  - intros Hin.
    assert (existsb lowerByte s = true)
      by (apply existsb_exists; now exists b).
    congruence.
Qed.

Lemma rewrite_patterns_require :
  requires 47 (regexp.tree (compiled (lit "(\d+)/(\d+)"))) = true /\
  requires 94 (regexp.tree (compiled (lit "(\w+)\^(\d+)"))) = true /\
  requires 113 (regexp.tree (compiled (lit "sqrt\(([^)]+)\)"))) = true /\
  requires 40 (regexp.tree (compiled (lit "sqrt\(([^)]+)\)"))) = true /\
  requires 94 (regexp.tree (compiled (lit "int_(\w+)\^(\w+)\s*(\w+)"))) = true /\
  requires 95 (regexp.tree (compiled (lit "int_(\w+)\^(\w+)\s*(\w+)"))) = true.
Proof. repeat split; vm_compute; reflexivity. Qed.

(** ** Where the bytes of a replacement come from *)

Lemma encAll_app (a b : list rchar) : encAll (a ++ b) = encAll a ++ encAll b.
Proof. unfold encAll. apply flat_map_app. Qed.

Lemma encAll_suffix (pre inp : list rchar) :
  incl (encAll inp) (encAll (pre ++ inp)).
Proof. rewrite encAll_app. apply incl_appr, incl_refl. Qed.

Lemma consumed_incl (from to : list rchar) :
  incl (regexp.consumed from to) (encAll from).
Proof.
  unfold regexp.consumed. set (k := (length from - length to)%nat).
  intros c Hc. rewrite <- (firstn_skipn k from), encAll_app.
  apply in_or_app. now left.
Qed.

Lemma matchRe_caps (U : str) (r : regexp.regex) :
  forall k prev inp cs res,
    regexp.matchRe r k prev inp cs = Some res ->
    incl (encAll inp) U -> capsWithin U cs ->
    exists prev' inp' cs',
      k prev' inp' cs' = Some res /\ incl (encAll inp') U /\ capsWithin U cs'.
Proof.
  induction r as [|cl|cl|cl|r1 IH1 r2 IH2|r1 IH1 r2 IH2|i r1 IH1| | |];
    intros k prev inp cs res H HU Hcs; simpl in H.
  - exists prev, inp, cs. repeat split; assumption.
  - destruct inp as [|ch rest]; [discriminate|].
    destruct (regexp.accepts cl (rune ch)); [|discriminate].
    exists (Some (rune ch)), rest, cs. repeat split; [assumption| |assumption].
    eapply incl_tran; [apply (encAll_suffix [ch] rest) | exact HU].
  - apply starLoop_sound in H. destruct H as (p' & pre & inp' & -> & Hk).
    exists p', inp', cs. repeat split; [assumption| |assumption].
    eapply incl_tran; [apply encAll_suffix | exact HU].
  - destruct inp as [|ch rest]; [discriminate|].
    destruct (regexp.accepts cl (rune ch)); [|discriminate].
    apply starLoop_sound in H. destruct H as (p' & pre & inp' & -> & Hk).
    exists p', inp', cs. repeat split; [assumption| |assumption].
    eapply incl_tran; [apply (encAll_suffix (ch :: pre) inp') | exact HU].
  - apply IH1 in H; [|assumption|assumption].
    destruct H as (p1 & inp1 & cs1 & H & HU1 & Hcs1).
    apply IH2 in H; assumption.
  - destruct (regexp.matchRe r1 k prev inp cs) eqn:E.
    + injection H as ->. eapply IH1; eassumption.
    + eapply IH2; eassumption.
  - apply IH1 in H; [|assumption|assumption].
    destruct H as (p1 & inp1 & cs1 & H & HU1 & Hcs1).
    exists p1, inp1, ((i, regexp.consumed inp inp1) :: cs1).
    repeat split; [assumption | assumption |].
    intros p [<-|Hp]; [|now apply Hcs1].
    cbn [snd]. eapply incl_tran; [apply consumed_incl | exact HU].
  - destruct (xorb _ _); [|discriminate].
    exists prev, inp, cs. repeat split; assumption.
  - destruct prev; [discriminate|].
    exists None, inp, cs. repeat split; assumption.
  - destruct inp; [|discriminate].
    exists prev, [], cs. repeat split; assumption.
Qed.

Lemma matchHere_caps (re : regexp.Regexp) (prev : option Z)
  (inp inp' : list rchar) (cs : regexp.caps) :
  regexp.matchHere re prev inp = Some (inp', cs) ->
  capsWithin (encAll inp) cs.
Proof.
  unfold regexp.matchHere. intros H.
  apply (matchRe_caps (encAll inp)) in H;
    [|apply incl_refl | intros p []].
  destruct H as (p1 & inp1 & cs1 & H & _ & Hcs1).
  injection H as <- <-.
  intros p [<-|Hp]; [apply consumed_incl | now apply Hcs1].
Qed.

Lemma group_origin (re : regexp.Regexp) (cs : regexp.caps) (num : option Z)
  (c : ascii) :
  In c (regexp.group re cs num) -> exists p, In p cs /\ In c (snd p).
Proof.
  unfold regexp.group. destruct num as [z|]; [|intros []].
  destruct (Z.of_nat (regexp.numSubexp re) <? z); [intros []|].
  destruct (find _ cs) as [p|] eqn:E; [|intros []].
  intros Hin. apply find_some in E. exists p. now split.
Qed.

Lemma group_no_caps (re : regexp.Regexp) (num : option Z) :
  regexp.group re [] num = [].
Proof.
  unfold regexp.group. destruct num as [z|]; [|reflexivity].
  now destruct (Z.of_nat (regexp.numSubexp re) <? z).
Qed.

(** A byte of an expansion is a literal byte of the template (a byte of
    its expansion with every group empty) or a byte of a group. *)
Lemma expandFrom_origin (re : regexp.Regexp) (cs : regexp.caps) (c : ascii) :
  forall tpl skip,
    In c (regexp.expandFrom re cs skip tpl) ->
    In c (regexp.expandFrom re [] skip tpl) \/
    exists p, In p cs /\ In c (snd p).
Proof.
  induction tpl as [|d t IH]; intros skip H; [destruct H|].
  cbn [regexp.expandFrom] in H |- *.
  destruct skip as [|k]; [|now apply IH].
  destruct (byteval d =? 36).
  - destruct (regexp.startsWith 36 t).
    + destruct H as [<-|H]; [left; now left|].
      destruct (IH _ H) as [Ht|Hp]; [left; now right | now right].
    + destruct (regexp.extract t) as [[num used]|].
      * rewrite group_no_caps. cbn [app].
        apply in_app_or in H. destruct H as [H|H].
        -- right. eapply group_origin. exact H.
        -- now apply IH.
      * destruct H as [<-|H]; [left; now left|].
        destruct (IH _ H) as [Ht|Hp]; [left; now right | now right].
  - destruct H as [<-|H]; [left; now left|].
    destruct (IH _ H) as [Ht|Hp]; [left; now right | now right].
Qed.

Lemma expand_origin (re : regexp.Regexp) (repl : str) (cs : regexp.caps)
  (U : str) (c : ascii) :
  capsWithin U cs -> In c (regexp.expand re repl cs) ->
  In c (regexp.expand re repl []) \/ In c U.
Proof.
  intros Hcs H. apply expandFrom_origin in H.
  destruct H as [H|(p & Hp & Hc)]; [now left|].
  right. exact (Hcs p Hp c Hc).
Qed.

Lemma replaceAll_origin (re : regexp.Regexp) (repl : str) (c : ascii) :
  forall inp skip afterMatch prev,
    In c (regexp.replaceAll re repl skip afterMatch prev inp) ->
    In c (regexp.expand re repl []) \/ In c (encAll inp).
Proof.
  induction inp as [|ch rest IH]; intros skip am prev H.
  - cbn [regexp.replaceAll] in H. destruct skip; [|destruct H].
    destruct (regexp.matchHere re prev []) as [[inp' cs]|] eqn:E; [|destruct H].
    destruct am; [destruct H|].
    eapply expand_origin; [eapply matchHere_caps; exact E | exact H].
  - assert (Hrec : forall k am' p,
               In c (regexp.replaceAll re repl k am' p rest) ->
               In c (regexp.expand re repl []) \/ In c (encAll (ch :: rest))).
    { intros k am' p Hk. destruct (IH _ _ _ Hk) as [Hr|Hr]; [now left|].
      right. apply (encAll_suffix [ch] rest). exact Hr. }
    assert (Hch : In c (enc ch) -> In c (encAll (ch :: rest))).
    { intros Hc. unfold encAll. cbn [flat_map]. apply in_or_app. now left. }
    cbn [regexp.replaceAll] in H. destruct skip as [|k]; [|now apply Hrec in H].
    destruct (regexp.matchHere re prev (ch :: rest)) as [[inp' cs]|] eqn:E.
    + pose proof (matchHere_caps _ _ _ _ _ E) as Hcs.
      destruct (length (ch :: rest) - length inp')%nat.
      * apply in_app_or in H. destruct H as [H|H].
        -- destruct am; [destruct H|]. eapply expand_origin; eassumption.
        -- apply in_app_or in H. destruct H as [H|H];
             [right; now apply Hch | now apply Hrec in H].
      * apply in_app_or in H. destruct H as [H|H];
          [eapply expand_origin; eassumption | now apply Hrec in H].
    + apply in_app_or in H. destruct H as [H|H];
        [right; now apply Hch | now apply Hrec in H].
Qed.

(** Every byte of the result of [ReplaceAllString] is a literal byte of
    the template or a byte of the source. *)
Lemma ReplaceAllString_origin (re : regexp.Regexp) (src repl : str)
  (c : ascii) :
  In c (regexp.ReplaceAllString re src repl) ->
  In c (regexp.expand re repl []) \/ In c src.
Proof.
  unfold regexp.ReplaceAllString. intros H.
  apply replaceAll_origin in H. now rewrite encAll_runes in H.
Qed.

Lemma applyFunctions_origin (order : list (str * str)) (c : ascii) :
  (forall kv, In kv order -> In kv mathFunctions) ->
  forall s, In c (applyFunctions order s) ->
       In c s \/ c = BSL \/ lowerByte c = true.
Proof.
  induction order as [|kv rest IH]; intros Hord s H; [now left|].
  unfold applyFunctions in H. cbn [fold_left] in H.
  apply IH in H; [|intros kv' Hk; apply Hord; now right].
  destruct H as [H|H]; [|now right].
  apply ReplaceAllString_origin in H. destruct H as [H|H]; [|now left].
  right. assert (Hkv : In kv mathFunctions) by (apply Hord; now left).
  clear - H Hkv. simpl in Hkv.
  repeat (destruct Hkv as [Hkv|Hkv];
          [subst kv; vm_compute in H;
           repeat (destruct H as [H|H];
                   [subst c; first [now left | right; reflexivity]|]);
           destruct H|]).
  destruct Hkv.
Qed.

(** ** Where the bytes of the output come from *)

Lemma subst_origin_used (k c : ascii) (new s : str) :
  In c (flat_map (subst1 k new) s) ->
  (In c s /\ c <> k) \/ (In k s /\ In c new).
Proof.
  intros Hin. apply in_flat_map in Hin. destruct Hin as (d & Hd & Hc).
  unfold subst1 in Hc. destruct (Ascii.eqb_spec k d) as [->|Hne].
  - right. now split.
  - destruct Hc as [<-|[]]. left. split; [assumption | congruence].
Qed.

Lemma replacement_bytes (kv : str * str) (c : ascii) :
  In kv specialCharsLiteral -> In c (snd kv) ->
  [c] = fst kv \/ markupByte c = true.
Proof.
  intros Hkv Hc. simpl in Hkv.
  repeat (destruct Hkv as [Hkv|Hkv];
          [subst kv; simpl in Hc;
           repeat (destruct Hc as [Hc|Hc];
                   [subst c; first [left; reflexivity | right; reflexivity]|]);
           destruct Hc|]).
  destruct Hkv.
Qed.

Lemma escapeWith_origin (order : list (str * str)) (c : ascii) :
  (forall kv, In kv order -> In kv specialCharsLiteral) ->
  forall s, In c (escapeWith order s) -> In c s \/ markupByte c = true.
Proof.
  induction order as [|kv rest IH]; intros Hord s H; [now left|].
  rewrite escapeWith_cons in H.
  assert (Hkv : In kv specialCharsLiteral) by (apply Hord; now left).
  destruct (table_entry kv Hkv) as (k & new & -> & _).
  cbn [fst snd] in H. rewrite ReplaceAll_single in H.
  apply IH in H; [|intros kv' Hk; apply Hord; now right].
  destruct H as [H|H]; [|now right].
  apply subst_origin_used in H. destruct H as [[H _]|[Hk Hc]]; [now left|].
  destruct (replacement_bytes _ c Hkv Hc) as [Heq|Hm]; [|now right].
  cbn [fst] in Heq. injection Heq as ->. now left.
Qed.

Lemma rewriteTailLive_origin (s : str) (c : ascii) :
  In c (rewriteTailLive s) -> In c s \/ markupByte c = true.
Proof.
  unfold rewriteTailLive. intros H.
  apply ReplaceAllString_origin in H. destruct H as [H|H].
  - right. vm_compute in H.
    repeat (destruct H as [H|H]; [subst c; reflexivity|]). destruct H.
  - apply ReplaceAllString_origin in H. destruct H as [H|H]; [|now left].
    right. vm_compute in H.
    repeat (destruct H as [H|H]; [subst c; reflexivity|]). destruct H.
Qed.

(** Without a circumflex in the text the exponent rule and the integral
    rule do nothing. *)
Lemma rewriteTail_dead (s : str) :
  ~ In "^"%char s -> rewriteTail s = rewriteTailLive s.
Proof.
  intros Hs. destruct rewrite_patterns_require as (_ & He & _ & _ & Hi & _).
  unfold rewriteTail, rewriteTailLive. cbv zeta.
  set (frac := regexp.ReplaceAllString (compiled (lit "(\d+)/(\d+)")) s
                                       (lit "\frac{$1}{$2}")).
  assert (Hf : ~ In "^"%char frac).
  { intros H. apply ReplaceAllString_origin in H. destruct H as [H|H];
      [|exact (Hs H)].
    vm_compute in H. repeat (destruct H as [H|H]; [discriminate H|]).
    exact H. }
  rewrite (ReplaceAllString_absent "^"%char _ frac);
    [|reflexivity | exact He | exact Hf].
  set (sq := regexp.ReplaceAllString (compiled (lit "sqrt\(([^)]+)\)")) frac
                                     (lit "\sqrt{$1}")).
  assert (Hq : ~ In "^"%char sq).
  { intros H. apply ReplaceAllString_origin in H. destruct H as [H|H];
      [|exact (Hf H)].
    vm_compute in H. repeat (destruct H as [H|H]; [discriminate H|]).
    exact H. }
  apply (ReplaceAllString_absent "^"%char); [reflexivity | exact Hi | exact Hq].
Qed.

(** *** Trimming and splitting keep to the bytes of the string *)

Lemma firstn_subset {A} (n : nat) (l : list A) : incl (firstn n l) l.
Proof.
  intros x H. rewrite <- (firstn_skipn n l). apply in_or_app. now left.
Qed.

Lemma trimLeftFrom_incl (f : Z -> bool) :
  forall s k, incl (strings.trimLeftFrom f k s) s.
Proof.
  induction s as [|c t IH]; intros k; [apply incl_refl|].
  cbn [strings.trimLeftFrom]. destruct k as [|k].
  - destruct (utf8.DecodeRuneInString (c :: t)) as [r w].
    destruct (f r); [|apply incl_refl].
    apply incl_tl, IH.
  - apply incl_tl, IH.
Qed.

Lemma TrimRightFunc_incl (s : str) (f : Z -> bool) :
  incl (strings.TrimRightFunc s f) s.
Proof.
  unfold strings.TrimRightFunc.
  destruct (strings.lastIndexFunc s f false) as [i|]; [|intros x []].
  destruct (skipn i s) as [|c rest]; [apply firstn_subset|].
  destruct (utf8.RuneSelf <=? byteval c); apply firstn_subset.
Qed.

Lemma asciiScan_incl (s : str) :
  match strings.asciiScan s with
  | strings.Stopped rest => incl rest s
  | strings.NonASCII rest => incl rest s
  end.
Proof.
  induction s as [|c t IH]; [apply incl_refl|].
  cbn [strings.asciiScan].
  destruct (utf8.RuneSelf <=? byteval c); [apply incl_refl|].
  destruct (strings.asciiSpace c); [|apply incl_refl].
  destruct (strings.asciiScan t); now apply incl_tl.
Qed.

Lemma TrimSpace_incl (s : str) : incl (strings.TrimSpace s) s.
Proof.
  unfold strings.TrimSpace. pose proof (asciiScan_incl s) as H1.
  destruct (strings.asciiScan s) as [rest|rest].
  - pose proof (asciiScan_incl (rev rest)) as H2.
    destruct (strings.asciiScan (rev rest)) as [rrest|rrest].
    + intros x Hx. apply H1. apply in_rev. apply H2. now apply in_rev in Hx.
    + intros x Hx. apply H1. apply in_rev. apply H2. apply in_rev.
      exact (TrimRightFunc_incl _ _ x Hx).
  - intros x Hx. apply H1. unfold strings.TrimFunc in Hx.
    apply TrimRightFunc_incl in Hx.
    exact (trimLeftFrom_incl _ _ _ x Hx).
Qed.

Lemma splitFrom_no_sep (sep : ascii) :
  forall s cur,
    ~ In sep cur ->
    Forall (fun l => ~ In sep l) (strings.splitFrom [sep] 0 cur s).
Proof.
  induction s as [|c t IH]; intros cur Hcur.
  - cbn [strings.splitFrom]. constructor; [|constructor].
    intros H. apply Hcur. now apply in_rev.
  - rewrite splitFrom_step. destruct (Ascii.eqb_spec sep c) as [->|Hne].
    + constructor; [|apply IH; intros []].
      intros H. apply Hcur. now apply in_rev.
    + apply IH. intros [H|H]; [congruence | exact (Hcur H)].
Qed.

Lemma Split_no_NL (text : str) :
  Forall (fun l => ~ In NL l) (strings.Split text [NL]).
Proof. rewrite Split_NL. apply splitFrom_no_sep. intros []. Qed.

Lemma Join_origin (ls : list str) (sep : str) (c : ascii) :
  In c (strings.Join ls sep) -> In c sep \/ exists l, In l ls /\ In c l.
Proof.
  induction ls as [|e rest IH]; intros H; [destruct H|].
  destruct rest as [|e' rest'].
  - right. exists e. split; [now left | assumption].
  - rewrite Join_cons in H by discriminate.
    apply in_app_or in H. destruct H as [H|H].
    + right. exists e. split; [now left | assumption].
    + apply in_app_or in H. destruct H as [H|H]; [now left|].
      destruct (IH H) as [Hs|(l & Hl & Hc)]; [now left|].
      right. exists l. split; [now right | assumption].
Qed.

Lemma splitFrom_incl (sep : ascii) :
  forall s cur,
    Forall (fun l => incl l (rev cur ++ s)) (strings.splitFrom [sep] 0 cur s).
Proof.
  induction s as [|c t IH]; intros cur.
  - cbn [strings.splitFrom]. constructor; [|constructor].
    rewrite app_nil_r. apply incl_refl.
  - rewrite splitFrom_step. destruct (Ascii.eqb sep c).
    + constructor; [apply incl_appl, incl_refl|].
      eapply Forall_impl; [|apply (IH [])].
      intros l Hl. cbn [rev app] in Hl.
      apply incl_appr, incl_tl. exact Hl.
    + eapply Forall_impl; [|apply (IH (c :: cur))].
      intros l Hl. cbn [rev] in Hl. now rewrite <- app_assoc in Hl.
Qed.

Lemma Split_incl (text l : str) :
  In l (strings.Split text [NL]) -> incl l text.
Proof.
  rewrite Split_NL. intros H.
  pose proof (splitFrom_incl NL text []) as Hall.
  rewrite Forall_forall in Hall. exact (Hall l H).
Qed.

Lemma Split_Join (ls : list str) :
  ls <> [] -> Forall (fun l => ~ In NL l) ls ->
  strings.Split (strings.Join ls [NL]) [NL] = ls.
Proof.
  induction ls as [|e rest IH]; intros Hne Hall; [contradiction|].
  inversion Hall as [|? ? He Hrest]; subst.
  destruct rest as [|e' rest'].
  - now apply Split_line.
  - rewrite Join_cons by discriminate. cbn [app].
    rewrite Split_app, (Split_line e He), IH by (discriminate || assumption).
    reflexivity.
Qed.

(** *** One line *)

Lemma convertLine_bytes (env : GoEnv) (line out : str) (n n' : nat) :
  convertLine env theConverter line n = Ok (Some out, n') ->
  (forall c, In c out -> In c line \/ markupByte c = true) /\
  ~ In "^"%char out /\ ~ In "~"%char out.
Proof.
  rewrite convertLine_eq. cbv zeta.
  destruct (isEmpty (strings.TrimSpace line)); [discriminate|].
  set (order := mapOrder env n _ specialCharsLiteral).
  set (e := escapeWith order (strings.TrimSpace line)).
  set (a := applyFunctions (mapOrder env (S n) _ mathFunctions) e).
  assert (Hp : Permutation order specialCharsLiteral) by apply mapOrder_perm.
  assert (He : forall c, In c e -> In c line \/ markupByte c = true).
  { intros c Hc. apply escapeWith_origin in Hc; [|now apply order_entries].
    destruct Hc as [Hc|Hc]; [left; now apply TrimSpace_incl | now right]. }
  assert (Hec : ~ In "^"%char e)
    by (apply escape_no_circumflex_tilde; [assumption | reflexivity]).
  assert (Het : ~ In "~"%char e)
    by (apply escape_no_circumflex_tilde; [assumption | reflexivity]).
  assert (Ha : forall c, In c a -> In c e \/ markupByte c = true).
  { intros c Hc. apply applyFunctions_origin in Hc; [|apply mapOrder_in].
    destruct Hc as [Hc|[->|Hc]]; [now left | now right |].
    right. unfold markupByte. rewrite Hc. apply orb_true_r. }
  assert (Hac : ~ In "^"%char a).
  { intros H. destruct (Ha _ H) as [H'|H']; [exact (Hec H') | discriminate H']. }
  assert (Hb : forall c, In c (rewriteTail a) -> In c a \/ markupByte c = true).
  { intros c Hc. rewrite (rewriteTail_dead a Hac) in Hc.
    now apply rewriteTailLive_origin. }
  assert (Hbody : forall c, In c (rewriteTail a) ->
                            In c e \/ markupByte c = true).
  { intros c Hc. destruct (Hb c Hc) as [H|H]; [now apply Ha | now right]. }
  destruct (isMathExpression env theConverter e) eqn:Em.
  - intros H. injection H as <- <-.
    assert (Hout : forall c, In c (lit "\[ " ++ rewriteTail a ++ lit " \]") ->
                             In c e \/ markupByte c = true).
    { intros c Hc. apply in_app_or in Hc. destruct Hc as [Hc|Hc].
      - right. simpl in Hc.
        repeat (destruct Hc as [Hc|Hc]; [subst c; reflexivity|]). destruct Hc.
      - apply in_app_or in Hc. destruct Hc as [Hc|Hc]; [now apply Hbody|].
        right. simpl in Hc.
        repeat (destruct Hc as [Hc|Hc]; [subst c; reflexivity|]). destruct Hc. }
    split; [|split].
    + intros c Hc. destruct (Hout c Hc) as [H|H]; [now apply He | now right].
    + intros H. destruct (Hout _ H) as [H'|H']; [exact (Hec H') | discriminate H'].
    + intros H. destruct (Hout _ H) as [H'|H']; [exact (Het H') | discriminate H'].
  - destruct (existsb _ inlinePatterns) eqn:Ei.
    { apply (inline_implies_math env) in Ei. congruence. }
    intros H. injection H as <- <-. repeat split; assumption.
Qed.

Lemma convertLines_bytes (env : GoEnv) (P : str -> Prop) :
  forall lines,
    (forall line out n n',
        In line lines ->
        convertLine env theConverter line n = Ok (Some out, n') -> P out) ->
    forall acc n latexLines n',
      Forall P acc ->
      convertLines env theConverter lines acc n = Ok (latexLines, n') ->
      Forall P latexLines.
Proof.
  induction lines as [|line rest IH]; intros Hstep acc n ls n' Hacc H.
  - cbn [convertLines] in H. unfold ret in H. injection H as <- <-. exact Hacc.
  - cbn [convertLines] in H. unfold bind in H.
    destruct (convertLine env theConverter line n) as [[out n1]|msg] eqn:E;
      [|discriminate].
    assert (Hrest : forall line' out' m m',
               In line' rest ->
               convertLine env theConverter line' m = Ok (Some out', m') ->
               P out')
      by (intros line' out' m m' Hin; apply Hstep; now right).
    destruct out as [s|].
    + refine (IH Hrest _ _ _ _ _ H). apply Forall_app. split; [exact Hacc|].
      constructor; [|constructor].
      exact (Hstep line s n n1 (or_introl eq_refl) E).
    + exact (IH Hrest _ _ _ _ Hacc H).
Qed.

(** ** Further properties of the engine *)

(** X1. Escaping works byte by byte: for one and the same visit of the
    table, the escaped form of a concatenation is the concatenation of the
    escaped forms. *)
Theorem escape_distributes_over_append :
  forall (env : GoEnv) (a b : str) (n : nat),
    exists ea eb,
      escapeSpecialChars env theConverter a n = Ok (ea, S n) /\
      escapeSpecialChars env theConverter b n = Ok (eb, S n) /\
      escapeSpecialChars env theConverter (a ++ b) n = Ok (ea ++ eb, S n).
Proof.
  intros env a b n. rewrite !escapeSpecialChars_eq.
  do 2 eexists. split; [reflexivity|]. split; [reflexivity|].
  now rewrite escapeWith_app by apply mapOrder_in.
Qed.

(** X2. Escaping changes a string exactly when the string has a special
    character, and then the result is strictly longer and has a
    backslash. *)
Theorem escape_changes_exactly_special_strings :
  forall (env : GoEnv) (s : str) (n : nat),
    exists e,
      escapeSpecialChars env theConverter s n = Ok (e, S n) /\
      if existsb specialByte s
      then (length s < length e)%nat /\ In BSL e
      else e = s.
Proof.
  intros env s n. rewrite escapeSpecialChars_eq. eexists. split; [reflexivity|].
  set (order := mapOrder env n _ specialCharsLiteral).
  assert (Hp : Permutation order specialCharsLiteral) by apply mapOrder_perm.
  destruct (existsb specialByte s) eqn:E.
  - apply existsb_exists in E. destruct E as (c & Hc & Hs).
    destruct (specialByte_entry c Hs) as (new & Hnew). split.
    + apply (escapeWith_length_strict order c new);
        [now apply order_entries | now apply order_has | assumption].
    + now apply (escape_has_backslash order s c).
  - apply escapeWith_id; [now apply order_entries|].
    intros c Hc. destruct (specialByte c) eqn:Ec; [|reflexivity].
    assert (existsb specialByte s = true)
      by (apply existsb_exists; now exists c).
    congruence.
Qed.

(** X3. In whatever order the table is visited, the escaped form of a
    string has no circumflex and no tilde. *)
Theorem escape_leaves_no_circumflex_or_tilde :
  forall (env : GoEnv) (s : str) (n : nat),
    exists e,
      escapeSpecialChars env theConverter s n = Ok (e, S n) /\
      existsb (oneOf (lit "^~")) e = false.
Proof.
  intros env s n. rewrite escapeSpecialChars_eq. eexists. split; [reflexivity|].
  destruct (existsb _ _) eqn:E; [|reflexivity].
  apply existsb_exists in E. destruct E as (c & Hc & Hk).
  exfalso. revert Hc. apply escape_no_circumflex_tilde;
    [apply mapOrder_perm | exact Hk].
Qed.

(** X4. Escaping is not idempotent: the escaped form of a string with a
    special character has a backslash, so escaping it once more, in any
    order, makes it strictly longer again. *)
Theorem escape_twice_differs :
  forall (env : GoEnv) (s : str) (n m : nat),
    existsb specialByte s = true ->
    exists e1 e2,
      escapeSpecialChars env theConverter s n = Ok (e1, S n) /\
      escapeSpecialChars env theConverter e1 m = Ok (e2, S m) /\
      (length e1 < length e2)%nat.
Proof.
  intros env s n m Hs. rewrite escapeSpecialChars_eq.
  eexists. eexists. split; [reflexivity|].
  rewrite escapeSpecialChars_eq. split; [reflexivity|].
  apply existsb_exists in Hs. destruct Hs as (c & Hc & Hsp).
  apply (escapeWith_length_strict _ BSL (lit "\textbackslash{}")).
  - apply mapOrder_in.
  - apply order_has; [apply mapOrder_perm | simpl; tauto].
  - apply (escape_has_backslash _ s c); [apply mapOrder_perm | assumption..].
Qed.

Lemma escape_twice_differs_witness :
  exists e1 e2,
    escapeSpecialChars reverseOrderEnv theConverter (lit "a_b") 0%nat
    = Ok (e1, 1%nat) /\
    escapeSpecialChars reverseOrderEnv theConverter e1 1%nat = Ok (e2, 2%nat) /\
    (length e1 < length e2)%nat.
Proof.
  apply (escape_twice_differs reverseOrderEnv (lit "a_b") 0%nat 1%nat).
  reflexivity.
Defined.

(** X5. A text with one of the bytes [= + - * / ^ ( ) [ ]] is a math
    expression, whatever else it holds (letters, invalid UTF-8) and whatever
    the digit table. *)
Theorem operator_byte_makes_math :
  forall (env : GoEnv) (text : str),
    existsb operatorByte text = true ->
    isMathExpression env theConverter text = true.
Proof.
  intros env text H. apply existsb_exists in H. destruct H as (c & Hc & Hop).
  now apply (operator_is_math env text c).
Qed.

Lemma operator_byte_makes_math_witness :
  isMathExpression literalOrderEnv theConverter
    (lit "the total is a+b, as said") = true.
Proof.
  apply (operator_byte_makes_math literalOrderEnv). reflexivity.
Defined.

(** X6. A text without an equals sign is not inline math: the three
    inline patterns compile and none of them matches. *)
Theorem no_equals_no_inline_math :
  forall (text : str) (n : nat),
    existsb (Ascii.eqb "="%char) text = false ->
    isInlineMath text n = Ok (false, n).
Proof.
  intros text n H. rewrite isInlineMath_eq.
  destruct (existsb _ inlinePatterns) eqn:E; [|reflexivity].
  apply inline_needs_equals_byte in E.
  assert (existsb (Ascii.eqb "="%char) text = true)
    by (apply existsb_exists; exists "="%char; split;
        [assumption | reflexivity]).
  congruence.
Qed.

Lemma no_equals_no_inline_math_witness :
  isInlineMath (lit "x^2 is positive") 0%nat = Ok (false, 0%nat).
Proof.
  apply (no_equals_no_inline_math (lit "x^2 is positive") 0%nat). reflexivity.
Defined.

(** X7. The math rewriter returns unchanged a text that has no lowercase
    ASCII letter, no slash and no circumflex: none of its rules can
    match. *)
Theorem rewriter_identity_without_triggers :
  forall (env : GoEnv) (text : str) (n : nat),
    existsb lowerByte text = false ->
    existsb (oneOf (lit "/^")) text = false ->
    processMathExpressions env text n = Ok (text, S n).
Proof.
  intros env text n Hlow Hop. rewrite processMathExpressions_eq.
  rewrite applyFunctions_no_lower by (apply mapOrder_in || exact Hlow).
  assert (Hno : forall c, oneOf (lit "/^") c = true \/ lowerByte c = true ->
                          ~ In c text).
  { intros c [Hc|Hc] Hin.
    - assert (existsb (oneOf (lit "/^")) text = true)
        by (apply existsb_exists; now exists c).
      congruence.
    - assert (existsb lowerByte text = true)
        by (apply existsb_exists; now exists c).
      congruence. }
  destruct rewrite_patterns_require as (Hf & He & Hq & _ & Hi & _).
  unfold rewriteTail. cbv zeta.
  rewrite (ReplaceAllString_absent "/"%char _ text);
    [|reflexivity | exact Hf | apply Hno; now left].
  rewrite (ReplaceAllString_absent "^"%char _ text);
    [|reflexivity | exact He | apply Hno; now left].
  rewrite (ReplaceAllString_absent "q"%char _ text);
    [|reflexivity | exact Hq | apply Hno; now right].
  rewrite (ReplaceAllString_absent "^"%char _ text);
    [|reflexivity | exact Hi | apply Hno; now left].
  reflexivity.
Qed.

Lemma rewriter_identity_without_triggers_witness :
  processMathExpressions reverseOrderEnv (lit "2 + 2 = 4 (QED)") 0%nat
  = Ok (lit "2 + 2 = 4 (QED)", 1%nat).
Proof.
  apply (rewriter_identity_without_triggers reverseOrderEnv
           (lit "2 + 2 = 4 (QED)") 0%nat); reflexivity.
Defined.

(** X8. Inside [ConvertToLatex] the exponent rule and the integral rule
    never apply: on an escaped line, in any order of the two map
    iterations, the rewriter does what it would do with the function-name,
    fraction and square-root rules alone. *)
Theorem exponent_and_integral_rules_dead_after_escaping :
  forall (env : GoEnv) (line : str) (n m : nat),
    exists escaped,
      escapeSpecialChars env theConverter line n = Ok (escaped, S n) /\
      processMathExpressions env escaped m
      = Ok (rewriteTailLive
              (applyFunctions (mapOrder env m _ mathFunctions) escaped), S m).
Proof.
  intros env line n m. rewrite escapeSpecialChars_eq.
  eexists. split; [reflexivity|].
  rewrite processMathExpressions_eq. f_equal. f_equal.
  apply rewriteTail_dead. intros H.
  apply applyFunctions_origin in H; [|apply mapOrder_in].
  destruct H as [H|[H|H]]; [|discriminate H|discriminate H].
  revert H. apply escape_no_circumflex_tilde;
    [apply mapOrder_perm | reflexivity].
Qed.

(** X9. The loop body has three outcomes only.  A line that trims to
    nothing is skipped without a map iteration; otherwise the line is
    emitted between the display-math delimiters, after two map iterations;
    or it is emitted as prose after one, and then it is the trimmed line
    itself, byte for byte, has no special character and is not a math
    expression. *)
Theorem line_is_dropped_wrapped_or_verbatim :
  forall (env : GoEnv) (line : str) (n : nat),
    (strings.TrimSpace line = [] /\
     convertLine env theConverter line n = Ok (None, n)) \/
    (strings.TrimSpace line <> [] /\
     exists body,
       convertLine env theConverter line n
       = Ok (Some (lit "\[ " ++ body ++ lit " \]"), S (S n))) \/
    (strings.TrimSpace line <> [] /\
     existsb specialByte (strings.TrimSpace line) = false /\
     isMathExpression env theConverter (strings.TrimSpace line) = false /\
     convertLine env theConverter line n
     = Ok (Some (strings.TrimSpace line), S n)).
Proof. intros env line n. apply convertLine_cases. Qed.

(** X10. The engine emits exactly one line for every input line that does
    not trim to nothing, none of the emitted lines is empty or holds a
    newline, and so splitting the output at the newlines gives the emitted
    lines back. *)
Theorem one_output_line_per_nonblank_line :
  forall (env : GoEnv) (text : str) (n : nat),
    exists latexLines n',
      convert env text n = Ok (strings.Join latexLines [NL], n') /\
      length latexLines
      = length (filter nonBlank (strings.Split text [NL])) /\
      forallb (fun s => negb (isEmpty s)) latexLines = true /\
      match latexLines with
      | [] => True
      | _ => strings.Split (strings.Join latexLines [NL]) [NL] = latexLines
      end.
Proof.
  intros env text n.
  destruct (convertLines_count env (strings.Split text [NL]) n)
    as (ls & n' & Hls & Hlen & Hne).
  exists ls, n'. split; [|split; [assumption|split; [assumption|]]].
  - rewrite convert_eq, ConvertToLatex_lines. unfold bind, ret.
    now rewrite Hls.
  - assert (Hnl : Forall (fun out => ~ In NL out) ls).
    { apply (convertLines_bytes env (fun out => ~ In NL out)
               (strings.Split text [NL])) with (acc := []) (n := n) (n' := n');
        [|constructor | exact Hls].
      intros line out m m' Hin Hc Hout.
      destruct (convertLine_bytes env line out m m' Hc) as (Horig & _).
      destruct (Horig NL Hout) as [H|H]; [|discriminate H].
      pose proof (Split_no_NL text) as Hall. rewrite Forall_forall in Hall.
      exact (Hall line Hin H). }
    destruct ls as [|l ls']; [exact I|].
    apply Split_Join; [discriminate | exact Hnl].
Qed.

(** X11. Converting two texts joined by a newline is converting the first,
    then the second from the state the first leaves, and joining the two
    outputs with a newline when neither is empty. *)
Theorem convert_composes_over_newline :
  forall (env : GoEnv) (a b : str) (n : nat),
    exists oa n1 ob n2,
      convert env a n = Ok (oa, n1) /\
      convert env b n1 = Ok (ob, n2) /\
      convert env (a ++ NL :: b) n = Ok (glue oa ob, n2).
Proof.
  intros env a b n.
  destruct (convertLines_count env (strings.Split a [NL]) n)
    as (la & n1 & Hla & _ & Hna).
  destruct (convertLines_count env (strings.Split b [NL]) n1)
    as (lb & n2 & Hlb & _ & Hnb).
  exists (strings.Join la [NL]), n1, (strings.Join lb [NL]), n2.
  rewrite !convert_eq, !ConvertToLatex_lines. unfold bind, ret.
  rewrite Hla, Hlb, Split_app, convertLines_app, Hla, Hlb.
  split; [reflexivity|]. split; [reflexivity|].
  now rewrite Join_glue.
Qed.

(** X12. The output of the engine never holds a circumflex or a tilde,
    whatever the input and the order of the map iterations. *)
Theorem output_has_no_circumflex_or_tilde :
  forall (env : GoEnv) (text : str) (n : nat),
    exists out n',
      convert env text n = Ok (out, n') /\
      existsb (oneOf (lit "^~")) out = false.
Proof.
  intros env text n.
  destruct (convertLines_total env (strings.Split text [NL]) [] n)
    as (ls & n' & Hls).
  exists (strings.Join ls [NL]), n'. split.
  - rewrite convert_eq, ConvertToLatex_lines. unfold bind, ret.
    now rewrite Hls.
  - assert (Hall : Forall (fun out => ~ In "^"%char out /\ ~ In "~"%char out) ls).
    { apply (convertLines_bytes env _ (strings.Split text [NL]))
        with (acc := []) (n := n) (n' := n'); [|constructor | exact Hls].
      intros line out m m' _ Hc.
      destruct (convertLine_bytes env line out m m' Hc) as (_ & H1 & H2).
      now split. }
    rewrite Forall_forall in Hall.
    destruct (existsb _ _) eqn:E; [|reflexivity].
    apply existsb_exists in E. destruct E as (c & Hc & Hk).
    apply Join_origin in Hc. destruct Hc as [Hc|(l & Hl & Hc)].
    + destruct Hc as [<-|[]]. discriminate Hk.
    + destruct (Hall l Hl) as [H1 H2]. apply oneOf_In in Hk.
      destruct Hk as [<-|[<-|[]]]; contradiction.
Qed.

(** X13. Every byte of the output is a byte of the input, a newline, or
    one of the bytes of the engine's own markup: backslash, square
    brackets, braces, space, lowercase ASCII letters.  No digit, uppercase
    letter, other punctuation or non-ASCII byte is ever made up. *)
Theorem output_bytes_come_from_input_or_markup :
  forall (env : GoEnv) (text : str) (n : nat),
    exists out n',
      convert env text n = Ok (out, n') /\
      forallb (fun c => existsb (Ascii.eqb c) text || markupByte c
                        || Ascii.eqb c NL) out = true.
Proof.
  intros env text n.
  destruct (convertLines_total env (strings.Split text [NL]) [] n)
    as (ls & n' & Hls).
  exists (strings.Join ls [NL]), n'. split.
  - rewrite convert_eq, ConvertToLatex_lines. unfold bind, ret.
    now rewrite Hls.
  - assert (Hall : Forall (fun out => forall c, In c out ->
                                      In c text \/ markupByte c = true) ls).
    { apply (convertLines_bytes env _ (strings.Split text [NL]))
        with (acc := []) (n := n) (n' := n'); [|constructor | exact Hls].
      intros line out m m' Hin Hc c Hout.
      destruct (convertLine_bytes env line out m m' Hc) as (Horig & _).
      destruct (Horig c Hout) as [H|H]; [left | now right].
      exact (Split_incl text line Hin c H). }
    rewrite Forall_forall in Hall.
    apply forallb_forall. intros c Hc.
    apply Join_origin in Hc. destruct Hc as [Hc|(l & Hl & Hc)].
    + destruct Hc as [<-|[]]. now rewrite Ascii.eqb_refl, orb_true_r.
    + destruct (Hall l Hl c Hc) as [H|H].
      * assert (He : existsb (Ascii.eqb c) text = true)
          by (apply existsb_exists; exists c; split;
              [assumption | apply Ascii.eqb_refl]).
        now rewrite He.
      * rewrite H. now rewrite orb_true_r.
Qed.

(** ** The function-name loop does not depend on the order *)

(** *** Marking words twice *)

Lemma markAcc_ext (f g : str -> nat) :
  (forall w, f w = g w) -> forall s cur, markAcc f cur s = markAcc g cur s.
Proof.
  intros Hfg. assert (Hfl : forall cur, flush f cur = flush g cur).
  { intros [|c cur]; [reflexivity|]. unfold flush. now rewrite Hfg. }
  induction s as [|c t IH]; intros cur; cbn [markAcc]; [apply Hfl|].
  destruct (isWordByte c); [apply IH|]. now rewrite Hfl, IH.
Qed.

Lemma markAcc_word_run (f : str -> nat) (w : str) :
  forallb isWordByte w = true ->
  forall cur s, markAcc f cur (w ++ s) = markAcc f (rev w ++ cur) s.
Proof.
  induction w as [|c t IH]; intros Hw cur s; [reflexivity|].
  cbn [forallb] in Hw. apply andb_prop in Hw. destruct Hw as [Hc Ht].
  cbn [app markAcc]. rewrite Hc, IH by exact Ht.
  cbn [rev]. now rewrite <- app_assoc.
Qed.

Lemma markAcc_backslashes (f : str -> nat) (k : nat) (s : str) :
  markAcc f [] (repeat BSL k ++ s) = repeat BSL k ++ markAcc f [] s.
Proof.
  induction k as [|k IH]; [reflexivity|].
  cbn [repeat app markAcc]. change (isWordByte BSL) with false. cbv iota.
  cbn [flush app]. now rewrite IH.
Qed.

Lemma markAcc_flush_then (f : str -> nat) (g : str -> nat) (cur : str) (s : str) :
  forallb isWordByte cur = true ->
  markAcc f [] (flush g cur ++ s)
  = repeat BSL (match cur with [] => 0 | _ => g (rev cur) end)
      ++ markAcc f cur s.
Proof.
  intros Hw. destruct cur as [|c cur']; [reflexivity|].
  unfold flush. rewrite <- app_assoc, markAcc_backslashes.
  rewrite markAcc_word_run.
  - now rewrite rev_involutive, app_nil_r.
  - rewrite forallb_forall in *. intros x Hx. apply Hw. now apply in_rev.
Qed.

(** Marking with [g] and then with [f] is marking with their sum. *)
Lemma markAcc_twice (f g : str -> nat) :
  forall s cur,
    forallb isWordByte cur = true ->
    markAcc f [] (markAcc g cur s) = markAcc (fun w => (g w + f w)%nat) cur s.
Proof.
  induction s as [|c t IH]; intros cur Hw.
  - cbn [markAcc]. rewrite <- (app_nil_r (flush g cur)).
    rewrite markAcc_flush_then by exact Hw.
    cbn [markAcc]. destruct cur as [|c cur']; [reflexivity|].
    unfold flush. now rewrite repeat_app, <- app_assoc.
  - cbn [markAcc]. destruct (isWordByte c) eqn:Ec.
    + apply IH. cbn [forallb]. now rewrite Ec, Hw.
    + rewrite markAcc_flush_then by exact Hw.
      cbn [markAcc]. rewrite Ec, IH by reflexivity.
      destruct cur as [|c' cur']; [reflexivity|].
      unfold flush. now rewrite repeat_app, <- !app_assoc.
Qed.

Lemma markAcc_zero (s : str) :
  forall cur, markAcc (fun _ => 0%nat) cur s = rev cur ++ s.
Proof.
  induction s as [|c t IH]; intros cur; cbn [markAcc].
  - rewrite app_nil_r. now destruct cur.
  - destruct (isWordByte c).
    + rewrite IH. cbn [rev]. now rewrite <- app_assoc.
    + rewrite IH. destruct cur; reflexivity.
Qed.

(** *** Matching a whole word *)

Lemma accepts_single (c : ascii) (r : Z) :
  regexp.accepts (regexp.CSet false [(byteval c, byteval c)]) r
  = (r =? byteval c).
Proof.
  unfold regexp.accepts, regexp.inRanges, inRange. cbn [existsb fst snd xorb].
  rewrite orb_false_r.
  destruct (r =? byteval c) eqn:E; lia.
Qed.

Lemma matchRe_chain (tail : regexp.regex) (k : regexp.cont) (cs : regexp.caps) :
  forall name prev inp,
    regexp.matchRe (chain name tail) k prev inp cs
    = match dropRunes name inp with
      | Some rest => regexp.matchRe tail k (prevAfter name prev) rest cs
      | None => None
      end.
Proof.
  induction name as [|c t IH]; intros prev inp; [reflexivity|].
  cbn [chain fold_right regexp.matchRe dropRunes prevAfter]. unfold single.
  cbn [regexp.matchRe]. destruct inp as [|ch rest]; [reflexivity|].
  rewrite accepts_single. destruct (rune ch =? byteval c) eqn:E; [|reflexivity].
  fold (chain t tail). rewrite IH. apply Z.eqb_eq in E. now rewrite E.
Qed.

Lemma isWordRune_high (r : Z) : 128 <= r -> regexp.isWordRune r = false.
Proof.
  intros H. unfold regexp.isWordRune, regexp.inRanges, regexp.wordRanges, inRange.
  cbn [existsb fst snd]. lia.
Qed.

Lemma isWordByte_lt (c : ascii) : isWordByte c = true -> byteval c < 128.
Proof.
  intros H. destruct (Z_lt_ge_dec (byteval c) 128) as [Hl|Hg]; [assumption|].
  unfold isWordByte in H. rewrite isWordRune_high in H by lia. discriminate H.
Qed.

Lemma prevAfter_word (name : str) :
  forallb isWordByte name = true ->
  forall prev,
    name <> [] \/ regexp.isWordOpt prev = true ->
    regexp.isWordOpt (prevAfter name prev) = true.
Proof.
  induction name as [|c t IH]; intros Hw prev Hne.
  - destruct Hne as [Hne|Hp]; [contradiction | exact Hp].
  - cbn [forallb] in Hw. apply andb_prop in Hw. destruct Hw as [Hc Ht].
    cbn [prevAfter]. apply IH; [exact Ht|]. right. exact Hc.
Qed.

Lemma dropRunes_split (name : str) :
  forall inp rest,
    dropRunes name inp = Some rest ->
    exists xs, inp = xs ++ rest /\ map rune xs = map byteval name.
Proof.
  induction name as [|c t IH]; intros inp rest H.
  - injection H as <-. now exists [].
  - cbn [dropRunes] in H. destruct inp as [|ch r]; [discriminate|].
    destruct (rune ch =? byteval c) eqn:E; [|discriminate].
    apply IH in H. destruct H as (xs & -> & Hxs).
    exists (ch :: xs). split; [reflexivity|].
    cbn [map]. apply Z.eqb_eq in E. now rewrite E, Hxs.
Qed.

Lemma dropRunes_exact (name : str) :
  forall xs rest,
    map rune xs = map byteval name -> dropRunes name (xs ++ rest) = Some rest.
Proof.
  induction name as [|c t IH]; intros xs rest H.
  - destruct xs; [reflexivity | discriminate H].
  - destruct xs as [|ch xs']; [discriminate H|].
    cbn [map] in H. injection H as Hc Ht.
    cbn [app dropRunes]. rewrite Hc, Z.eqb_refl. now apply IH.
Qed.

(** *** Words in a list of runes *)

Lemma runes_enc_nonempty (s : str) : Forall (fun ch => enc ch <> []) (runes s).
Proof.
  induction s as [|c t IH] using runes_ind; [constructor|].
  rewrite runes_cons. constructor; [|exact IH].
  cbn [enc]. destruct (decode_spec c t) as ((Hw & _) & _).
  destruct (snd (utf8.DecodeRuneInString (c :: t))); [lia | discriminate].
Qed.

Lemma runes_wfRunes (s : str) : wfRunes (runes s).
Proof.
  unfold wfRunes. pose proof (runes_wf s) as H1.
  pose proof (runes_enc_nonempty s) as H2.
  rewrite Forall_forall in *. intros ch Hch. split; [now apply H1 | now apply H2].
Qed.

Lemma wfRunes_app (a b : list rchar) :
  wfRunes (a ++ b) <-> wfRunes a /\ wfRunes b.
Proof. unfold wfRunes. apply Forall_app. Qed.

(** The maximal run of word runes at the head of the input. *)
Lemma word_span (l : list rchar) :
  exists w rest,
    l = w ++ rest /\
    forallb (fun ch => regexp.isWordRune (rune ch)) w = true /\
    atBoundary rest = true.
Proof.
  induction l as [|ch r IH].
  - now exists [], [].
  - destruct (regexp.isWordRune (rune ch)) eqn:E.
    + destruct IH as (w & rest & -> & Hw & Hb).
      exists (ch :: w), rest. repeat split; [|exact Hb].
      cbn [forallb]. now rewrite E, Hw.
    + exists [], (ch :: r). repeat split.
      unfold atBoundary. cbn [regexp.nextRune regexp.isWordOpt]. now rewrite E.
Qed.

Lemma span_unique (w xs rest rest0 : list rchar) :
  w ++ rest = xs ++ rest0 ->
  forallb (fun ch => regexp.isWordRune (rune ch)) w = true ->
  forallb (fun ch => regexp.isWordRune (rune ch)) xs = true ->
  atBoundary rest = true -> atBoundary rest0 = true ->
  xs = w /\ rest0 = rest.
Proof.
  revert xs. induction w as [|ch w' IH]; intros xs Heq Hw Hxs Hb Hb0.
  - destruct xs as [|x xs']; [now split|].
    cbn [app] in Heq. subst rest. cbn [forallb] in Hxs.
    apply andb_prop in Hxs. destruct Hxs as [Hx _].
    unfold atBoundary in Hb. cbn [regexp.nextRune regexp.isWordOpt] in Hb.
    rewrite Hx in Hb. discriminate Hb.
  - cbn [forallb] in Hw. apply andb_prop in Hw. destruct Hw as [Hc Hw'].
    destruct xs as [|x xs'].
    + cbn [app] in Heq. subst rest0.
      unfold atBoundary in Hb0. cbn [regexp.nextRune regexp.isWordOpt] in Hb0.
      rewrite Hc in Hb0. discriminate Hb0.
    + cbn [app] in Heq. injection Heq as <- Heq.
      cbn [forallb] in Hxs. apply andb_prop in Hxs. destruct Hxs as [_ Hxs'].
      destruct (IH xs' Heq Hw' Hxs' Hb Hb0) as [-> ->]. now split.
Qed.

(** The bytes of a run of word runes. *)
Lemma word_run_bytes (w : list rchar) :
  wfRunes w ->
  forallb (fun ch => regexp.isWordRune (rune ch)) w = true ->
  map byteval (encAll w) = map rune w /\ forallb isWordByte (encAll w) = true.
Proof.
  induction w as [|ch w' IH]; intros Hwf Hw; [now split|].
  inversion Hwf as [|? ? [[Hascii _] _] Hwf']; subst.
  cbn [forallb] in Hw. apply andb_prop in Hw. destruct Hw as [Hc Hw'].
  destruct (IH Hwf' Hw') as [IH1 IH2].
  assert (Hlt : rune ch < 128).
  { destruct (Z_lt_ge_dec (rune ch) 128) as [Hl|Hg]; [assumption|].
    rewrite isWordRune_high in Hc by lia. discriminate Hc. }
  destruct (Hascii Hlt) as (c & Henc & Hv).
  unfold encAll in *. cbn [flat_map]. rewrite Henc. cbn [app map forallb].
  rewrite IH1, IH2, Hv. split; [reflexivity|].
  unfold isWordByte. now rewrite Hv, Hc.
Qed.

Lemma nonword_rune_bytes (ch : rchar) :
  wfChar ch -> regexp.isWordRune (rune ch) = false ->
  forallb (fun c => negb (isWordByte c)) (enc ch) = true.
Proof.
  intros [Hascii Hhigh] Hc.
  destruct (Z_lt_ge_dec (rune ch) 128) as [Hl|Hg].
  - destruct (Hascii Hl) as (c & -> & Hv). cbn [forallb].
    unfold isWordByte. now rewrite Hv, Hc.
  - assert (H128 : 128 <= rune ch) by lia. specialize (Hhigh H128).
    apply forallb_forall. intros c Hin. rewrite Forall_forall in Hhigh.
    unfold isWordByte. rewrite isWordRune_high; [reflexivity|].
    now apply Hhigh.
Qed.

Lemma markAcc_nonword_bytes (f : str -> nat) (bs : str) :
  forallb (fun c => negb (isWordByte c)) bs = true ->
  forall s, markAcc f [] (bs ++ s) = bs ++ markAcc f [] s.
Proof.
  induction bs as [|c t IH]; intros Hb s; [reflexivity|].
  cbn [forallb] in Hb. apply andb_prop in Hb. destruct Hb as [Hc Ht].
  cbn [app markAcc]. apply negb_true_iff in Hc. rewrite Hc.
  cbn [flush app]. now rewrite IH.
Qed.

Lemma markAcc_at_boundary (f : str -> nat) (cur s : str) :
  match s with
  | [] => True
  | c :: _ => isWordByte c = false
  end ->
  markAcc f cur s = flush f cur ++ markAcc f [] s.
Proof.
  destruct s as [|c t]; intros H; cbn [markAcc].
  - now rewrite app_nil_r.
  - now rewrite H.
Qed.

Lemma map_byteval_inj (a b : str) : map byteval a = map byteval b -> a = b.
Proof.
  revert b. induction a as [|x a' IH]; intros [|y b'] H; try discriminate H;
    [reflexivity|].
  cbn [map] in H. injection H as Hx Hr.
  apply byteval_inj in Hx. subst y. f_equal. now apply IH.
Qed.

Lemma name_runes_are_words (name : str) (xs : list rchar) :
  forallb isWordByte name = true ->
  map rune xs = map byteval name ->
  forallb (fun ch => regexp.isWordRune (rune ch)) xs = true.
Proof.
  revert xs. induction name as [|c t IH]; intros [|x xs'] Hw H;
    try discriminate H; [reflexivity|].
  cbn [map] in H. injection H as Hx Hr.
  cbn [forallb] in Hw |- *. apply andb_prop in Hw. destruct Hw as [Hc Ht].
  rewrite Hx. unfold isWordByte in Hc. rewrite Hc. now apply IH.
Qed.

Lemma boundary_bytes (rest : list rchar) :
  wfRunes rest -> atBoundary rest = true ->
  match encAll rest with
  | [] => True
  | c :: _ => isWordByte c = false
  end.
Proof.
  intros Hwf Hb. destruct rest as [|ch r]; [exact I|].
  inversion Hwf as [|? ? [Hch Hne] _]; subst.
  unfold atBoundary in Hb. cbn [regexp.nextRune regexp.isWordOpt] in Hb.
  apply negb_true_iff in Hb.
  pose proof (nonword_rune_bytes ch Hch Hb) as Hall.
  unfold encAll. cbn [flat_map].
  destruct (enc ch) as [|c bs]; [contradiction|].
  cbn [app]. cbn [forallb] in Hall. apply andb_prop in Hall.
  destruct Hall as [Hc _]. now apply negb_true_iff in Hc.
Qed.

Section WordRule.

(** A compiled pattern [\bname\b] and its template, a backslash and the
    name. *)
Variable re : regexp.Regexp.
Variable name : str.
Hypothesis Htree : regexp.tree re = wordTree name.
Hypothesis Hname : name <> [].
Hypothesis Hword : forallb isWordByte name = true.
Hypothesis Hexpand : forall cs, regexp.expand re (BSL :: name) cs = BSL :: name.

Lemma matchHere_word (prev : option Z) (inp : list rchar) :
  regexp.matchHere re prev inp
  = if xorb (regexp.isWordOpt prev) (regexp.isWordOpt (regexp.nextRune inp))
    then
      match dropRunes name inp with
      | Some rest =>
        if atBoundary rest
        then Some (rest, [(0%nat, regexp.consumed inp rest)])
        else None
      | None => None
      end
    else None.
Proof.
  unfold regexp.matchHere. rewrite Htree. unfold wordTree.
  cbn [regexp.matchRe]. destruct (xorb _ _); [|reflexivity].
  rewrite matchRe_chain. destruct (dropRunes name inp) as [rest|]; [|reflexivity].
  cbn [regexp.matchRe].
  rewrite (prevAfter_word name Hword prev (or_introl Hname)).
  unfold atBoundary. now destruct (regexp.isWordOpt (regexp.nextRune rest)).
Qed.

Lemma matchHere_at_boundary (prev : option Z) (l : list rchar) :
  atBoundary l = true -> regexp.matchHere re prev l = None.
Proof.
  intros Hb. rewrite matchHere_word.
  destruct (xorb _ _); [|reflexivity].
  destruct name as [|c t]; [contradiction|].
  cbn [dropRunes]. destruct l as [|ch r]; [reflexivity|].
  destruct (rune ch =? byteval c) eqn:E; [|reflexivity].
  exfalso. unfold atBoundary in Hb. cbn [regexp.nextRune regexp.isWordOpt] in Hb.
  apply Z.eqb_eq in E. cbn [forallb] in Hword. apply andb_prop in Hword.
  destruct Hword as [Hc _]. unfold isWordByte in Hc.
  rewrite E, Hc in Hb. discriminate Hb.
Qed.

Lemma replaceAll_boundary_step (am : bool) (prev : option Z) (l : list rchar) :
  atBoundary l = true ->
  regexp.replaceAll re (BSL :: name) 0 am prev l
  = match l with
    | [] => []
    | ch :: r =>
      enc ch ++ regexp.replaceAll re (BSL :: name) 0 false (Some (rune ch)) r
    end.
Proof.
  intros Hb. destruct l as [|ch r]; cbn [regexp.replaceAll];
    now rewrite matchHere_at_boundary.
Qed.

Lemma replaceAll_inword :
  forall w rest am prev,
    regexp.isWordOpt prev = true ->
    forallb (fun ch => regexp.isWordRune (rune ch)) w = true ->
    exists am' prev',
      regexp.replaceAll re (BSL :: name) 0 am prev (w ++ rest)
      = encAll w ++ regexp.replaceAll re (BSL :: name) 0 am' prev' rest.
Proof.
  induction w as [|ch w' IH]; intros rest am prev Hp Hw.
  - now exists am, prev.
  - cbn [forallb] in Hw. apply andb_prop in Hw. destruct Hw as [Hc Hw'].
    cbn [app regexp.replaceAll]. rewrite matchHere_word.
    cbn [regexp.nextRune regexp.isWordOpt]. rewrite Hp, Hc. cbn [xorb].
    destruct (IH rest false (Some (rune ch)) Hc Hw') as (am' & prev' & ->).
    exists am', prev'. unfold encAll. cbn [flat_map]. now rewrite app_assoc.
Qed.

Lemma replaceAll_skip :
  forall xs rest prev,
    exists prev',
      regexp.replaceAll re (BSL :: name) (length xs) true prev (xs ++ rest)
      = regexp.replaceAll re (BSL :: name) 0 true prev' rest.
Proof.
  induction xs as [|x xs' IH]; intros rest prev.
  - now exists prev.
  - cbn [length app]. destruct (IH rest (Some (rune x))) as (prev' & H).
    exists prev'. rewrite <- H. reflexivity.
Qed.

Lemma replaceAll_marks :
  forall n l,
    (length l <= n)%nat -> wfRunes l ->
    forall am prev,
      regexp.isWordOpt prev = false \/ atBoundary l = true ->
      regexp.replaceAll re (BSL :: name) 0 am prev l
      = markAcc (isName name) [] (encAll l).
Proof.
  induction n as [|n IH]; intros l Hlen Hwf am prev Hpre.
  { destruct l; [|simpl in Hlen; lia]. cbn [regexp.replaceAll].
    now rewrite matchHere_at_boundary. }
  destruct l as [|ch r].
  { cbn [regexp.replaceAll]. now rewrite matchHere_at_boundary. }
  destruct (regexp.isWordRune (rune ch)) eqn:Ech.
  - (* a word begins here *)
    assert (Hp : regexp.isWordOpt prev = false).
    { destruct Hpre as [Hp|Hb]; [exact Hp|].
      unfold atBoundary in Hb. cbn [regexp.nextRune regexp.isWordOpt] in Hb.
      rewrite Ech in Hb. discriminate Hb. }
    destruct (word_span (ch :: r)) as (w & rest & Hl & Hw & Hb).
    destruct w as [|ch' w'].
    { cbn [app] in Hl. subst rest. unfold atBoundary in Hb.
      cbn [regexp.nextRune regexp.isWordOpt] in Hb. rewrite Ech in Hb.
      discriminate Hb. }
    cbn [app] in Hl. injection Hl as <- ->.
    change (ch :: w' ++ rest) with ((ch :: w') ++ rest) in Hwf.
    apply wfRunes_app in Hwf. destruct Hwf as [Hwfw Hwfr].
    destruct (word_run_bytes (ch :: w') Hwfw Hw) as [Hbytes Hwb].
    assert (Hrest : forall am' prev',
               regexp.replaceAll re (BSL :: name) 0 am' prev' rest
               = markAcc (isName name) [] (encAll rest)).
    { intros am' prev'. apply IH; [|exact Hwfr | now right].
      simpl in Hlen. rewrite length_app in Hlen. lia. }
    (* the right-hand side *)
    change (ch :: w' ++ rest) with ((ch :: w') ++ rest).
    rewrite encAll_app, markAcc_word_run by exact Hwb.
    rewrite app_nil_r, markAcc_at_boundary by (now apply boundary_bytes).
    assert (Hne : rev (encAll (ch :: w')) <> []).
    { intros H. apply (f_equal (@length ascii)) in H.
      rewrite length_rev in H.
      apply (f_equal (@length Z)) in Hbytes. rewrite !length_map in Hbytes.
      rewrite Hbytes in H. discriminate H. }
    unfold flush at 1. destruct (rev (encAll (ch :: w'))) as [|c0 cur0] eqn:Er;
      [contradiction|].
    rewrite <- Er, rev_involutive. clear Er c0 cur0 Hne.
    (* the left-hand side *)
    unfold isName at 1. destruct (str_eqb name (encAll (ch :: w'))) eqn:En.
    + cbn [app regexp.replaceAll]. rewrite matchHere_word.
      cbn [regexp.nextRune regexp.isWordOpt]. rewrite Hp, Ech. cbn [xorb].
      apply str_eqb_eq in En.
      assert (Hr : map rune (ch :: w') = map byteval name)
        by (now rewrite <- Hbytes, En).
      change (ch :: w' ++ rest) with ((ch :: w') ++ rest).
      rewrite (dropRunes_exact name (ch :: w') rest Hr), Hb.
      replace (length ((ch :: w') ++ rest) - length rest)%nat
        with (S (length w')) by (rewrite length_app; cbn [length]; lia).
      rewrite Hexpand.
      destruct (replaceAll_skip w' rest (Some (rune ch))) as (prev' & ->).
      rewrite Hrest, <- En. reflexivity.
    + assert (Hnone : regexp.matchHere re prev (ch :: w' ++ rest) = None).
      { rewrite matchHere_word.
        cbn [regexp.nextRune regexp.isWordOpt]. rewrite Hp, Ech. cbn [xorb].
        destruct (dropRunes name (ch :: w' ++ rest)) as [rest0|] eqn:Ed;
          [|reflexivity].
        destruct (atBoundary rest0) eqn:Eb0; [|reflexivity].
        exfalso. apply dropRunes_split in Ed. destruct Ed as (xs & Hxs & Hr).
        pose proof (name_runes_are_words name xs Hword Hr) as Hxw.
        change (ch :: w' ++ rest) with ((ch :: w') ++ rest) in Hxs.
        destruct (span_unique _ _ _ _ Hxs Hw Hxw Hb Eb0) as [-> _].
        rewrite <- Hbytes in Hr. apply map_byteval_inj in Hr.
        assert (str_eqb name (encAll (ch :: w')) = true)
          by (apply str_eqb_eq; now symmetry).
        congruence. }
      cbn [app regexp.replaceAll]. rewrite Hnone.
      destruct (replaceAll_inword w' rest false (Some (rune ch)) Ech)
        as (am' & prev' & ->).
      { cbn [forallb] in Hw. apply andb_prop in Hw. now destruct Hw. }
      rewrite Hrest. cbn [repeat app]. unfold encAll. cbn [flat_map].
      now rewrite <- app_assoc.
  - (* a rune that is not a word rune *)
    assert (Hb : atBoundary (ch :: r) = true).
    { unfold atBoundary. cbn [regexp.nextRune regexp.isWordOpt]. now rewrite Ech. }
    rewrite replaceAll_boundary_step by exact Hb.
    inversion Hwf as [|? ? [Hch _] Hwfr]; subst.
    rewrite (IH r); [|simpl in Hlen; lia | exact Hwfr |].
    + unfold encAll. cbn [flat_map].
      now rewrite markAcc_nonword_bytes by (now apply nonword_rune_bytes).
    + left. cbn [regexp.isWordOpt]. exact Ech.
Qed.

(** Replacing [\bname\b] by a backslash and the name puts a backslash
    before the maximal words that are the name. *)
Lemma ReplaceAllString_marks (s : str) :
  regexp.ReplaceAllString re s (BSL :: name) = markAcc (isName name) [] s.
Proof.
  unfold regexp.ReplaceAllString.
  rewrite (replaceAll_marks (length (runes s)) (runes s) (le_n _)
             (runes_wfRunes s) false None (or_introl eq_refl)).
  now rewrite encAll_runes.
Qed.

End WordRule.

(** *** The nine rules *)

Lemma expandFrom_plain (re : regexp.Regexp) (cs : regexp.caps) :
  forall tpl,
    existsb (Ascii.eqb "$"%char) tpl = false ->
    regexp.expandFrom re cs 0 tpl = tpl.
Proof.
  induction tpl as [|c t IH]; intros H; [reflexivity|].
  cbn [existsb] in H. apply orb_false_elim in H. destruct H as [Hc Ht].
  cbn [regexp.expandFrom].
  destruct (byteval c =? 36) eqn:E.
  - apply Z.eqb_eq in E. change 36 with (byteval "$"%char) in E.
    apply byteval_inj in E. subst c. discriminate Hc.
  - now rewrite IH.
Qed.

Lemma function_rule_shape (kv : str * str) :
  In kv mathFunctions ->
  regexp.tree (functionPattern (fst kv)) = wordTree (fst kv) /\
  fst kv <> [] /\
  forallb isWordByte (fst kv) = true /\
  snd kv = BSL :: fst kv.
Proof.
  intros H. simpl in H.
  repeat (destruct H as [H|H];
          [subst kv; split; [vm_compute; reflexivity|];
           split; [discriminate|]; split; reflexivity|]).
  destruct H.
Qed.

Lemma function_rule_marks (kv : str * str) (s : str) :
  In kv mathFunctions ->
  regexp.ReplaceAllString (functionPattern (fst kv)) s (snd kv)
  = markAcc (isName (fst kv)) [] s.
Proof.
  intros H. destruct (function_rule_shape kv H) as (Ht & Hne & Hw & Hs).
  rewrite Hs. apply ReplaceAllString_marks; try assumption.
  intros cs. unfold regexp.expand. apply expandFrom_plain.
  cbn [existsb]. change (Ascii.eqb "$" BSL) with false. cbn [orb].
  destruct (existsb (Ascii.eqb "$"%char) (fst kv)) eqn:E; [|reflexivity].
  apply existsb_exists in E. destruct E as (c & Hc & Heq).
  apply Ascii.eqb_eq in Heq. subst c.
  rewrite forallb_forall in Hw. specialize (Hw _ Hc). discriminate Hw.
Qed.

Lemma keyCount_cons (kv : str * str) (rest : list (str * str)) (w : str) :
  keyCount (kv :: rest) w = (isName (fst kv) w + keyCount rest w)%nat.
Proof.
  unfold keyCount, isName. cbn [filter].
  destruct (str_eqb (fst kv) w); reflexivity.
Qed.

Lemma applyFunctions_marks (order : list (str * str)) :
  (forall kv, In kv order -> In kv mathFunctions) ->
  forall s, applyFunctions order s = markAcc (keyCount order) [] s.
Proof.
  induction order as [|kv rest IH]; intros Hord s.
  - unfold applyFunctions, keyCount. cbn [fold_left filter length].
    now rewrite markAcc_zero.
  - unfold applyFunctions. cbn [fold_left]. fold (applyFunctions rest).
    rewrite function_rule_marks by (apply Hord; now left).
    rewrite IH by (intros kv' H; apply Hord; now right).
    rewrite markAcc_twice by reflexivity.
    apply markAcc_ext. intros w. now rewrite keyCount_cons.
Qed.

Lemma keyCount_perm (o1 o2 : list (str * str)) (w : str) :
  Permutation o1 o2 -> keyCount o1 w = keyCount o2 w.
Proof.
  intros H. unfold keyCount. apply Permutation_length.
  now apply Permutation_filter_compat.
Qed.

Lemma keyCount_functions (w : str) :
  keyCount mathFunctions w = if isFunctionName w then 1%nat else 0%nat.
Proof.
  unfold keyCount, isFunctionName.
  assert (H : forall rules,
             NoDup (map fst rules) ->
             length (filter (fun kv : str * str => str_eqb (fst kv) w) rules)
             = if existsb (fun kv => str_eqb (fst kv) w) rules
               then 1%nat else 0%nat).
  { induction rules as [|kv rest IH]; intros Hnd; [reflexivity|].
    cbn [map] in Hnd. inversion Hnd as [|? ? Hnotin Hnd']; subst.
    cbn [filter existsb]. destruct (str_eqb (fst kv) w) eqn:E.
    - cbn [orb length]. rewrite IH by exact Hnd'.
      destruct (existsb _ rest) eqn:Ex; [|reflexivity].
      exfalso. apply existsb_exists in Ex. destruct Ex as (kv' & Hin & Heq).
      apply str_eqb_eq in E. apply str_eqb_eq in Heq.
      apply Hnotin. rewrite E, <- Heq. now apply in_map.
    - cbn [orb]. now apply IH. }
  apply H. vm_compute.
  repeat (constructor; [simpl; intuition discriminate|]). constructor.
Qed.

Lemma applyFunctions_markWords (order : list (str * str)) (s : str) :
  Permutation order mathFunctions -> applyFunctions order s = markWords s.
Proof.
  intros Hp. rewrite applyFunctions_marks
    by (intros kv H; eapply Permutation_in; eassumption).
  unfold markWords. apply markAcc_ext. intros w.
  now rewrite (keyCount_perm order mathFunctions w Hp), keyCount_functions.
Qed.

(** ** The function-name loop, whatever the order of the map *)

(** X14. [processMathExpressions] ranges over the map [mathFunctions], but
    its result does not depend on the order of that iteration: on every
    text and with every iteration order, the nine function-name rules
    together put exactly one backslash before each maximal run of ASCII
    word bytes ([0-9A-Za-z_]) that is one of the nine names [sin], [cos],
    [tan], [log], [ln], [lim], [sum], [prod], [int], and change nothing
    else ([markWords]); the four other rewrites are then applied to that
    text.  A name inside a longer word ([sine], [x_sin], [sin2]) gets no
    backslash, and a name that already follows a backslash gets a second
    one. *)
Theorem function_names_marked_in_any_order :
  forall (env : GoEnv) (text : str) (n : nat),
    processMathExpressions env text n
    = Ok (rewriteTail (markWords text), S n).
Proof.
  intros env text n. rewrite processMathExpressions_eq.
  now rewrite applyFunctions_markWords by apply mapOrder_perm.
Qed.

(** * Whole lines: fractions and square roots *)

(** ** Text of ASCII bytes, rune by rune *)

Lemma runes_asc_app (a : str) (t : str) :
  forallb (fun c => byteval c <? 128) a = true ->
  runes (a ++ t) = map asc a ++ runes t.
Proof.
  induction a as [|c a' IH]; intros H; [reflexivity|].
  cbn [forallb] in H. apply andb_prop in H. destruct H as [Hc Ha].
  cbn [app map]. rewrite runes_ascii by exact Hc. now rewrite IH.
Qed.

Lemma runes_asc (a : str) :
  forallb (fun c => byteval c <? 128) a = true -> runes a = map asc a.
Proof.
  intros H. rewrite <- (app_nil_r a) at 1. rewrite runes_asc_app by exact H.
  change (runes []) with (@nil rchar). apply app_nil_r.
Qed.

Lemma encAll_asc (a : str) : encAll (map asc a) = a.
Proof.
  induction a as [|c a' IH]; [reflexivity|].
  unfold encAll in *. cbn [map flat_map asc enc app]. now rewrite IH.
Qed.

Lemma consumed_app (l1 l2 : list rchar) :
  regexp.consumed (l1 ++ l2) l2 = encAll l1.
Proof.
  unfold regexp.consumed. rewrite length_app.
  replace (length l1 + length l2 - length l2)%nat with (length l1) by lia.
  now rewrite firstn_app, Nat.sub_diag, firstn_all, app_nil_r.
Qed.

Lemma consumed_all (l : list rchar) : regexp.consumed l [] = encAll l.
Proof. rewrite <- (app_nil_r l) at 1. apply consumed_app. Qed.

(** ** A greedy repetition that succeeds at its longest run *)

Lemma starLoop_greedy (cl : regexp.cclass) (k : regexp.cont)
  (rest : list rchar) (cs : regexp.caps) (res : list rchar * regexp.caps) :
  notNext cl rest = true ->
  forall ds prev,
    forallb (fun ch => regexp.accepts cl (rune ch)) ds = true ->
    k (lastRune prev ds) rest cs = Some res ->
    regexp.starLoop cl k prev (ds ++ rest) cs = Some res.
Proof.
  intros Hrest. induction ds as [|ch ds' IH]; intros prev Hds Hk.
  - cbn [app lastRune] in *. destruct rest as [|ch r]; [exact Hk|].
    cbn [regexp.starLoop]. cbn [notNext] in Hrest.
    apply negb_true_iff in Hrest. now rewrite Hrest.
  - cbn [forallb] in Hds. apply andb_prop in Hds. destruct Hds as [Hc Hds'].
    cbn [app regexp.starLoop]. rewrite Hc.
    now rewrite (IH (Some (rune ch)) Hds' Hk).
Qed.

Lemma replaceAll_skip_all (re : regexp.Regexp) (repl : str) :
  forall l prev, regexp.replaceAll re repl (length l) true prev l = [].
Proof.
  induction l as [|ch r IH]; intros prev.
  - cbn [length regexp.replaceAll].
    destruct (regexp.matchHere re prev []) as [[? ?]|]; reflexivity.
  - cbn [length regexp.replaceAll]. apply IH.
Qed.

(** A match of the whole text, from its first rune, is the one
    replacement. *)
Lemma ReplaceAllString_whole (re : regexp.Regexp) (src repl : str)
  (cs : regexp.caps) :
  src <> [] ->
  regexp.matchHere re None (runes src) = Some ([], cs) ->
  regexp.ReplaceAllString re src repl = regexp.expand re repl cs.
Proof.
  intros Hne H. unfold regexp.ReplaceAllString.
  destruct (runes src) as [|ch r] eqn:E.
  - exfalso. apply Hne. rewrite <- (encAll_runes src), E. reflexivity.
  - cbn [regexp.replaceAll]. rewrite H.
    cbn [length]. rewrite Nat.sub_0_r.
    now rewrite replaceAll_skip_all, app_nil_r.
Qed.

Lemma digit_runes (a : str) :
  forallb digitByte a = true ->
  forallb (fun ch => regexp.accepts digits (rune ch)) (map asc a) = true.
Proof.
  induction a as [|c a' IH]; intros H; [reflexivity|].
  cbn [forallb] in H. apply andb_prop in H. destruct H as [Hc Ha].
  cbn [map forallb asc rune]. rewrite IH by exact Ha.
  unfold digits, regexp.accepts, regexp.inRanges. cbn [existsb fst snd xorb].
  unfold digitByte in Hc. now rewrite Hc.
Qed.

Lemma digit_ascii (a : str) :
  forallb digitByte a = true ->
  forallb (fun c => byteval c <? 128) a = true.
Proof.
  intros H. rewrite forallb_forall in *. intros c Hc. specialize (H c Hc).
  unfold digitByte, inRange in H. lia.
Qed.

Lemma fraction_match (a b : str) (prev : option Z) :
  a <> [] -> b <> [] ->
  forallb digitByte a = true -> forallb digitByte b = true ->
  regexp.matchHere (compiled (lit "(\d+)/(\d+)")) prev
                   (map asc a ++ asc "/" :: map asc b)
  = Some ([], [(0%nat, a ++ "/"%char :: b); (2%nat, b); (1%nat, a)]).
Proof.
  intros Ha Hb Hda Hdb.
  unfold regexp.matchHere.
  change (regexp.tree (compiled (lit "(\d+)/(\d+)")))
    with (regexp.Cat (regexp.Cap 1 (regexp.Plus digits))
            (regexp.Cat (regexp.Cls (regexp.CSet false [(47, 47)]))
               (regexp.Cap 2 (regexp.Plus digits)))).
  destruct a as [|a0 a']; [contradiction|].
  destruct b as [|b0 b']; [contradiction|].
  pose proof (digit_runes _ Hda) as Ra. pose proof (digit_runes _ Hdb) as Rb.
  cbn [map forallb] in Ra, Rb.
  apply andb_prop in Ra. destruct Ra as [Ra0 Ra'].
  apply andb_prop in Rb. destruct Rb as [Rb0 Rb'].
  cbn [regexp.matchRe map app]. rewrite Ra0.
  erewrite starLoop_greedy; [reflexivity | reflexivity | exact Ra' |].
  cbn [regexp.matchRe]. 
  change (regexp.accepts (regexp.CSet false [(47, 47)]) (rune (asc "/")))
    with true. cbv iota. rewrite Rb0.
  rewrite <- (app_nil_r (map asc b')).
  erewrite starLoop_greedy; [reflexivity | reflexivity | exact Rb' |].
  rewrite app_nil_r.
  rewrite (consumed_all (asc b0 :: map asc b')).
  change (asc a0 :: map asc a' ++ asc "/" :: asc b0 :: map asc b')
    with ((asc a0 :: map asc a') ++ asc "/" :: asc b0 :: map asc b').
  rewrite consumed_app.
  rewrite (consumed_all ((asc a0 :: map asc a') ++ _)).
  change (asc a0 :: map asc a') with (map asc (a0 :: a')).
  change (asc b0 :: map asc b') with (map asc (b0 :: b')).
  change (map asc (a0 :: a') ++ asc "/" :: map asc (b0 :: b'))
    with (map asc (a0 :: a') ++ map asc ("/"%char :: b0 :: b')).
  rewrite <- map_app. now rewrite !encAll_asc.
Qed.

Lemma fraction_expand (a b whole : str) :
  regexp.expand (compiled (lit "(\d+)/(\d+)")) (lit "\frac{$1}{$2}")
                [(0%nat, whole); (2%nat, b); (1%nat, a)]
  = lit "\frac{" ++ a ++ lit "}{" ++ b ++ lit "}".
Proof. reflexivity. Qed.

Lemma fraction_rule (a b : str) :
  a <> [] -> b <> [] ->
  forallb digitByte a = true -> forallb digitByte b = true ->
  regexp.ReplaceAllString (compiled (lit "(\d+)/(\d+)"))
                          (a ++ "/"%char :: b) (lit "\frac{$1}{$2}")
  = lit "\frac{" ++ a ++ lit "}{" ++ b ++ lit "}".
Proof.
  intros Ha Hb Hda Hdb.
  rewrite (ReplaceAllString_whole _ _ _
             [(0%nat, a ++ "/"%char :: b); (2%nat, b); (1%nat, a)]).
  - apply fraction_expand.
  - destruct a; [contradiction | discriminate].
  - rewrite runes_asc_app by now apply digit_ascii.
    rewrite runes_ascii by reflexivity.
    rewrite runes_asc by now apply digit_ascii.
    now apply fraction_match.
Qed.

(** ** A line that is one math expression *)

Lemma TrimSpace_tight (s : str) : tight s = true -> strings.TrimSpace s = s.
Proof.
  unfold tight. destruct s as [|c t]; [discriminate|].
  destruct (rev (c :: t)) as [|d u] eqn:E; [discriminate|].
  intros H. apply andb_prop in H. destruct H as [H Hd2].
  apply andb_prop in H. destruct H as [H Hd1].
  apply andb_prop in H. destruct H as [Hc1 Hc2].
  apply negb_true_iff in Hc2, Hd2.
  unfold strings.TrimSpace. cbn [strings.asciiScan]. unfold utf8.RuneSelf.
  replace (128 <=? byteval c) with false by lia. rewrite Hc2.
  rewrite E. cbn [strings.asciiScan]. unfold utf8.RuneSelf.
  replace (128 <=? byteval d) with false by lia. rewrite Hd2.
  rewrite <- E. apply rev_involutive.
Qed.

Lemma convert_math_line (env : GoEnv) (line : str) (n : nat) (c : ascii) :
  tight line = true ->
  ~ In NL line ->
  (forall b, In b line -> specialByte b = false) ->
  operatorByte c = true -> In c line ->
  convert env line n
  = Ok (lit "\[ " ++ rewriteTail (markWords line) ++ lit " \]", S (S n)).
Proof.
  intros Ht Hnl Hsp Hop Hin.
  rewrite convert_eq, ConvertToLatex_lines. unfold bind.
  rewrite Split_line by exact Hnl. cbn [convertLines]. unfold bind.
  rewrite convertLine_eq. cbv zeta. rewrite TrimSpace_tight by exact Ht.
  destruct line as [|c0 t]; [destruct Hin|]. cbn [isEmpty].
  rewrite escapeWith_id; [|apply mapOrder_in | exact Hsp].
  rewrite (operator_is_math env _ c Hop Hin).
  rewrite applyFunctions_markWords by apply mapOrder_perm.
  unfold ret. cbn [strings.Join]. reflexivity.
Qed.

Lemma markWords_no_lower (s : str) :
  existsb lowerByte s = false -> markWords s = s.
Proof.
  intros H. rewrite <- (applyFunctions_markWords mathFunctions s)
    by apply Permutation_refl.
  apply applyFunctions_no_lower; [auto | exact H].
Qed.

Lemma existsb_false_iff {A} (f : A -> bool) (l : list A) :
  existsb f l = false <-> forall x, In x l -> f x = false.
Proof.
  split.
  - intros H x Hx. destruct (f x) eqn:E; [|reflexivity].
    assert (existsb f l = true) by (apply existsb_exists; now exists x).
    congruence.
  - intros H. destruct (existsb f l) eqn:E; [|reflexivity].
    apply existsb_exists in E. destruct E as (x & Hx & Hf).
    rewrite (H x Hx) in Hf. discriminate Hf.
Qed.

Lemma digitByte_facts (c : ascii) :
  digitByte c = true ->
  (byteval c <? 128) = true /\ strings.asciiSpace c = false /\
  lowerByte c = false /\ specialByte c = false /\ c <> NL /\
  c <> "^"%char /\ c <> "q"%char.
Proof.
  intros H. unfold digitByte, inRange in H.
  assert (Hr : 48 <= byteval c <= 57) by lia.
  assert (Hne : forall d, (byteval d <? 48) || (57 <? byteval d) = true -> c <> d).
  { intros d Hd ->. lia. }
  repeat split; try (apply Hne; reflexivity).
  - lia.
  - unfold strings.asciiSpace. cbv zeta. lia.
  - unfold lowerByte, inRange. lia.
  - unfold specialByte. apply existsb_false_iff. intros kv Hkv.
    simpl in Hkv.
    repeat (destruct Hkv as [Hkv|Hkv];
            [subst kv; cbn [fst]; destruct (str_eqb _ _) eqn:E; [|reflexivity];
             apply str_eqb_eq in E; injection E as E; symmetry in E;
             exfalso; revert E; apply Hne; reflexivity|]).
    destruct Hkv.
Qed.

(** X15. A line that is a fraction of two non-empty strings of ASCII digits,
    [a/b], is converted to the display-math line [\[ \frac{a}{b} \]],
    whatever the order of the map iterations: nothing is escaped, the slash
    makes the line math, the function-name rules and the other rewrites
    leave the fraction alone. *)
Theorem digit_fraction_converted :
  forall (env : GoEnv) (a b : str) (n : nat),
    a <> [] -> b <> [] ->
    forallb digitByte a = true -> forallb digitByte b = true ->
    convert env (a ++ lit "/" ++ b) n
    = Ok (lit "\[ \frac{" ++ a ++ lit "}{" ++ b ++ lit "} \]", S (S n)).
Proof.
  intros env a b n Ha Hb Hda Hdb.
  change (a ++ lit "/" ++ b) with (a ++ "/"%char :: b).
  assert (Hall : forall c, In c (a ++ "/"%char :: b) ->
                           digitByte c = true \/ c = "/"%char).
  { intros c Hc. apply in_app_or in Hc. rewrite forallb_forall in Hda, Hdb.
    destruct Hc as [Hc|[Hc|Hc]]; [left; now apply Hda | now right |
                                  left; now apply Hdb]. }
  rewrite (convert_math_line env _ n "/"%char).
  - rewrite markWords_no_lower.
    + unfold rewriteTail. cbv zeta.
      rewrite fraction_rule by assumption.
      assert (Hno : forall c, c = "^"%char \/ c = "q"%char ->
                    ~ In c (lit "\frac{" ++ a ++ lit "}{" ++ b ++ lit "}")).
      { intros c Hc Hin. rewrite forallb_forall in Hda, Hdb.
        apply in_app_or in Hin. destruct Hin as [Hin|Hin].
        { simpl in Hin. destruct Hc as [-> | ->]; intuition discriminate. }
        apply in_app_or in Hin. destruct Hin as [Hin|Hin].
        { destruct (digitByte_facts c (Hda c Hin)) as (_&_&_&_&_&H1&H2).
          destruct Hc; contradiction. }
        apply in_app_or in Hin. destruct Hin as [Hin|Hin].
        { simpl in Hin. destruct Hc as [-> | ->]; intuition discriminate. }
        apply in_app_or in Hin. destruct Hin as [Hin|Hin].
        { destruct (digitByte_facts c (Hdb c Hin)) as (_&_&_&_&_&H1&H2).
          destruct Hc; contradiction. }
        simpl in Hin. destruct Hc as [-> | ->]; intuition discriminate. }
      destruct rewrite_patterns_require as (_ & He & Hq & _ & Hi & _).
      set (F := lit "\frac{" ++ a ++ lit "}{" ++ b ++ lit "}") in *.
      rewrite (ReplaceAllString_absent "^"%char _ F);
        [|reflexivity | exact He | apply Hno; now left].
      rewrite (ReplaceAllString_absent "q"%char _ F);
        [|reflexivity | exact Hq | apply Hno; now right].
      rewrite (ReplaceAllString_absent "^"%char _ F);
        [|reflexivity | exact Hi | apply Hno; now left].
      unfold F. now rewrite <- !app_assoc.
    + apply existsb_false_iff. intros c Hc.
      destruct (Hall c Hc) as [Hd| ->]; [|reflexivity].
      now destruct (digitByte_facts c Hd) as (_&_&H&_).
  - unfold tight. destruct a as [|a0 a']; [contradiction|].
    cbn [app].
    change (a0 :: a' ++ "/"%char :: b) with ((a0 :: a') ++ "/"%char :: b).
    rewrite rev_app_distr. cbn [rev]. rewrite <- app_assoc.
    destruct (rev b) as [|d u] eqn:E.
    { exfalso. apply Hb. rewrite <- (rev_involutive b), E. reflexivity. }
    cbn [app].
    assert (Hd : digitByte d = true).
    { rewrite forallb_forall in Hdb. apply Hdb. apply in_rev. rewrite E.
      now left. }
    cbn [forallb] in Hda. apply andb_prop in Hda. destruct Hda as [Ha0 _].
    destruct (digitByte_facts a0 Ha0) as (H1 & H2 & _).
    destruct (digitByte_facts d Hd) as (H3 & H4 & _).
    now rewrite H1, H2, H3, H4.
  - intros Hin. destruct (Hall NL Hin) as [Hd|Hd]; [|discriminate Hd].
    discriminate Hd.
  - intros c Hc. destruct (Hall c Hc) as [Hd| ->]; [|reflexivity].
    now destruct (digitByte_facts c Hd) as (_&_&_&H&_).
  - reflexivity.
  - apply in_or_app. right. now left.
Qed.

Lemma digit_fraction_converted_witness :
  convert reverseOrderEnv (lit "22/7") 0%nat
  = Ok (lit "\[ \frac{22}{7} \]", 2%nat).
Proof.
  apply (digit_fraction_converted reverseOrderEnv (lit "22") (lit "7") 0%nat);
    (discriminate || reflexivity).
Defined.

(** ** Marked text, byte by byte *)

Lemma flush_origin (f : str -> nat) (cur : str) (c : ascii) :
  In c (flush f cur) -> c = BSL \/ In c cur.
Proof.
  destruct cur as [|x cur']; [intros []|].
  unfold flush. intros H. apply in_app_or in H. destruct H as [H|H].
  - left. now apply repeat_spec in H.
  - right. now apply in_rev.
Qed.

Lemma markAcc_origin (f : str -> nat) (c : ascii) :
  forall s cur, In c (markAcc f cur s) -> c = BSL \/ In c cur \/ In c s.
Proof.
  induction s as [|x t IH]; intros cur H; cbn [markAcc] in H.
  - apply flush_origin in H. tauto.
  - destruct (isWordByte x).
    + apply IH in H. simpl in *. tauto.
    + apply in_app_or in H. destruct H as [H|[H|H]].
      * apply flush_origin in H. tauto.
      * right. right. now left.
      * apply IH in H. simpl in *. tauto.
Qed.

Lemma flush_length (f : str -> nat) (cur : str) :
  (length cur <= length (flush f cur))%nat.
Proof.
  destruct cur as [|x cur']; [apply Nat.le_refl|].
  unfold flush. rewrite length_app, length_rev. lia.
Qed.

Lemma markAcc_length (f : str -> nat) :
  forall s cur, (length cur + length s <= length (markAcc f cur s))%nat.
Proof.
  induction s as [|x t IH]; intros cur; cbn [markAcc length].
  - pose proof (flush_length f cur). lia.
  - destruct (isWordByte x).
    + specialize (IH (x :: cur)). cbn [length] in IH. lia.
    + rewrite length_app. cbn [length].
      pose proof (flush_length f cur). specialize (IH []).
      cbn [length] in IH. lia.
Qed.

Lemma markAcc_snoc (f : str -> nat) (c : ascii) :
  isWordByte c = false ->
  forall s cur, markAcc f cur (s ++ [c]) = markAcc f cur s ++ [c].
Proof.
  intros Hc. induction s as [|x t IH]; intros cur; cbn [app markAcc].
  - rewrite Hc. reflexivity.
  - destruct (isWordByte x); [apply IH|].
    rewrite IH. now rewrite <- app_assoc.
Qed.

(** ** The square-root rule on one call *)

Lemma sqrt_match (m : str) (prev : option Z) :
  m <> [] ->
  forallb (fun c => byteval c <? 128) m = true ->
  ~ In ")"%char m ->
  regexp.matchHere (compiled (lit "sqrt\(([^)]+)\)")) prev
                   (map asc (lit "sqrt(") ++ map asc m ++ [asc ")"])
  = Some ([], [(0%nat, lit "sqrt(" ++ m ++ lit ")"); (1%nat, m)]).
Proof.
  intros Hm Hascii Hno.
  unfold regexp.matchHere.
  change (regexp.tree (compiled (lit "sqrt\(([^)]+)\)")))
    with (chain (lit "sqrt(")
            (regexp.Cat (regexp.Cap 1 (regexp.Plus notParen))
                        (single ")"))).
  rewrite matchRe_chain, dropRunes_exact by reflexivity.
  assert (Hacc : forallb (fun ch => regexp.accepts notParen (rune ch))
                         (map asc m) = true).
  { apply forallb_forall. intros ch Hch. apply in_map_iff in Hch.
    destruct Hch as (c & <- & Hc). cbn [asc rune].
    unfold notParen, regexp.accepts, regexp.inRanges, inRange.
    cbn [existsb fst snd xorb]. rewrite orb_false_r.
    destruct ((41 <=? byteval c) && (byteval c <=? 41)) eqn:E; [|reflexivity].
    exfalso. apply Hno. replace ")"%char with c; [exact Hc|].
    apply byteval_inj. change (byteval ")") with 41. lia. }
  destruct m as [|m0 m']; [contradiction|].
  cbn [map forallb] in Hacc. apply andb_prop in Hacc.
  destruct Hacc as [H0 H'].
  cbn [regexp.matchRe map app]. rewrite H0.
  erewrite starLoop_greedy; [reflexivity | reflexivity | exact H' |].
  unfold single. cbn [regexp.matchRe].
  rewrite accepts_single. change (rune (asc ")") =? byteval ")") with true.
  cbv iota.
  change (asc m0 :: map asc m' ++ [asc ")"])
    with ((asc m0 :: map asc m') ++ [asc ")"]).
  rewrite consumed_app.
  change (asc m0 :: map asc m') with (map asc (m0 :: m')).
  rewrite encAll_asc. rewrite consumed_all.
  change [asc ")"] with (map asc (lit ")")).
  rewrite <- !map_app. now rewrite encAll_asc.
Qed.

Lemma sqrt_expand (m whole : str) :
  regexp.expand (compiled (lit "sqrt\(([^)]+)\)")) (lit "\sqrt{$1}")
                [(0%nat, whole); (1%nat, m)]
  = lit "\sqrt{" ++ m ++ lit "}".
Proof. reflexivity. Qed.

Lemma sqrt_rule (m : str) :
  m <> [] ->
  forallb (fun c => byteval c <? 128) m = true ->
  ~ In ")"%char m ->
  regexp.ReplaceAllString (compiled (lit "sqrt\(([^)]+)\)"))
                          (lit "sqrt(" ++ m ++ lit ")") (lit "\sqrt{$1}")
  = lit "\sqrt{" ++ m ++ lit "}".
Proof.
  intros Hm Hascii Hno.
  rewrite (ReplaceAllString_whole _ _ _
             [(0%nat, lit "sqrt(" ++ m ++ lit ")"); (1%nat, m)]).
  - apply sqrt_expand.
  - discriminate.
  - rewrite runes_asc_app by reflexivity.
    rewrite runes_asc_app by exact Hascii.
    rewrite runes_asc by reflexivity.
    now apply sqrt_match.
Qed.

Lemma rootByte_facts (c : ascii) :
  rootByte c = true ->
  (byteval c <? 128) = true /\ specialByte c = false /\
  c <> NL /\ c <> ")"%char /\ c <> "/"%char /\ c <> "^"%char /\ c <> BSL.
Proof.
  unfold rootByte. intros H.
  apply andb_prop in H. destruct H as [H H3].
  apply andb_prop in H. destruct H as [H1 H2].
  apply negb_true_iff in H2, H3.
  repeat split; try assumption; intros ->; discriminate.
Qed.

(** X16. A line [sqrt(d)], where [d] is a non-empty string of ASCII bytes
    with none of the ten special characters and no newline, closing
    parenthesis or slash, is converted to the display-math line
    [\[ \sqrt{d'} \]], where [d'] is [d] with a backslash before each of
    its words that is a function name ([markWords]); the word [sqrt] itself
    gets no backslash from the function-name rules. *)
Theorem sqrt_call_converted :
  forall (env : GoEnv) (d : str) (n : nat),
    d <> [] ->
    forallb rootByte d = true ->
    convert env (lit "sqrt(" ++ d ++ lit ")") n
    = Ok (lit "\[ \sqrt{" ++ markWords d ++ lit "} \]", S (S n)).
Proof.
  intros env d n Hd Hroot. rewrite forallb_forall in Hroot.
  assert (Hin : forall c, In c (lit "sqrt(" ++ d ++ lit ")") ->
                          In c (lit "sqrt()") \/ rootByte c = true).
  { intros c Hc. apply in_app_or in Hc. destruct Hc as [Hc|Hc].
    - left. simpl in *. tauto.
    - apply in_app_or in Hc. destruct Hc as [Hc|Hc].
      + right. now apply Hroot.
      + left. simpl in *. tauto. }
  rewrite (convert_math_line env _ n "("%char).
  - assert (Hmark : markWords (lit "sqrt(" ++ d ++ lit ")")
                    = lit "sqrt(" ++ markWords d ++ lit ")").
    { unfold markWords.
      change (lit "sqrt(" ++ d ++ lit ")")
        with (lit "sqrt" ++ "("%char :: d ++ lit ")").
      rewrite markAcc_word_run by reflexivity.
      cbn [markAcc]. change (isWordByte "(") with false. cbv iota.
      change (lit ")") with [")"%char].
      rewrite markAcc_snoc by reflexivity. reflexivity. }
    rewrite Hmark. set (m := markWords d).
    assert (Hm : forall c, In c m -> c = BSL \/ rootByte c = true).
    { intros c Hc. apply markAcc_origin in Hc.
      destruct Hc as [Hc|[[]|Hc]]; [now left | right; now apply Hroot]. }
    assert (Hmne : m <> []).
    { intros E. pose proof (markAcc_length
                              (fun w => if isFunctionName w then 1%nat else 0%nat)
                              d []) as Hl.
      fold (markWords d) in Hl. fold m in Hl. rewrite E in Hl.
      destruct d; [contradiction | cbn [length] in Hl; lia]. }
    assert (Hno : forall c, c = "/"%char \/ c = "^"%char \/ c = ")"%char ->
                            ~ In c m).
    { intros c Hc Hcm. destruct (Hm c Hcm) as [->|Hr].
      - destruct Hc as [Hc|[Hc|Hc]]; discriminate Hc.
      - destruct (rootByte_facts c Hr) as (_&_&_&H1&H2&H3&_).
        destruct Hc as [Hc|[Hc|Hc]]; contradiction. }
    assert (Hno' : forall c, c = "/"%char \/ c = "^"%char ->
                   forall pre post, 
                     (forall x, In x pre -> In x (lit "sqrt(){}\")) ->
                     (forall x, In x post -> In x (lit "sqrt(){}\")) ->
                     ~ In c (pre ++ m ++ post)).
    { intros c Hc pre post Hpre Hpost H.
      apply in_app_or in H. destruct H as [H|H].
      - apply Hpre in H. simpl in H. destruct Hc as [-> | ->];
          intuition discriminate.
      - apply in_app_or in H. destruct H as [H|H].
        + revert H. apply Hno. tauto.
        + apply Hpost in H. simpl in H. destruct Hc as [-> | ->];
            intuition discriminate. }
    destruct rewrite_patterns_require as (Hf & He & _ & _ & Hi & _).
    unfold rewriteTail. cbv zeta.
    rewrite (ReplaceAllString_absent "/"%char _ (lit "sqrt(" ++ m ++ lit ")"));
      [|reflexivity | exact Hf |].
    2:{ apply Hno'; [now left | |];
        intros x Hx; simpl in *; tauto. }
    rewrite (ReplaceAllString_absent "^"%char _ (lit "sqrt(" ++ m ++ lit ")"));
      [|reflexivity | exact He |].
    2:{ apply Hno'; [now right | |];
        intros x Hx; simpl in *; tauto. }
    rewrite sqrt_rule.
    + rewrite (ReplaceAllString_absent "^"%char _ (lit "\sqrt{" ++ m ++ lit "}"));
        [|reflexivity | exact Hi |].
      2:{ apply Hno'; [now right | |];
          intros x Hx; simpl in *; tauto. }
      now rewrite <- !app_assoc.
    + exact Hmne.
    + apply forallb_forall. intros c Hc. destruct (Hm c Hc) as [->|Hr];
        [reflexivity|]. now destruct (rootByte_facts c Hr) as (H&_).
    + apply Hno. tauto.
  - unfold tight. simpl. rewrite rev_app_distr. reflexivity.
  - intros H. destruct (Hin _ H) as [H'|H'].
    + simpl in H'. intuition discriminate.
    + now destruct (rootByte_facts _ H') as (_&_&H1&_).
  - intros c Hc. destruct (Hin _ Hc) as [H'|H'].
    + simpl in H'.
      repeat (destruct H' as [H'|H']; [subst c; reflexivity|]). destruct H'.
    + now destruct (rootByte_facts _ H') as (_&H1&_).
  - reflexivity.
  - simpl. tauto.
Qed.

Lemma sqrt_call_converted_witness :
  convert reverseOrderEnv (lit "sqrt(1 - sin x * sin x)") 0%nat
  = Ok (lit "\[ \sqrt{1 - \sin x * \sin x} \]", 2%nat).
Proof.
  apply (sqrt_call_converted reverseOrderEnv (lit "1 - sin x * sin x") 0%nat);
    (discriminate || reflexivity).
Defined.

(** * Whole lines: prose *)


Lemma clsWithin_accepts (allowed : list (Z * Z)) (cl : regexp.cclass) (r : Z) :
  clsWithin allowed cl = true -> regexp.accepts cl r = true ->
  regexp.inRanges allowed r = true.
Proof.
  destruct cl as [neg rs|]; [|discriminate].
  destruct neg; [discriminate|].
  cbn [clsWithin regexp.accepts xorb]. intros Hw Ha.
  unfold regexp.inRanges in *. apply existsb_exists in Ha.
  destruct Ha as (p & Hp & Hr). rewrite forallb_forall in Hw.
  specialize (Hw p Hp). unfold within in Hw. apply existsb_exists in Hw.
  destruct Hw as (q & Hq & Hpq). apply existsb_exists. exists q.
  split; [exact Hq|]. unfold inRange in *. lia.
Qed.

Lemma matchRe_reads (allowed : list (Z * Z)) (r : regexp.regex) :
  forall k prev inp cs res,
    regexp.matchRe r k prev inp cs = Some res ->
    exists prev' pre inp' cs',
      inp = pre ++ inp' /\ k prev' inp' cs' = Some res /\
      (requiresIn allowed r = true ->
       exists ch, In ch pre /\ regexp.inRanges allowed (rune ch) = true).
Proof.
  induction r as [|cl|cl|cl|r1 IH1 r2 IH2|r1 IH1 r2 IH2|i r1 IH1| | |];
    intros k prev inp cs res H; simpl in H.
  - exists prev, [], inp, cs. repeat split; [assumption | discriminate].
  - destruct inp as [|ch rest]; [discriminate|].
    destruct (regexp.accepts cl (rune ch)) eqn:Ha; [|discriminate].
    exists (Some (rune ch)), [ch], rest, cs. repeat split; [assumption|].
    simpl. intros Hc. exists ch. split; [now left|].
    eapply clsWithin_accepts; eassumption.
  - apply starLoop_sound in H. destruct H as (p' & pre & inp' & -> & Hk).
    exists p', pre, inp', cs. repeat split; [assumption | discriminate].
  - destruct inp as [|ch rest]; [discriminate|].
    destruct (regexp.accepts cl (rune ch)) eqn:Ha; [|discriminate].
    apply starLoop_sound in H. destruct H as (p' & pre & inp' & -> & Hk).
    exists p', (ch :: pre), inp', cs. repeat split; [assumption|].
    simpl. intros Hc. exists ch. split; [now left|].
    eapply clsWithin_accepts; eassumption.
  - apply IH1 in H. destruct H as (p1 & pre1 & inp1 & cs1 & -> & H & Hr1).
    apply IH2 in H. destruct H as (p2 & pre2 & inp2 & cs2 & -> & H & Hr2).
    exists p2, (pre1 ++ pre2), inp2, cs2.
    split; [now rewrite app_assoc|]. split; [assumption|].
    simpl. intros Hc. apply orb_prop in Hc. destruct Hc as [Hc|Hc].
    + destruct (Hr1 Hc) as (ch & Hin & Hch). exists ch. split; [|assumption].
      apply in_or_app. now left.
    + destruct (Hr2 Hc) as (ch & Hin & Hch). exists ch. split; [|assumption].
      apply in_or_app. now right.
  - destruct (regexp.matchRe r1 k prev inp cs) eqn:E.
    + injection H as ->. apply IH1 in E.
      destruct E as (p1 & pre1 & inp1 & cs1 & -> & Hk & Hr1).
      exists p1, pre1, inp1, cs1. repeat split; [assumption|].
      simpl. intros Hc. apply andb_prop in Hc. now apply Hr1.
    + apply IH2 in H. destruct H as (p2 & pre2 & inp2 & cs2 & -> & Hk & Hr2).
      exists p2, pre2, inp2, cs2. repeat split; [assumption|].
      simpl. intros Hc. apply andb_prop in Hc. now apply Hr2.
  - apply IH1 in H. destruct H as (p1 & pre1 & inp1 & cs1 & Heq & Hk & Hr1).
    eexists p1, pre1, inp1, _. split; [exact Heq|]. split; [exact Hk|].
    exact Hr1.
  - destruct (xorb _ _); [|discriminate].
    exists prev, [], inp, cs. repeat split; [assumption | discriminate].
  - destruct prev; [discriminate|].
    exists None, [], inp, cs. repeat split; [assumption | discriminate].
  - destruct inp; [|discriminate].
    exists prev, [], [], cs. repeat split; [assumption | discriminate].
Qed.

Lemma searchFrom_reads (allowed : list (Z * Z)) (re : regexp.Regexp) :
  requiresIn allowed (regexp.tree re) = true ->
  forall inp prev,
    regexp.searchFrom re prev inp = true ->
    exists ch, In ch inp /\ regexp.inRanges allowed (rune ch) = true.
Proof.
  intros Hc.
  assert (Hhere : forall prev inp res,
             regexp.matchHere re prev inp = Some res ->
             exists ch, In ch inp /\ regexp.inRanges allowed (rune ch) = true).
  { intros prev inp res H. unfold regexp.matchHere in H.
    apply (matchRe_reads allowed) in H.
    destruct H as (p' & pre & inp' & cs' & -> & _ & Hr).
    destruct (Hr Hc) as (ch & Hin & Hch). exists ch. split; [|assumption].
    apply in_or_app. now left. }
  induction inp as [|ch rest IH]; intros prev H.
  - simpl in H. destruct (regexp.matchHere re prev []) eqn:E; [|discriminate].
    eapply Hhere; eassumption.
  - cbn [regexp.searchFrom] in H.
    destruct (regexp.matchHere re prev (ch :: rest)) eqn:E.
    + eapply Hhere; eassumption.
    + apply IH in H. destruct H as (ch' & Hin & Hch).
      exists ch'. split; [now right | assumption].
Qed.


(** ** The pattern of the function names *)

Lemma matchRe_litTree (k : regexp.cont) (cs : regexp.caps) :
  forall name prev inp,
    name <> [] ->
    regexp.matchRe (litTree name) k prev inp cs
    = match dropRunes name inp with
      | Some rest => k (prevAfter name prev) rest cs
      | None => None
      end.
Proof.
  induction name as [|c t IH]; intros prev inp Hne; [contradiction|].
  destruct t as [|c' t'].
  - cbn [litTree dropRunes prevAfter]. unfold single. cbn [regexp.matchRe].
    destruct inp as [|ch rest]; [reflexivity|].
    rewrite accepts_single. destruct (rune ch =? byteval c) eqn:E;
      [|reflexivity].
    apply Z.eqb_eq in E. now rewrite E.
  - change (litTree (c :: c' :: t'))
      with (regexp.Cat (single c) (litTree (c' :: t'))).
    cbn [regexp.matchRe]. unfold single at 1. cbn [regexp.matchRe].
    cbn [dropRunes prevAfter]. destruct inp as [|ch rest]; [reflexivity|].
    rewrite accepts_single. destruct (rune ch =? byteval c) eqn:E;
      [|reflexivity].
    rewrite IH by discriminate. apply Z.eqb_eq in E. now rewrite E.
Qed.

Lemma matchRe_altOf_none (k : regexp.cont) (prev : option Z)
  (inp : list rchar) (cs : regexp.caps) :
  forall names : list str,
    names <> [] ->
    (forall name, In name names ->
       name <> [] /\
       match dropRunes name inp with
       | Some rest => k (prevAfter name prev) rest cs = None
       | None => True
       end) ->
    regexp.matchRe (altOf (map litTree names)) k prev inp cs = None.
Proof.
  induction names as [|name rest IH]; intros Hne H; [contradiction|].
  assert (Hhead : regexp.matchRe (litTree name) k prev inp cs = None).
  { destruct (H name (or_introl eq_refl)) as [Hn Hd].
    rewrite matchRe_litTree by exact Hn.
    destruct (dropRunes name inp); [exact Hd | reflexivity]. }
  destruct rest as [|name' rest'].
  - exact Hhead.
  - change (altOf (map litTree (name :: name' :: rest')))
      with (regexp.Alt (litTree name) (altOf (map litTree (name' :: rest')))).
    cbn [regexp.matchRe]. rewrite Hhead.
    apply IH; [discriminate|]. intros n Hn. apply H. now right.
Qed.

Lemma functionNames_words (name : str) :
  In name functionNames ->
  name <> [] /\ forallb isWordByte name = true /\ isFunctionName name = true.
Proof.
  intros H. simpl in H.
  repeat (destruct H as [H|H];
          [subst name; split; [discriminate|]; split; reflexivity|]).
  destruct H.
Qed.

Lemma matchHere_functionWords_none (re : regexp.Regexp) (prev : option Z)
  (inp : list rchar) :
  regexp.tree re = functionWords ->
  (xorb (regexp.isWordOpt prev) (regexp.isWordOpt (regexp.nextRune inp)) = true ->
   forall name, In name functionNames ->
     match dropRunes name inp with
     | Some rest => atBoundary rest = false
     | None => True
     end) ->
  regexp.matchHere re prev inp = None.
Proof.
  intros Htree H. unfold regexp.matchHere. rewrite Htree.
  unfold functionWords. cbn [regexp.matchRe].
  destruct (xorb _ _); [|reflexivity]. specialize (H eq_refl).
  apply matchRe_altOf_none; [discriminate|].
  intros name Hin. destruct (functionNames_words name Hin) as (Hne & Hw & _).
  split; [exact Hne|]. specialize (H name Hin).
  destruct (dropRunes name inp) as [rest|]; [|exact I].
  cbn [regexp.matchRe].
  rewrite (prevAfter_word name Hw prev (or_introl Hne)).
  unfold atBoundary in H. apply negb_false_iff in H. now rewrite H.
Qed.

(** *** Words of a text of ASCII bytes *)

Lemma wordsAcc_word_run (w : str) :
  forallb isWordByte w = true ->
  forall cur s, wordsAcc cur (w ++ s) = wordsAcc (rev w ++ cur) s.
Proof.
  induction w as [|c t IH]; intros Hw cur s; [reflexivity|].
  cbn [forallb] in Hw. apply andb_prop in Hw. destruct Hw as [Hc Ht].
  cbn [app wordsAcc]. rewrite Hc, IH by exact Ht.
  cbn [rev]. now rewrite <- app_assoc.
Qed.

Lemma wordsAcc_at_boundary (cur s : str) :
  atBoundary (map asc s) = true ->
  wordsAcc cur s = flushWord cur ++ wordsAcc [] s.
Proof.
  destruct s as [|c t]; intros H; cbn [wordsAcc].
  - now rewrite app_nil_r.
  - unfold atBoundary in H. cbn [map regexp.nextRune regexp.isWordOpt asc rune] in H.
    apply negb_true_iff in H. unfold isWordByte. now rewrite H.
Qed.

Lemma dropRunes_asc (name : str) :
  forall s rest,
    dropRunes name (map asc s) = Some rest ->
    exists t, s = name ++ t /\ rest = map asc t.
Proof.
  induction name as [|c n IH]; intros s rest H.
  - injection H as <-. now exists s.
  - destruct s as [|x s']; [discriminate H|].
    cbn [map dropRunes asc rune] in H.
    destruct (byteval x =? byteval c) eqn:E; [|discriminate H].
    apply Z.eqb_eq, byteval_inj in E. subst x.
    apply IH in H. destruct H as (t & -> & ->). now exists t.
Qed.

Lemma search_functionWords (re : regexp.Regexp) :
  regexp.tree re = functionWords ->
  forall s cur prev,
    regexp.isWordOpt prev = negb (isEmpty cur) ->
    existsb isFunctionName (wordsAcc cur s) = false ->
    regexp.searchFrom re prev (map asc s) = false.
Proof.
  intros Htree. induction s as [|c t IH]; intros cur prev Hprev Hw.
  - cbn [map regexp.searchFrom].
    rewrite matchHere_functionWords_none; [reflexivity | exact Htree |].
    intros _ name Hin. destruct (functionNames_words name Hin) as (Hne & _).
    destruct name; [contradiction | exact I].
  - cbn [map regexp.searchFrom].
    rewrite matchHere_functionWords_none; [| exact Htree |].
    + cbn [wordsAcc] in Hw. destruct (isWordByte c) eqn:Ec.
      * apply (IH (c :: cur)); [|exact Hw].
        cbn [asc rune regexp.isWordOpt isEmpty negb]. exact Ec.
      * apply (IH []).
        -- cbn [asc rune regexp.isWordOpt isEmpty negb]. exact Ec.
        -- rewrite existsb_app in Hw. now apply orb_false_elim in Hw.
    + intros Hx name Hin.
      destruct (functionNames_words name Hin) as (Hne & Hword & Hfn).
      destruct (dropRunes name (asc c :: map asc t)) as [rest|] eqn:E;
        [|exact I].
      destruct (atBoundary rest) eqn:Eb; [|reflexivity]. exfalso.
      change (asc c :: map asc t) with (map asc (c :: t)) in E.
      apply dropRunes_asc in E. destruct E as (t' & Hs & ->).
      (* the name begins with [c], a word byte, so no word is being read *)
      destruct name as [|n0 name']; [contradiction|].
      cbn [app] in Hs. injection Hs as <- Ht.
      cbn [forallb] in Hword. apply andb_prop in Hword.
      destruct Hword as [Hc Hword'].
      cbn [regexp.nextRune asc rune regexp.isWordOpt] in Hx.
      pose proof Hc as Hc'. unfold isWordByte in Hc. rewrite Hc, Hprev in Hx.
      destruct cur as [|x cur']; [|discriminate Hx].
      change (c :: t) with ([c] ++ t) in Hw. subst t.
      change ([c] ++ name' ++ t') with ((c :: name') ++ t') in Hw.
      rewrite wordsAcc_word_run in Hw
        by (cbn [forallb]; now rewrite Hc', Hword').
      rewrite wordsAcc_at_boundary in Hw by exact Eb.
      rewrite existsb_app in Hw. apply orb_false_elim in Hw.
      destruct Hw as [Hw _]. rewrite app_nil_r in Hw. unfold flushWord in Hw.
      destruct (rev (c :: name')) as [|y r] eqn:Er.
      { apply Hne. rewrite <- (rev_involutive (c :: name')), Er. reflexivity. }
      rewrite <- Er, rev_involutive in Hw. cbn [existsb] in Hw.
      rewrite Hfn in Hw. discriminate Hw.
Qed.


(** ** Prose *)

Lemma ratioAbove_zero (totalChars : Z) : ratioAbove 0 totalChars = false.
Proof.
  unfold ratioAbove. rewrite FloatAxioms.ltb_spec, FloatAxioms.div_spec.
  change (FloatOps.Prim2SF (float64 0)) with (SpecFloat.S754_zero false).
  destruct (FloatOps.Prim2SF (float64 totalChars)) as [s|s| |s m e];
    reflexivity.
Qed.

Lemma proseByte_facts (c : ascii) :
  proseByte c = true ->
  (byteval c <? 128) = true /\
  specialByte c = false /\
  regexp.inRanges triggers (byteval c) = false /\
  (forall env m t, fst (countRune env (m, t) (asc c)) = m).
Proof.
  destruct c as [b0 b1 b2 b3 b4 b5 b6 b7].
  destruct b0, b1, b2, b3, b4, b5, b6, b7; intros H; vm_compute in H;
    try discriminate H;
    (split; [reflexivity|]; split; [reflexivity|]; split; [reflexivity|];
     intros env m t; reflexivity).
Qed.

Lemma math_patterns_shape (re : regexp.Regexp) :
  In re (mathPatterns theConverter) ->
  requiresIn triggers (regexp.tree re) = true \/
  regexp.tree re = functionWords.
Proof.
  intros H. vm_compute in H.
  repeat (destruct H as [H|H];
          [subst re;
           ((left; vm_compute; reflexivity) || (right; vm_compute; reflexivity))|]).
  destruct H.
Qed.

Lemma count_prose (env : GoEnv) (s : str) :
  forallb proseByte s = true ->
  forall m t, fst (fold_left (countRune env) (map asc s) (m, t)) = m.
Proof.
  induction s as [|c s' IH]; intros H m t; [reflexivity|].
  cbn [forallb] in H. apply andb_prop in H. destruct H as [Hc Hs].
  cbn [map fold_left].
  destruct (proseByte_facts c Hc) as (_ & _ & _ & Hcount).
  specialize (Hcount env m t).
  destruct (countRune env (m, t) (asc c)) as [m' t'].
  cbn [fst] in Hcount. subst m'. now apply IH.
Qed.

Lemma not_In_Contains (s : str) (c : ascii) :
  ~ In c s -> strings.Contains s [c] = false.
Proof.
  induction s as [|d t IH]; intros Hn; [reflexivity|].
  cbn [strings.Contains strings.HasPrefix].
  destruct (Ascii.eqb_spec c d) as [->|Hne].
  - exfalso. apply Hn. now left.
  - cbn [andb orb]. apply IH. intros H. apply Hn. now right.
Qed.

Lemma prose_not_math (env : GoEnv) (s : str) :
  forallb proseByte s = true ->
  existsb isFunctionName (words s) = false ->
  isMathExpression env theConverter s = false.
Proof.
  intros Hp Hw.
  assert (Hfacts : forall c, In c s -> proseByte c = true)
    by (now apply forallb_forall).
  assert (Hascii : forallb (fun c => byteval c <? 128) s = true).
  { apply forallb_forall. intros c Hc.
    now destruct (proseByte_facts c (Hfacts c Hc)) as (H & _). }
  unfold isMathExpression. change (lit "\") with [BSL].
  rewrite not_In_Contains.
  2:{ intros Hin. specialize (Hfacts _ Hin). discriminate Hfacts. }
  rewrite runes_asc by exact Hascii.
  pose proof (count_prose env s Hp 0 0) as Hcount.
  destruct (fold_left (countRune env) (map asc s) (0, 0)) as [m t].
  cbn [fst] in Hcount. subst m. rewrite ratioAbove_zero, andb_false_r.
  apply existsb_false_iff. intros re Hre.
  unfold regexp.MatchString. rewrite runes_asc by exact Hascii.
  destruct (math_patterns_shape re Hre) as [Hreq|Htree].
  - destruct (regexp.searchFrom re None (map asc s)) eqn:E; [|reflexivity].
    destruct (searchFrom_reads triggers re Hreq _ _ E) as (ch & Hch & Hr).
    apply in_map_iff in Hch. destruct Hch as (c & <- & Hc).
    destruct (proseByte_facts c (Hfacts c Hc)) as (_ & _ & Hn & _).
    cbn [asc rune] in Hr. congruence.
  - now apply (search_functionWords re Htree s [] None).
Qed.

Lemma prose_line (env : GoEnv) (line : str) (n : nat) :
  tight line = true ->
  forallb proseByte line = true ->
  convert env line n
  = if isMathExpression env theConverter line
    then Ok (lit "\[ " ++ rewriteTail (markWords line) ++ lit " \]", S (S n))
    else Ok (line, S n).
Proof.
  intros Ht Hp.
  assert (Hfacts : forall c, In c line -> proseByte c = true)
    by (now apply forallb_forall).
  rewrite convert_eq, ConvertToLatex_lines. unfold bind.
  rewrite Split_line.
  2:{ intros Hin. specialize (Hfacts _ Hin). discriminate Hfacts. }
  cbn [convertLines]. unfold bind.
  rewrite convertLine_eq. cbv zeta. rewrite TrimSpace_tight by exact Ht.
  destruct line as [|c0 t]; [discriminate Ht|]. cbn [isEmpty].
  rewrite escapeWith_id; [|apply mapOrder_in |].
  2:{ intros c Hc. now destruct (proseByte_facts c (Hfacts c Hc)) as (_ & H & _). }
  rewrite applyFunctions_markWords by apply mapOrder_perm.
  destruct (isMathExpression env theConverter (c0 :: t)); [reflexivity|].
  destruct (existsb _ inlinePatterns) eqn:E.
  - apply inline_needs_equals_byte in E. specialize (Hfacts _ E).
    discriminate Hfacts.
  - reflexivity.
Qed.

(** X17. A line of plain prose is emitted as it is, with one map iteration
    (that of the escaping) and whatever the order of the maps: a line that
    begins and ends with an ASCII byte that is not white space, made of
    ASCII bytes that are no digit, no newline, none of [=+-*/^()[]{}<>|]
    and none of the special characters, and in which no maximal run of
    letters is one of the nine function names, is neither display math nor
    inline math. *)
Theorem prose_line_is_kept :
  forall (env : GoEnv) (line : str) (n : nat),
    tight line = true ->
    forallb proseByte line = true ->
    existsb isFunctionName (words line) = false ->
    convert env line n = Ok (line, S n).
Proof.
  intros env line n Ht Hp Hw. rewrite prose_line by assumption.
  now rewrite prose_not_math.
Qed.

Lemma prose_line_is_kept_witness :
  convert reverseOrderEnv (lit "Let x be the sine of the angle.") 0%nat
  = Ok (lit "Let x be the sine of the angle.", 1%nat).
Proof.
  apply (prose_line_is_kept reverseOrderEnv
           (lit "Let x be the sine of the angle.") 0%nat); reflexivity.
Defined.


(** ** Prose with the name of a function *)

Lemma matchRe_altOf_some (k : regexp.cont) (prev : option Z)
  (inp rest : list rchar) (cs : regexp.caps) (res : list rchar * regexp.caps) :
  forall names : list str,
    (forall name, In name names -> name <> []) ->
    forall name,
      In name names ->
      dropRunes name inp = Some rest ->
      k (prevAfter name prev) rest cs = Some res ->
      exists res',
        regexp.matchRe (altOf (map litTree names)) k prev inp cs = Some res'.
Proof.
  induction names as [|n0 ns IH]; intros Hne name Hin Hd Hk; [destruct Hin|].
  assert (Hhead : name = n0 ->
                  regexp.matchRe (litTree n0) k prev inp cs = Some res).
  { intros <-. rewrite matchRe_litTree by (apply Hne; now left).
    now rewrite Hd. }
  destruct ns as [|n1 ns'].
  - destruct Hin as [Hin|[]]. exists res. cbn [map altOf]. now apply Hhead.
  - change (altOf (map litTree (n0 :: n1 :: ns')))
      with (regexp.Alt (litTree n0) (altOf (map litTree (n1 :: ns')))).
    cbn [regexp.matchRe].
    destruct (regexp.matchRe (litTree n0) k prev inp cs) as [r|] eqn:E.
    + now exists r.
    + destruct Hin as [Hin|Hin].
      * specialize (Hhead (eq_sym Hin)). congruence.
      * apply (IH (fun x Hx => Hne x (or_intror Hx)) name Hin Hd Hk).
Qed.

Lemma matchHere_functionWords_some (re : regexp.Regexp) (prev : option Z)
  (w rest : str) :
  regexp.tree re = functionWords ->
  regexp.isWordOpt prev = false ->
  In w functionNames ->
  atBoundary (map asc rest) = true ->
  exists res, regexp.matchHere re prev (map asc (w ++ rest)) = Some res.
Proof.
  intros Htree Hprev Hin Hb.
  destruct (functionNames_words w Hin) as (Hne & Hword & _).
  unfold regexp.matchHere. rewrite Htree. unfold functionWords.
  cbn [regexp.matchRe]. rewrite Hprev.
  destruct w as [|c w']; [contradiction|].
  pose proof Hword as Hword0.
  cbn [forallb] in Hword0. apply andb_prop in Hword0. destruct Hword0 as [Hc _].
  cbn [app map regexp.nextRune regexp.isWordOpt asc rune xorb].
  unfold isWordByte in Hc. rewrite Hc.
  change (RChar (byteval c) [c] :: map asc (w' ++ rest))
    with (map asc ((c :: w') ++ rest)).
  eapply matchRe_altOf_some with (name := c :: w') (rest := map asc rest).
  - intros name Hn. now destruct (functionNames_words name Hn).
  - exact Hin.
  - rewrite map_app.
    apply (dropRunes_exact (c :: w') (map asc (c :: w')) (map asc rest)).
    now rewrite map_map.
  - cbn [regexp.matchRe].
    rewrite (prevAfter_word (c :: w') Hword prev (or_introl Hne)).
    unfold atBoundary in Hb. apply negb_true_iff in Hb. rewrite Hb.
    cbn [xorb]. reflexivity.
Qed.

Lemma searchFrom_skip (re : regexp.Regexp) (l2 : list rchar) :
  forall l1 prev,
    regexp.searchFrom re (lastRune prev l1) l2 = true ->
    regexp.searchFrom re prev (l1 ++ l2) = true.
Proof.
  induction l1 as [|ch l1' IH]; intros prev H; [exact H|].
  cbn [app regexp.searchFrom].
  destruct (regexp.matchHere re prev (ch :: l1' ++ l2)); [reflexivity|].
  apply IH. exact H.
Qed.

Lemma word_span_bytes (s : str) :
  exists w rest,
    s = w ++ rest /\ forallb isWordByte w = true /\
    atBoundary (map asc rest) = true.
Proof.
  induction s as [|c t IH].
  - now exists [], [].
  - destruct (isWordByte c) eqn:E.
    + destruct IH as (w & rest & -> & Hw & Hb).
      exists (c :: w), rest. repeat split; [|exact Hb].
      cbn [forallb]. now rewrite E, Hw.
    + exists [], (c :: t). repeat split.
      unfold atBoundary. cbn [map regexp.nextRune regexp.isWordOpt asc rune].
      unfold isWordByte in E. now rewrite E.
Qed.

Lemma isFunctionName_In (w : str) :
  isFunctionName w = true -> In w functionNames.
Proof.
  unfold isFunctionName. intros H. apply existsb_exists in H.
  destruct H as (kv & Hkv & Heq). apply str_eqb_eq in Heq. subst w.
  unfold functionNames. now apply in_map.
Qed.

Lemma search_functionWords_true (re : regexp.Regexp) :
  regexp.tree re = functionWords ->
  forall n s,
    (length s <= n)%nat ->
    forall prev,
      regexp.isWordOpt prev = false ->
      existsb isFunctionName (words s) = true ->
      regexp.searchFrom re prev (map asc s) = true.
Proof.
  intros Htree. induction n as [|n IH]; intros s Hlen prev Hprev Hw.
  { destruct s; [discriminate Hw | cbn [length] in Hlen; lia]. }
  destruct s as [|c t]; [discriminate Hw|].
  destruct (isWordByte c) eqn:Ec.
  - destruct (word_span_bytes (c :: t)) as (w & rest & Hs & Hword & Hb).
    rewrite Hs in Hw |- *. unfold words in Hw.
    rewrite wordsAcc_word_run in Hw by exact Hword.
    rewrite wordsAcc_at_boundary in Hw by exact Hb.
    rewrite app_nil_r in Hw.
    assert (Hwne : w <> []).
    { intros ->. cbn [app] in Hs. subst rest.
      unfold atBoundary in Hb.
      cbn [map regexp.nextRune regexp.isWordOpt asc rune] in Hb.
      unfold isWordByte in Ec. rewrite Ec in Hb. discriminate Hb. }
    assert (Hflush : flushWord (rev w) = [w]).
    { unfold flushWord. destruct (rev w) as [|y r] eqn:Er.
      - exfalso. apply Hwne. rewrite <- (rev_involutive w), Er. reflexivity.
      - now rewrite <- Er, rev_involutive. }
    rewrite Hflush in Hw. cbn [app existsb] in Hw.
    destruct (isFunctionName w) eqn:Efn.
    + destruct (matchHere_functionWords_some re prev w rest Htree Hprev
                  (isFunctionName_In w Efn) Hb) as (res & Hres).
      destruct w as [|w0 w']; [contradiction|].
      cbn [app map regexp.searchFrom] in *. now rewrite Hres.
    + cbn [orb] in Hw. fold (words rest) in Hw.
      destruct rest as [|c' t']; [discriminate Hw|].
      assert (Ec' : isWordByte c' = false).
      { unfold atBoundary in Hb.
        cbn [map regexp.nextRune regexp.isWordOpt asc rune] in Hb.
        apply negb_true_iff in Hb. exact Hb. }
      unfold words in Hw. cbn [wordsAcc] in Hw. rewrite Ec' in Hw.
      cbn [flushWord app] in Hw.
      change (w ++ c' :: t') with (w ++ [c'] ++ t').
      rewrite app_assoc, map_app. apply searchFrom_skip.
      apply IH.
      * assert (Hl : length (c :: t) = length (w ++ c' :: t'))
          by now rewrite Hs.
        rewrite length_app in Hl. cbn [length] in Hl, Hlen. lia.
      * assert (Hlast : forall l p, lastRune p (map asc (l ++ [c']))
                                    = Some (byteval c')).
        { induction l as [|x l' IHl]; intros p; [reflexivity|].
          cbn [app map lastRune]. apply IHl. }
        rewrite Hlast. exact Ec'.
      * exact Hw.
  - unfold words in Hw. cbn [wordsAcc] in Hw. rewrite Ec in Hw.
    cbn [flushWord app] in Hw.
    cbn [map regexp.searchFrom].
    destruct (regexp.matchHere re prev (asc c :: map asc t)); [reflexivity|].
    apply IH; [cbn [length] in Hlen; lia | exact Ec | exact Hw].
Qed.

Lemma function_pattern_listed :
  exists re, In re (mathPatterns theConverter) /\
             regexp.tree re = functionWords.
Proof.
  exists (nth 6 (mathPatterns theConverter)
              {| regexp.tree := regexp.Eps; regexp.numSubexp := 0 |}).
  split; [|vm_compute; reflexivity].
  vm_compute. do 6 right. now left.
Qed.

Lemma function_word_is_math (env : GoEnv) (s : str) :
  forallb (fun c => byteval c <? 128) s = true ->
  existsb isFunctionName (words s) = true ->
  isMathExpression env theConverter s = true.
Proof.
  intros Hascii Hw. unfold isMathExpression.
  destruct (strings.Contains s (lit "\")); [reflexivity|].
  destruct (fold_left (countRune env) (runes s) (0, 0)) as [m t].
  destruct ((0 <? t) && ratioAbove m t); [reflexivity|].
  destruct function_pattern_listed as (re & Hre & Htree).
  apply existsb_exists. exists re. split; [exact Hre|].
  unfold regexp.MatchString. rewrite runes_asc by exact Hascii.
  now apply (search_functionWords_true re Htree (length s) s).
Qed.

(** X18. Prose that uses the name of a function as a word is turned into
    display math: a line of the same kind as in X17 (ASCII, no digit, no
    newline, none of [=+-*/^()[]{}<>|], no special character, tight) in
    which some maximal run of letters is one of the nine function names is
    emitted between the display-math delimiters, with a backslash before
    each such word and no other change, whatever the order of the maps. *)
Theorem prose_with_function_word_is_math :
  forall (env : GoEnv) (line : str) (n : nat),
    tight line = true ->
    forallb proseByte line = true ->
    existsb isFunctionName (words line) = true ->
    convert env line n
    = Ok (lit "\[ " ++ markWords line ++ lit " \]", S (S n)).
Proof.
  intros env line n Ht Hp Hw.
  assert (Hfacts : forall c, In c line -> proseByte c = true)
    by (now apply forallb_forall).
  rewrite prose_line by assumption.
  rewrite function_word_is_math; [|apply forallb_forall|exact Hw].
  2:{ intros c Hc. now destruct (proseByte_facts c (Hfacts c Hc)) as (H & _). }
  assert (Hno : forall c, In c (lit "/^(") -> ~ In c (markWords line)).
  { intros c Hc Hin. apply markAcc_origin in Hin.
    destruct Hin as [->|[[]|Hin]].
    - simpl in Hc. intuition discriminate.
    - specialize (Hfacts c Hin). simpl in Hc.
      destruct Hc as [<-|[<-|[<-|[]]]]; discriminate Hfacts. }
  destruct rewrite_patterns_require as (Hf & He & _ & Hq & Hi & _).
  unfold rewriteTail. cbv zeta. set (m := markWords line) in *.
  rewrite (ReplaceAllString_absent "/"%char _ m);
    [|reflexivity | exact Hf | apply Hno; simpl; tauto].
  rewrite (ReplaceAllString_absent "^"%char _ m);
    [|reflexivity | exact He | apply Hno; simpl; tauto].
  rewrite (ReplaceAllString_absent "("%char _ m);
    [|reflexivity | exact Hq | apply Hno; simpl; tauto].
  rewrite (ReplaceAllString_absent "^"%char _ m);
    [|reflexivity | exact Hi | apply Hno; simpl; tauto].
  reflexivity.
Qed.

Lemma prose_with_function_word_is_math_witness :
  convert reverseOrderEnv (lit "The sum of the parts") 0%nat
  = Ok (lit "\[ The \sum of the parts \]", 2%nat).
Proof.
  apply (prose_with_function_word_is_math reverseOrderEnv
           (lit "The sum of the parts") 0%nat); reflexivity.
Defined.
